(** * SIMS sync subsystem: the local sync transport and the data-bound hook

    A shallow embedding of [services/syncService.ts] (class [SyncService],
    the transport behind [ISyncTransport]) and of [hooks/useSyncedData.ts],
    with the properties the design document states about them.

    The transport is a JavaScript object that lives in a browser window.
    The embedding keeps the two apart:
    - [SyncService] is the record of the object's private fields;
    - [Window] is everything the object touches outside itself: the heap of
      [Set] objects the listener map points to, the listeners installed on
      [window], the running intervals, the open broadcast channels, the
      number of [Date.now()] calls made so far, and a trace of the effects
      performed (console warnings, posted messages, dispatched events,
      invoked callbacks).

    What the environment decides (the wall clock, what a subscribed callback
    does when it is called, whether [BroadcastChannel] exists) is gathered in
    a record [Env] that every operation is parameterised by.

    The last part covers what is built on the transport
    ([contexts/SyncContext.tsx], [components/SyncIndicator.tsx]) and the
    handlers of the sign-up page ([pages/Signup.tsx]). *)

From Stdlib Require Import ZArith Lia.
From stdpp Require Import gmap strings list fin_maps pretty.

(** ** JavaScript [Set] objects

    ECMAScript keeps the elements of a [Set] in a list [[SetData]] in
    insertion order.  [delete] does not shorten the list, it overwrites the
    entry with the marker [empty]; [add] appends unless the value is
    present; [size] counts the entries that are not [empty]; [forEach] walks
    the list by index and re-reads its length after each callback.  This is
    what makes a [Set] that is changed while it is iterated well defined, and
    it is the behaviour the dispatch loop of the transport relies on. *)
Module JsSet.

Abbreviation t := (list (option nat)) (only parsing).

Definition has (v : nat) (d : t) : bool := bool_decide (Some v ∈ d).

Definition add (v : nat) (d : t) : t :=
  if has v d then d else d ++ [Some v].

Definition delete (v : nat) (d : t) : t :=
  (λ e, if decide (e = Some v) then None else e) <$> d.

Definition size (d : t) : nat := length (omap id d).

(** The values a fresh iteration of an unchanging set visits, in order. *)
Definition values (d : t) : list nat := omap id d.

End JsSet.

(** ** Data model *)

Inductive SyncEventType := storage_update | data_refresh | force_sync.

Record SyncMessage := {
  type : SyncEventType;
  key : option string;
  timestamp : Z
}.

(** The private fields of [class SyncService].  Objects the class holds by
    reference (the channel, the two listener closures, the interval, the
    [Set] of each key) are held here by their identifier. *)
Record SyncService := {
  channel : option nat;
  listeners : gmap string nat;
  refreshInterval : option nat;
  lastSyncTime : Z;
  storageListener : option nat;
  customEventListener : option nat;
  isStarted : bool
}.

(** Effects that leave the transport. *)
Inductive Effect :=
| Warn (text : string)               (* console.warn *)
| Posted (m : SyncMessage)           (* channel.postMessage *)
| Dispatched (m : SyncMessage)       (* window.dispatchEvent(STORAGE_EVENT_KEY) *)
| SyncTimeUpdate (t : Z)             (* window.dispatchEvent('sync-time-update') *)
| Called (callback : nat).           (* a subscribed callback was invoked *)

Record Window := {
  heap : list JsSet.t;
  storageHandlers : list nat;
  customHandlers : list nat;
  intervals : list nat;
  channels : list nat;
  nextId : nat;
  reads : nat;
  trace : list Effect
}.

Record State := { win : Window; this : SyncService }.

(** What a subscribed callback does to the transport, synchronously, when
    it is invoked: it may subscribe callbacks and call revocation handles,
    and it returns.  (The callback of the data-bound hook, the only
    subscriber in the code, does neither; it starts a fetch and returns a
    promise.)  A callback that throws, or that calls [notifyUpdate],
    [forceSync], [start] or [stop] from inside a dispatch, is not described
    by this type: what is proved below about dispatch is proved for
    callbacks that return and touch the transport only in these two ways. *)
Inductive CbAction :=
| CbSubscribe (key : string) (callback : nat)
| CbRevoke (key : string) (callback : nat).

Record Env := {
  clock : nat → Z;                (* the n-th call of Date.now() *)
  body : nat → list CbAction;     (* the synchronous body of each callback *)
  fuel : nat;                     (* bound on the steps of one forEach pass *)
  bcDefined : bool;               (* typeof BroadcastChannel !== 'undefined' *)
  bcThrows : bool;                (* new BroadcastChannel(..) throws *)
  postThrows : bool               (* channel.postMessage(..) throws *)
}.

(** JavaScript truthiness of an optional string: [undefined], [null] and the
    empty string are falsy. *)
Definition truthy (k : option string) : option string :=
  match k with
  | Some s => if decide (s = "") then None else Some s
  | None => None
  end.

(** ** Field updates *)

Definition with_heap (h : list JsSet.t) (st : State) : State :=
  {| win := {| heap := h;
               storageHandlers := storageHandlers (win st);
               customHandlers := customHandlers (win st);
               intervals := intervals (win st);
               channels := channels (win st);
               nextId := nextId (win st);
               reads := reads (win st);
               trace := trace (win st) |};
     this := this st |}.

Definition with_listeners (m : gmap string nat) (st : State) : State :=
  {| win := win st;
     this := {| channel := channel (this st);
                listeners := m;
                refreshInterval := refreshInterval (this st);
                lastSyncTime := lastSyncTime (this st);
                storageListener := storageListener (this st);
                customEventListener := customEventListener (this st);
                isStarted := isStarted (this st) |} |}.

Definition emit (e : Effect) (st : State) : State :=
  {| win := {| heap := heap (win st);
               storageHandlers := storageHandlers (win st);
               customHandlers := customHandlers (win st);
               intervals := intervals (win st);
               channels := channels (win st);
               nextId := nextId (win st);
               reads := reads (win st);
               trace := trace (win st) ++ [e] |};
     this := this st |}.

(** [Date.now()]: the next reading of the wall clock. *)
Definition tick (st : State) : State :=
  {| win := {| heap := heap (win st);
               storageHandlers := storageHandlers (win st);
               customHandlers := customHandlers (win st);
               intervals := intervals (win st);
               channels := channels (win st);
               nextId := nextId (win st);
               reads := S (reads (win st));
               trace := trace (win st) |};
     this := this st |}.

Definition with_lastSyncTime (t : Z) (st : State) : State :=
  {| win := win st;
     this := {| channel := channel (this st);
                listeners := listeners (this st);
                refreshInterval := refreshInterval (this st);
                lastSyncTime := t;
                storageListener := storageListener (this st);
                customEventListener := customEventListener (this st);
                isStarted := isStarted (this st) |} |}.

Definition on_win (f : Window → Window) (st : State) : State :=
  {| win := f (win st); this := this st |}.

Definition on_this (f : SyncService → SyncService) (st : State) : State :=
  {| win := win st; this := f (this st) |}.

Definition set_storageHandlers (l : list nat) (w : Window) : Window :=
  {| heap := heap w; storageHandlers := l; customHandlers := customHandlers w;
     intervals := intervals w; channels := channels w; nextId := nextId w;
     reads := reads w; trace := trace w |}.

Definition set_customHandlers (l : list nat) (w : Window) : Window :=
  {| heap := heap w; storageHandlers := storageHandlers w; customHandlers := l;
     intervals := intervals w; channels := channels w; nextId := nextId w;
     reads := reads w; trace := trace w |}.

Definition set_intervals (l : list nat) (w : Window) : Window :=
  {| heap := heap w; storageHandlers := storageHandlers w;
     customHandlers := customHandlers w; intervals := l; channels := channels w;
     nextId := nextId w; reads := reads w; trace := trace w |}.

Definition set_channels (l : list nat) (w : Window) : Window :=
  {| heap := heap w; storageHandlers := storageHandlers w;
     customHandlers := customHandlers w; intervals := intervals w; channels := l;
     nextId := nextId w; reads := reads w; trace := trace w |}.

Definition set_nextId (n : nat) (w : Window) : Window :=
  {| heap := heap w; storageHandlers := storageHandlers w;
     customHandlers := customHandlers w; intervals := intervals w;
     channels := channels w; nextId := n; reads := reads w; trace := trace w |}.

Definition set_channel (c : option nat) (o : SyncService) : SyncService :=
  {| channel := c; listeners := listeners o; refreshInterval := refreshInterval o;
     lastSyncTime := lastSyncTime o; storageListener := storageListener o;
     customEventListener := customEventListener o; isStarted := isStarted o |}.

Definition set_refreshInterval (i : option nat) (o : SyncService) : SyncService :=
  {| channel := channel o; listeners := listeners o; refreshInterval := i;
     lastSyncTime := lastSyncTime o; storageListener := storageListener o;
     customEventListener := customEventListener o; isStarted := isStarted o |}.

Definition set_storageListener (l : option nat) (o : SyncService) : SyncService :=
  {| channel := channel o; listeners := listeners o;
     refreshInterval := refreshInterval o; lastSyncTime := lastSyncTime o;
     storageListener := l; customEventListener := customEventListener o;
     isStarted := isStarted o |}.

Definition set_customEventListener (l : option nat) (o : SyncService) : SyncService :=
  {| channel := channel o; listeners := listeners o;
     refreshInterval := refreshInterval o; lastSyncTime := lastSyncTime o;
     storageListener := storageListener o; customEventListener := l;
     isStarted := isStarted o |}.

Definition set_isStarted (b : bool) (o : SyncService) : SyncService :=
  {| channel := channel o; listeners := listeners o;
     refreshInterval := refreshInterval o; lastSyncTime := lastSyncTime o;
     storageListener := storageListener o;
     customEventListener := customEventListener o; isStarted := b |}.

(** [removeEventListener], [clearInterval], [close]: the object with this
    identifier is no longer installed. *)
Definition remove_id (id : nat) (l : list nat) : list nat :=
  filter (λ x, x ≠ id) l.

(** ** The listener registry: [subscribe] and the handle it returns *)

Definition subscribe (key : string) (callback : nat) (st : State) : State :=
  let st1 :=
    match listeners (this st) !! key with
    | Some _ => st
    | None =>
        let r := length (heap (win st)) in
        with_listeners (<[key := r]> (listeners (this st)))
          (with_heap (heap (win st) ++ [[]]) st)
    end in
  match listeners (this st1) !! key with
  | Some r => with_heap (alter (JsSet.add callback) r (heap (win st1))) st1
  | None => st1                 (* not reached: the key was just set *)
  end.

(** The closure [() => { ... }] returned by [subscribe(key, callback)]. *)
Definition revoke (key : string) (callback : nat) (st : State) : State :=
  match listeners (this st) !! key with
  | Some r =>
      let st1 := with_heap (alter (JsSet.delete callback) r (heap (win st))) st in
      match heap (win st1) !! r with
      | Some d =>
          if decide (JsSet.size d = 0)
          then with_listeners (delete key (listeners (this st1))) st1
          else st1
      | None => st1             (* not reached: the map holds live objects *)
      end
  | None => st
  end.

(** The callbacks registered under [key], in the order a fresh pass visits
    them. *)
Definition callbacksOf (key : string) (st : State) : list nat :=
  match listeners (this st) !! key with
  | Some r => match heap (win st) !! r with
              | Some d => JsSet.values d
              | None => []
              end
  | None => []
  end.

Section Transport.

Context (env : Env).

Definition runAction (a : CbAction) (st : State) : State :=
  match a with
  | CbSubscribe k c => subscribe k c st
  | CbRevoke k c => revoke k c st
  end.

(** [callback()] *)
Definition invoke (callback : nat) (st : State) : State :=
  foldl (λ s a, runAction a s) (emit (Called callback) st) (body env callback).

(** [set.forEach(callback => callback())] on the [Set] object [r], from
    index [i] on.  The list is read again from the heap at every step, so
    the pass sees what the callbacks did to the set.  [None] means that the
    pass did not finish within [n] steps (a callback that keeps subscribing
    new callbacks keeps the loop going for ever). *)
Fixpoint forEach (n : nat) (r i : nat) (st : State) : option State :=
  match n with
  | 0 => None
  | S n' =>
      match heap (win st) !! r with
      | None => Some st
      | Some d =>
          match d !! i with
          | None => Some st
          | Some None => forEach n' r (S i) st
          | Some (Some c) => forEach n' r (S i) (invoke c st)
          end
      end
  end.

Definition notifyListeners (key : string) (st : State) : option State :=
  st1 ← match listeners (this st) !! key with
        | Some r => forEach (fuel env) r 0 st
        | None => Some st
        end;
  match listeners (this st1) !! "*" with
  | Some g => if decide (key ≠ "*") then forEach (fuel env) g 0 st1 else Some st1
  | None => Some st1
  end.

Definition updateSyncTime (st : State) : State :=
  let t := clock env (reads (win st)) in
  emit (SyncTimeUpdate t) (with_lastSyncTime t (tick st)).

Definition handleSyncMessage (message : SyncMessage) (st : State) : option State :=
  let st1 := updateSyncTime st in
  match type message with
  | storage_update =>
      match truthy (key message) with
      | Some k => notifyListeners k st1
      | None => Some st1
      end
  | data_refresh => notifyListeners "*" st1
  | force_sync =>
      match truthy (key message) with
      | Some k => notifyListeners k st1
      | None => notifyListeners "*" st1
      end
  end.

(** *** Lifecycle: [start], [stop] *)

Definition initializeBroadcastChannel (st : State) : State :=
  if bcDefined env then
    if bcThrows env then
      emit (Warn "BroadcastChannel not available, falling back to storage events only") st
    else
      let id := nextId (win st) in
      on_this (set_channel (Some id))
        (on_win (λ w, set_nextId (S id) (set_channels (channels w ++ [id]) w)) st)
  else st.

(** Two fresh closures are stored in the object and added to [window]. *)
Definition setupStorageListener (st : State) : State :=
  let s := nextId (win st) in
  let c := S s in
  on_this (λ o, set_customEventListener (Some c) (set_storageListener (Some s) o))
    (on_win (λ w, set_nextId (S c)
                    (set_customHandlers (customHandlers w ++ [c])
                       (set_storageHandlers (storageHandlers w ++ [s]) w))) st).

Definition startAutoRefresh (st : State) : State :=
  let id := nextId (win st) in
  on_this (set_refreshInterval (Some id))
    (on_win (λ w, set_nextId (S id) (set_intervals (intervals w ++ [id]) w)) st).

Definition start (st : State) : State :=
  if isStarted (this st) then emit (Warn "SyncService already started") st
  else
    startAutoRefresh
      (setupStorageListener
         (initializeBroadcastChannel (on_this (set_isStarted true) st))).

Definition destroy (st : State) : State :=
  if negb (isStarted (this st)) then st
  else
    let st1 :=
      match refreshInterval (this st) with
      | Some id =>
          on_this (set_refreshInterval None)
            (on_win (λ w, set_intervals (remove_id id (intervals w)) w) st)
      | None => st
      end in
    let st2 :=
      match channel (this st1) with
      | Some id =>
          on_this (set_channel None)
            (on_win (λ w, set_channels (remove_id id (channels w)) w) st1)
      | None => st1
      end in
    let st3 :=
      match storageListener (this st2) with
      | Some id =>
          on_this (set_storageListener None)
            (on_win (λ w, set_storageHandlers (remove_id id (storageHandlers w)) w) st2)
      | None => st2
      end in
    let st4 :=
      match customEventListener (this st3) with
      | Some id =>
          on_this (set_customEventListener None)
            (on_win (λ w, set_customHandlers (remove_id id (customHandlers w)) w) st3)
      | None => st3
      end in
    on_this (set_isStarted false) (with_listeners ∅ st4).

Definition stop (st : State) : State := destroy st.

(** *** The listeners installed by [setupStorageListener] *)

(** [this.storageListener]: the argument is [e.key]. *)
Definition onStorage (eventKey : option string) (st : State) : option State :=
  match truthy eventKey with
  | Some k => st1 ← notifyListeners k st; Some (updateSyncTime st1)
  | None => Some st
  end.

(** The [detail] of a [STORAGE_EVENT_KEY] event: a full message when it has
    a truthy [type], otherwise at most a key. *)
Inductive Detail :=
| DetailMessage (m : SyncMessage)
| DetailKey (k : option string).

(** [this.customEventListener] *)
Definition onCustomEvent (detail : Detail) (st : State) : option State :=
  match detail with
  | DetailMessage m => handleSyncMessage m st
  | DetailKey k =>
      match truthy k with
      | Some k' => st1 ← notifyListeners k' st; Some (updateSyncTime st1)
      | None => Some st
      end
  end.

(** [window.dispatchEvent(e)]: every listener installed for the event type
    runs once. *)
Definition dispatchTo {A} (handlers : list A) (h : State → option State)
    (st : State) : option State :=
  foldl (λ acc _, acc ≫= h) (Some st) handlers.

(** *** [broadcast] and the public operations built on it *)

(** [if (this.channel) { try { this.channel.postMessage(m) } catch { warn } }] *)
Definition postMessage (m : SyncMessage) (st : State) : State :=
  match channel (this st) with
  | Some _ =>
      if postThrows env then emit (Warn "Failed to broadcast message") st
      else emit (Posted m) st
  | None => st
  end.

Definition broadcast (ty : SyncEventType) (k : option string) (st : State)
    : option State :=
  let fullMessage :=
    {| type := ty; key := k; timestamp := clock env (reads (win st)) |} in
  let st1 := tick st in
  let st2 := postMessage fullMessage st1 in
  let st3 := emit (Dispatched fullMessage) st2 in
  st4 ← dispatchTo (customHandlers (win st3)) (onCustomEvent (DetailMessage fullMessage)) st3;
  Some (updateSyncTime st4).

Definition notifyUpdate (key : string) (st : State) : option State :=
  broadcast storage_update (Some key) st.

Definition forceSync (key : option string) (st : State) : option State :=
  broadcast force_sync key st.

Definition getLastSyncTime (st : State) : Z := lastSyncTime (this st).

(** The callback given to [setInterval]. *)
Definition onInterval (st : State) : option State :=
  broadcast data_refresh None st.

(** *** Runs *)

(** A call of the public interface, or something the environment does. *)
Inductive Op :=
| OpStart
| OpStop
| OpSubscribe (key : string) (callback : nat)
| OpRevoke (key : string) (callback : nat)
| OpNotifyUpdate (key : string)
| OpForceSync (key : option string)
| OpIntervalElapsed                      (* every running interval fires once *)
| OpStorageEvent (eventKey : option string)
| OpChannelMessage (m : SyncMessage)     (* a message arrives on the channel *)
| OpCustomEvent (detail : Detail).       (* someone dispatches STORAGE_EVENT_KEY *)

Definition step (op : Op) (st : State) : option State :=
  match op with
  | OpStart => Some (start st)
  | OpStop => Some (stop st)
  | OpSubscribe k c => Some (subscribe k c st)
  | OpRevoke k c => Some (revoke k c st)
  | OpNotifyUpdate k => notifyUpdate k st
  | OpForceSync k => forceSync k st
  | OpIntervalElapsed => dispatchTo (intervals (win st)) onInterval st
  | OpStorageEvent k => dispatchTo (storageHandlers (win st)) (onStorage k) st
  | OpChannelMessage m => dispatchTo (channels (win st)) (handleSyncMessage m) st
  | OpCustomEvent d => dispatchTo (customHandlers (win st)) (onCustomEvent d) st
  end.

Fixpoint run (ops : list Op) (st : State) : option State :=
  match ops with
  | [] => Some st
  | op :: ops' => step op st ≫= run ops'
  end.

(** [new SyncService()] in a window: the constructor reads the clock once. *)
Definition newSyncService (w : Window) : State :=
  tick {| win := w;
          this := {| channel := None;
                     listeners := ∅;
                     refreshInterval := None;
                     lastSyncTime := clock env (reads w);
                     storageListener := None;
                     customEventListener := None;
                     isStarted := false |} |}.

(** A window in which nothing of the transport is installed yet (the [Set]
    objects it may already hold are sets: no value is listed twice). *)
Definition pristine (w : Window) : Prop :=
  storageHandlers w = [] ∧ customHandlers w = [] ∧ intervals w = [] ∧ channels w = []
  ∧ ∀ r d, heap w !! r = Some d → NoDup (JsSet.values d).

Inductive reachable : State → Prop :=
| reachable_new w : pristine w → reachable (newSyncService w)
| reachable_step op st st' : reachable st → step op st = Some st' → reachable st'.

End Transport.

(** ** The data-bound hook [useSyncedData]

    The hook keeps three pieces of React state ([data], [loading],
    [trigger]) and runs one effect.  Every run of the effect creates a
    closure with its own mutable flag [isMounted] and its own [doFetch];
    [doFetch] is what the effect hands to [syncTransport.subscribe].  A call
    of [doFetch] runs up to [await fetcher()], and the rest of it runs when
    the promise settles, possibly long after the effect was cleaned up. *)
Module UseSyncedData.

Section Hook.

Context {T E : Type}.

(** How the promise returned by [fetcher()] settles. *)
Inductive Outcome :=
| Resolved (result : T)
| Rejected (error : E).

(** How a call of an [async] function ends for its caller. *)
Inductive Completion :=
| Normal
| Throw (error : E).

(** The variables one run of the effect closes over.  [data] is the value
    of the state variable in the render that scheduled the run: it is not
    among the effect's dependencies, so [doFetch] keeps seeing that value. *)
Record Closure := {
  isMounted : bool;
  data : option T;
  watchKeys : list string
}.

Record Hook := {
  dataState : option T;          (* useState<T | null>(null) *)
  loading : bool;                (* useState(true) *)
  trigger : nat;                 (* useState(0) *)
  effects : list Closure;        (* the runs of the effect, oldest first *)
  pending : list nat;            (* runs whose doFetch awaits its fetcher *)
  errors : list E                (* console.error *)
}.

Definition initial : Hook :=
  {| dataState := None; loading := true; trigger := 0;
     effects := []; pending := []; errors := [] |}.

Definition setData (v : option T) (h : Hook) : Hook :=
  {| dataState := v; loading := loading h; trigger := trigger h;
     effects := effects h; pending := pending h; errors := errors h |}.

Definition setLoading (b : bool) (h : Hook) : Hook :=
  {| dataState := dataState h; loading := b; trigger := trigger h;
     effects := effects h; pending := pending h; errors := errors h |}.

Definition setTrigger (n : nat) (h : Hook) : Hook :=
  {| dataState := dataState h; loading := loading h; trigger := n;
     effects := effects h; pending := pending h; errors := errors h |}.

Definition consoleError (err : E) (h : Hook) : Hook :=
  {| dataState := dataState h; loading := loading h; trigger := trigger h;
     effects := effects h; pending := pending h; errors := errors h ++ [err] |}.

Definition set_effects (l : list Closure) (h : Hook) : Hook :=
  {| dataState := dataState h; loading := loading h; trigger := trigger h;
     effects := l; pending := pending h; errors := errors h |}.

Definition set_pending (l : list nat) (h : Hook) : Hook :=
  {| dataState := dataState h; loading := loading h; trigger := trigger h;
     effects := effects h; pending := l; errors := errors h |}.

(** The current value of [isMounted] in run [e]. *)
Definition mounted (e : nat) (h : Hook) : bool :=
  match effects h !! e with
  | Some c => isMounted c
  | None => false
  end.

(** [doFetch] from the point where [fetcher()] has settled (or thrown): the
    rest of the [try], the [catch] and the [finally]. *)
Definition doFetch_settle (e : nat) (o : Outcome) (h : Hook) : Hook * Completion :=
  let h1 :=
    match o with
    | Resolved result => if mounted e h then setData (Some result) h else h
    | Rejected error => if mounted e h then consoleError error h else h
    end in
  (if mounted e h1 then setLoading false h1 else h1, Normal).

(** [doFetch] up to [await fetcher()].  [thrown] is the exception of a
    fetcher that throws before it returns a promise.  The result tells
    whether the call is now suspended at the [await]. *)
Definition doFetch (e : nat) (thrown : option E) (h : Hook) : Hook * bool :=
  if negb (mounted e h) then (h, false)
  else
    let h1 :=
      match effects h !! e with
      | Some c => match data c with
                  | None => setLoading true h
                  | Some _ => h
                  end
      | None => h
      end in
    match thrown with
    | Some error => (fst (doFetch_settle e (Rejected error) h1), false)
    | None => (set_pending (pending h1 ++ [e]) h1, true)
    end.

(** The function the effect returns: [isMounted = false], then the
    subscriptions are revoked (on the transport). *)
Definition cleanup (e : nat) (h : Hook) : Hook :=
  set_effects
    (alter (λ c, {| isMounted := false; data := data c; watchKeys := watchKeys c |})
       e (effects h)) h.

(** The run of the effect that is current, if the effect ran at all. *)
Definition current (h : Hook) : option nat :=
  match length (effects h) with
  | 0 => None
  | S n => Some n
  end.

(** React runs the effect: the previous run is cleaned up, a new closure is
    created, [doFetch()] is called, and [doFetch] is subscribed under every
    watch key. *)
Definition runEffect (keys : list string) (thrown : option E) (h : Hook) : Hook :=
  let h1 := match current h with
            | Some e => cleanup e h
            | None => h
            end in
  let e := length (effects h1) in
  let h2 :=
    set_effects
      (effects h1 ++ [{| isMounted := true; data := dataState h1; watchKeys := keys |}])
      h1 in
  fst (doFetch e thrown h2).

(** The component is removed: the current run is cleaned up. *)
Definition unmount (h : Hook) : Hook :=
  match current h with
  | Some e => cleanup e h
  | None => h
  end.

(** The [p]-th suspended call resumes with outcome [o]. *)
Definition settle (p : nat) (o : Outcome) (h : Hook) : Hook :=
  match pending h !! p with
  | Some e => fst (doFetch_settle e o (set_pending (delete p (pending h)) h))
  | None => h
  end.

Inductive Event :=
| EvRun (keys : list string) (thrown : option E)   (* mount, or a dependency changed *)
| EvRefetch (keys : list string) (thrown : option E) (* refetch(): trigger + 1, effect re-runs *)
| EvNotify (e : nat) (thrown : option E)           (* the transport calls doFetch of run e *)
| EvSettle (p : nat) (o : Outcome).                (* a fetcher promise settles *)

Definition stepHook (ev : Event) (h : Hook) : Hook :=
  match ev with
  | EvRun keys thrown => runEffect keys thrown h
  | EvRefetch keys thrown => runEffect keys thrown (setTrigger (S (trigger h)) h)
  | EvNotify e thrown => fst (doFetch e thrown h)
  | EvSettle p o => settle p o h
  end.

Definition runHook (evs : list Event) (h : Hook) : Hook :=
  foldl (λ s ev, stepHook ev s) h evs.

(** Events that can still happen once the component is gone: callbacks and
    promises that were handed out earlier. *)
Definition afterUnmount (ev : Event) : bool :=
  match ev with
  | EvNotify _ _ | EvSettle _ _ => true
  | _ => false
  end.

(** What the component shows and logs. *)
Definition observable (h : Hook) : option T * bool * list E :=
  (dataState h, loading h, errors h).

(** The hook states a component can be in. *)
Definition reachableHook (h : Hook) : Prop :=
  ∃ evs, runHook evs initial = h.

(** Only the newest run of the effect can still be mounted. *)
Definition only_current_mounted (h : Hook) : Prop :=
  ∀ i c, effects h !! i = Some c → isMounted c = true → S i = length (effects h).

End Hook.

Arguments Outcome : clear implicits.
Arguments Completion : clear implicits.
Arguments Closure : clear implicits.
Arguments Hook : clear implicits.
Arguments Event : clear implicits.

(** A component that has just mounted with watch key ["teams"]: run 0 of
    the effect is mounted and its first fetch is in flight. *)
Definition inflightHook : Hook nat string :=
  runHook [EvRun ["teams"] None] initial.

(** The same component after [refetch()]: run 0 was cleaned up and run 1
    is mounted; the first fetch of each of them is in flight. *)
Definition refetchedHook : Hook nat string :=
  runHook [EvRun ["teams"] None; EvRefetch ["teams"] None] initial.

End UseSyncedData.

(** ** Invariants of the registry and of the lifecycle *)

(** The listener map and the heap of [Set] objects fit together: every key
    points to an allocated set that is not empty, no two keys share a set,
    and no set lists a callback twice. *)
Definition registry_ok (st : State) : Prop :=
  (∀ k r, listeners (this st) !! k = Some r →
     ∃ d, heap (win st) !! r = Some d ∧ JsSet.size d ≠ 0)
  ∧ (∀ k1 k2 r, listeners (this st) !! k1 = Some r →
       listeners (this st) !! k2 = Some r → k1 = k2)
  ∧ (∀ r d, heap (win st) !! r = Some d → NoDup (JsSet.values d)).

(** What is installed in the window is exactly what the object holds, and
    the object holds all of it when started and none of it when stopped. *)
Definition lifecycle_ok (st : State) : Prop :=
  storageHandlers (win st) = option_list (storageListener (this st))
  ∧ customHandlers (win st) = option_list (customEventListener (this st))
  ∧ intervals (win st) = option_list (refreshInterval (this st))
  ∧ channels (win st) = option_list (channel (this st))
  ∧ if isStarted (this st)
    then is_Some (storageListener (this st))
         ∧ is_Some (customEventListener (this st))
         ∧ is_Some (refreshInterval (this st))
    else storageListener (this st) = None
         ∧ customEventListener (this st) = None
         ∧ refreshInterval (this st) = None
         ∧ channel (this st) = None.

(** The callbacks invoked so far, oldest first. *)
Definition calls (st : State) : list nat :=
  omap (λ e, match e with Called c => Some c | _ => None end) (trace (win st)).

(** The [STORAGE_EVENT_KEY] events dispatched so far, oldest first. *)
Definition dispatched (st : State) : list SyncMessage :=
  omap (λ e, match e with Dispatched m => Some m | _ => None end) (trace (win st)).

(** The state after a list of effects, and nothing else, has happened. *)
Definition emits (l : list Effect) (st : State) : State :=
  on_win (λ w, {| heap := heap w; storageHandlers := storageHandlers w;
                  customHandlers := customHandlers w; intervals := intervals w;
                  channels := channels w; nextId := nextId w; reads := reads w;
                  trace := trace w ++ l |}) st.

(** A callback that neither subscribes nor revokes when it is called. *)
Definition quiet (env : Env) (c : nat) : Prop := body env c = [].

(** One pass has enough steps for every [Set] the listener map points to. *)
Definition enough_fuel (env : Env) (st : State) : Prop :=
  Forall (λ kr : string * nat,
            from_option (λ d : JsSet.t, length d < fuel env) True
              (heap (win st) !! kr.2))
    (map_to_list (listeners (this st))).

(** Successive readings of the wall clock do not go back. *)
Definition clock_monotone (env : Env) : Prop :=
  ∀ i, (clock env i ≤ clock env (S i))%Z.

(** The last-sync time is a reading that was taken earlier. *)
Definition time_ok (env : Env) (st : State) : Prop :=
  (lastSyncTime (this st) ≤ clock env (reads (win st)))%Z.

(** Between an earlier and a later state the invariant is kept and the
    last-sync time does not go back. *)
Definition later (env : Env) (a b : State) : Prop :=
  time_ok env a →
  time_ok env b ∧ (lastSyncTime (this a) ≤ lastSyncTime (this b))%Z.

(** The dispatch rule, stated apart from the code.  The callbacks a call
    [notifyListeners(key)] is to reach: those of [key],
    then those of the wildcard unless [key] is the wildcard. *)
Definition notifyTargets (key : string) (st : State) : list nat :=
  callbacksOf key st ++ (if decide (key = "*") then [] else callbacksOf "*" st).

(** The callbacks a message is to reach, by kind and key (a key counts
    when it is a non-empty string). *)
Definition dispatchTargets (m : SyncMessage) (st : State) : list nat :=
  match type m, truthy (key m) with
  | storage_update, Some k => notifyTargets k st
  | storage_update, None => []
  | data_refresh, _ => callbacksOf "*" st
  | force_sync, Some k => notifyTargets k st
  | force_sync, None => callbacksOf "*" st
  end.

(** The dispatch rule in the words of the design document: a
    [storage-update] or [force-sync] message that carries a key reaches the
    callbacks of that key and the wildcard callbacks, each callback once;
    a message without key, and every [data-refresh] message, reaches the
    wildcard callbacks. *)
Definition claimedTargets (m : SyncMessage) (st : State) : list nat :=
  match type m, key m with
  | data_refresh, _ | _, None => callbacksOf "*" st
  | _, Some k =>
      callbacksOf k st
      ++ filter (λ c, c ∉ callbacksOf k st) (callbacksOf "*" st)
  end.

(** ** One pass, seen from the [Set] alone *)

(** What one action of a callback does to the [Set] a pass is walking, the
    set of [key].  The set is [attached] as long as the listener map holds
    it under [key]: a [revoke] that empties it deletes the key, and a later
    [subscribe] under the key makes a new [Set]; the pass keeps walking the
    old one, which nothing changes any more. *)
Definition actOn (key : string) (a : CbAction) (s : list (option nat) * bool)
    : list (option nat) * bool :=
  if s.2 then
    match a with
    | CbSubscribe k c => if decide (k = key) then (JsSet.add c s.1, true) else s
    | CbRevoke k c =>
        if decide (k = key)
        then (JsSet.delete c s.1, bool_decide (JsSet.size (JsSet.delete c s.1) ≠ 0))
        else s
    end
  else s.

(** The [Set] after the callback [c] has run. *)
Definition setAfter (env : Env) (key : string) (c : nat)
    (s : list (option nat) * bool) : list (option nat) * bool :=
  foldl (λ s a, actOn key a s) s (body env c).

(** Live iteration, stated apart from the code: the walk visits the
    entries in insertion order, skips those that were deleted, looks at the
    set again after every callback, and goes on to entries that were
    appended meanwhile.  [None]: it did not end within [n] steps. *)
Fixpoint walk (env : Env) (key : string) (n i : nat)
    (s : list (option nat) * bool) : option (list nat) :=
  match n with
  | 0 => None
  | S n' =>
      match s.1 !! i with
      | None => Some []
      | Some None => walk env key n' (S i) s
      | Some (Some c) => (c ::.) <$> walk env key n' (S i) (setAfter env key c s)
      end
  end.

(** The pass over the [Set] object [r] of [key] and the pair [s] describe
    the same set: [r] holds the entries of [s], and [r] is the set of [key]
    in the listener map exactly as long as [s] is attached. *)
Definition tracks (key : string) (r : nat) (s : list (option nat) * bool) (st : State) : Prop :=
  registry_ok st
  ∧ heap (win st) !! r = Some s.1
  ∧ if s.2 then listeners (this st) !! key = Some r
    else ∀ k, listeners (this st) !! k ≠ Some r.

(** ** Concrete environments and states used in the examples below *)

Definition emptyWindow : Window :=
  {| heap := []; storageHandlers := []; customHandlers := []; intervals := [];
     channels := []; nextId := 0; reads := 0; trace := [] |}.

(** A clock that advances, callbacks that only do their own work. *)
Definition quietEnv : Env :=
  {| clock := Z.of_nat; body := λ _, []; fuel := 8;
     bcDefined := true; bcThrows := false; postThrows := false |}.

(** Callback 0 revokes callback 1 and subscribes callback 2, both under the
    key it is itself subscribed to. *)
Definition reentrantEnv : Env :=
  {| clock := Z.of_nat;
     body := λ c, match c with
                  | 0 => [CbRevoke "teams" 1; CbSubscribe "teams" 2]
                  | _ => []
                  end;
     fuel := 8; bcDefined := true; bcThrows := false; postThrows := false |}.

(** A wall clock that is set back once, after the transport was created. *)
Definition setBackEnv : Env :=
  {| clock := λ n, match n with 0 => 1000%Z | S _ => (500 + Z.of_nat n)%Z end;
     body := λ _, []; fuel := 8;
     bcDefined := true; bcThrows := false; postThrows := false |}.

(** A transport that was created and started in an empty window. *)
Definition startedState : State :=
  start quietEnv (newSyncService quietEnv emptyWindow).

(** A transport that was never started, with one subscriber. *)
Definition stoppedState : State :=
  subscribe "teams" 7 (newSyncService quietEnv emptyWindow).

(** A started transport with callback 7 subscribed under a key and under
    the wildcard. *)
Definition sharedCallbackState : State :=
  subscribe "*" 7
    (subscribe "teams" 7 (start quietEnv (newSyncService quietEnv emptyWindow))).

(** A started transport with callbacks 0 and 1 subscribed under one key. *)
Definition twoCallbacksState : State :=
  subscribe "teams" 1
    (subscribe "teams" 0 (start reentrantEnv (newSyncService reentrantEnv emptyWindow))).

(** Callback 1 takes itself out of the set of its key and puts itself
    back, every time it is invoked. *)
Definition resubscribingEnv : Env :=
  {| clock := Z.of_nat;
     body := λ c, match c with
                  | 1 => [CbRevoke "teams" 1; CbSubscribe "teams" 1]
                  | _ => []
                  end;
     fuel := 8; bcDefined := true; bcThrows := false; postThrows := false |}.

(** A started transport with callbacks 0 and 1 subscribed under one key,
    in that environment. *)
Definition resubscribingState : State :=
  subscribe "teams" 1
    (subscribe "teams" 0
       (start resubscribingEnv (newSyncService resubscribingEnv emptyWindow))).

(** ** The effect of the hook, seen from the transport *)

(** [watchKeys.map(key => syncTransport.subscribe(key, doFetch))]: the
    effect of [useSyncedData] registers its [doFetch] under every watch
    key, in order. *)
Definition subscribeAll (watchKeys : list string) (doFetch : nat) (st : State) : State :=
  foldl (λ s k, subscribe k doFetch s) st watchKeys.

(** [unsubscribers.forEach(unsub => unsub())]: the cleanup of the effect
    calls the handles in the same order. *)
Definition unsubscribeAll (watchKeys : list string) (doFetch : nat) (st : State) : State :=
  foldl (λ s k, revoke k doFetch s) st watchKeys.

(** What [Set.add] does to the list of values of a set. *)
Definition added (v : nat) (l : list nat) : list nat :=
  if bool_decide (v ∈ l) then l else l ++ [v].

(** The effects of a list that are time signals, and the effects a later
    state has in its trace beyond those of an earlier one. *)
Definition syncTimes (l : list Effect) : list Z :=
  omap (λ e, match e with SyncTimeUpdate t => Some t | _ => None end) l.

Definition since (a b : State) : list Effect :=
  drop (length (trace (win a))) (trace (win b)).

(** Between an earlier and a later state the trace has only grown, and the
    last-sync time is the last time signal that was added, if any. *)
Definition grows (a b : State) : Prop :=
  ∃ l, trace (win b) = trace (win a) ++ l
       ∧ lastSyncTime (this b) = default (lastSyncTime (this a)) (last (syncTimes l)).

(** ** The provider of [contexts/SyncContext.tsx]

    [SyncProvider] starts the transport when it mounts and stops it when it
    unmounts.  While it is mounted it listens to the time signal: every
    signal sets its own [lastSyncTime] to the detail of the event, sets
    [isSyncing] and schedules a timeout that clears [isSyncing] again.  The
    timeouts are never cancelled. *)
Module SyncContext.

Record Provider := {
  lastSyncTime : Z;              (* useState(Date.now()) *)
  isSyncing : bool;              (* useState(false) *)
  timeouts : nat;                (* setTimeout callbacks that have not run yet *)
  listening : bool               (* handleSyncTimeUpdate is installed on window *)
}.

Record System := { transport : State; provider : Provider }.

Definition initial (now : Z) : Provider :=
  {| lastSyncTime := now; isSyncing := false; timeouts := 0; listening := false |}.

Definition handleSyncTimeUpdate (timestamp : Z) (p : Provider) : Provider :=
  {| lastSyncTime := timestamp; isSyncing := true; timeouts := S (timeouts p);
     listening := listening p |}.

(** The callback given to [setTimeout]. *)
Definition onTimeout (p : Provider) : Provider :=
  match timeouts p with
  | 0 => p
  | S n => {| lastSyncTime := lastSyncTime p; isSyncing := false; timeouts := n;
              listening := listening p |}
  end.

Definition set_listening (b : bool) (p : Provider) : Provider :=
  {| lastSyncTime := lastSyncTime p; isSyncing := isSyncing p; timeouts := timeouts p;
     listening := b |}.

(** What the provider does with the effects the transport has produced:
    every time signal among them runs [handleSyncTimeUpdate], if the
    listener is installed. *)
Definition hear (l : list Effect) (p : Provider) : Provider :=
  if listening p then foldl (λ q t, handleSyncTimeUpdate t q) p (syncTimes l) else p.

Inductive Event :=
| Mount                      (* the effect runs: start(), addEventListener *)
| Unmount                    (* its cleanup: removeEventListener, stop() *)
| ForceSync                  (* the forceSync of the context value *)
| Transport (op : Op)        (* anything else that happens to the transport *)
| Timeout.                   (* a pending timeout runs *)

Section Steps.

Context (env : Env).

(** An operation of the transport, with the provider hearing the signals
    it emits. *)
Definition heard (op : Op) (sys : System) : option System :=
  st' ← step env op (transport sys);
  Some {| transport := st'; provider := hear (since (transport sys) st') (provider sys) |}.

Definition stepSystem (ev : Event) (sys : System) : option System :=
  match ev with
  | Mount =>
      Some {| transport := start env (transport sys);
              provider := set_listening true (provider sys) |}
  | Unmount =>
      Some {| transport := stop (transport sys);
              provider := set_listening false (provider sys) |}
  | ForceSync => heard (OpForceSync None) sys
  | Transport op => heard op sys
  | Timeout => Some {| transport := transport sys; provider := onTimeout (provider sys) |}
  end.

Fixpoint runSystem (evs : list Event) (sys : System) : option System :=
  match evs with
  | [] => Some sys
  | ev :: evs' => stepSystem ev sys ≫= runSystem evs'
  end.

End Steps.

End SyncContext.

(** ** The indicator of [components/SyncIndicator.tsx] *)
Module SyncIndicator.

(** The four shapes of the text [getTimeAgo] returns. *)
Inductive TimeAgo :=
| JustNow
| SecondsAgo (n : Z)
| MinutesAgo (n : Z)
| HoursAgo (n : Z).

(** [getTimeAgo(timestamp)], with [Date.now()] as a parameter; both are
    whole milliseconds, and [Math.floor(x / 1000)] is the floor division. *)
Definition timeAgo (now timestamp : Z) : TimeAgo :=
  let seconds := ((now - timestamp) `div` 1000)%Z in
  if (seconds <? 5)%Z then JustNow
  else if (seconds <? 60)%Z then SecondsAgo seconds
  else if (seconds <? 3600)%Z then MinutesAgo (seconds `div` 60)
  else HoursAgo (seconds `div` 3600).

Definition render (t : TimeAgo) : string :=
  match t with
  | JustNow => "just now"
  | SecondsAgo n => pretty n +:+ "s ago"
  | MinutesAgo n => pretty n +:+ "m ago"
  | HoursAgo n => pretty n +:+ "h ago"
  end.

Definition getTimeAgo (now timestamp : Z) : string := render (timeAgo now timestamp).

End SyncIndicator.

(** ** Fetches of one run that settle one after the other *)

(** The results, and the errors, among a list of outcomes, in order. *)
Definition resolvedOf {T E} (os : list (UseSyncedData.Outcome T E)) : list T :=
  omap (λ o, match o with UseSyncedData.Resolved r => Some r | _ => None end) os.

Definition rejectedOf {T E} (os : list (UseSyncedData.Outcome T E)) : list E :=
  omap (λ o, match o with UseSyncedData.Rejected err => Some err | _ => None end) os.

(** The fetches of run [e] settle with the outcomes [os], in this order. *)
Definition settleAll {T E} (e : nat) (os : list (UseSyncedData.Outcome T E))
    (h : UseSyncedData.Hook T E) : UseSyncedData.Hook T E :=
  foldl (λ h' o, (UseSyncedData.doFetch_settle e o h').1) h os.

(** ** The dependency of the effect on the watch keys *)

(** [Array.prototype.join] on strings. *)
Fixpoint join (sep : string) (l : list string) : string :=
  match l with
  | [] => ""
  | x :: l' =>
      match l' with
      | [] => x
      | _ :: _ => x +:+ sep +:+ join sep l'
      end
  end.

(** [const keysDependency = watchKeys.join(',')]: the effect of
    [useSyncedData] runs again when this string changes (or [trigger], or
    the transport). *)
Definition keysDependency (watchKeys : list string) : string := join "," watchKeys.

(** The string contains a comma. *)
Fixpoint has_comma (s : string) : bool :=
  match s with
  | EmptyString => false
  | String a s' => bool_decide (a = Ascii.Ascii false false true true false true false false) || has_comma s'
  end.

(** ** The sign-up page of [pages/Signup.tsx]

    The strings of the page are what the user types, so they are modelled
    as what a JavaScript string is: the list of its UTF-16 code units. *)
Module Signup.

(** A literal of the source; the literals of the page are ASCII, one code
    unit per character. *)
Definition lit (s : string) : list N := Ascii.N_of_ascii <$> String.list_ascii_of_string s.

(** WhiteSpace and LineTerminator code points: what [\s] matches in a
    regular expression without the [u] flag, and what [parseInt] skips at
    the start of its argument. *)
Definition isSpace (c : N) : bool :=
  ((9 <=? c) && (c <=? 13) || (c =? 32) || (c =? 160) || (c =? 5760)
   || (8192 <=? c) && (c <=? 8202) || (c =? 8232) || (c =? 8233) || (c =? 8239)
   || (c =? 8287) || (c =? 12288) || (c =? 65279))%N.

(** *** Regular expressions *)

Inductive Regex : Type :=
  | Void
  | Eps
  | Class (p : N → bool)
  | Seq (r1 r2 : Regex)
  | Alt (r1 r2 : Regex)
  | Star (r : Regex).

Definition Plus (r : Regex) : Regex := Seq r (Star r).
Definition Chr (c : N) : Regex := Class (N.eqb c).

(** The strings a regular expression matches as a whole. *)
Inductive matches : Regex → list N → Prop :=
  | matches_Eps : matches Eps []
  | matches_Class p c : p c = true → matches (Class p) [c]
  | matches_Seq r1 r2 s1 s2 :
      matches r1 s1 → matches r2 s2 → matches (Seq r1 r2) (s1 ++ s2)
  | matches_Alt_l r1 r2 s : matches r1 s → matches (Alt r1 r2) s
  | matches_Alt_r r1 r2 s : matches r2 s → matches (Alt r1 r2) s
  | matches_Star_nil r : matches (Star r) []
  | matches_Star_cons r s1 s2 :
      matches r s1 → matches (Star r) s2 → matches (Star r) (s1 ++ s2).

Fixpoint nullable (r : Regex) : bool :=
  match r with
  | Void => false
  | Eps => true
  | Class _ => false
  | Seq r1 r2 => nullable r1 && nullable r2
  | Alt r1 r2 => nullable r1 || nullable r2
  | Star _ => true
  end.

(** What is left of [r] to match after the code unit [c]. *)
Fixpoint deriv (c : N) (r : Regex) : Regex :=
  match r with
  | Void => Void
  | Eps => Void
  | Class p => if p c then Eps else Void
  | Seq r1 r2 =>
      if nullable r1 then Alt (Seq (deriv c r1) r2) (deriv c r2)
      else Seq (deriv c r1) r2
  | Alt r1 r2 => Alt (deriv c r1) (deriv c r2)
  | Star r => Seq (deriv c r) (Star r)
  end.

(** [/^r$/.test(s)], without flags: [s] as a whole is matched by [r]. *)
Definition test (r : Regex) (s : list N) : bool :=
  nullable (foldl (λ r c, deriv c r) r s).

(** [[^\s@]]. *)
Definition notSpaceNorAt (c : N) : bool := negb (isSpace c || (c =? 64)%N).

(** [/^[^\s@]+@[^\s@]+\.[^\s@]+$/]. *)
Definition emailRegex : Regex :=
  Seq (Plus (Class notSpaceNorAt))
    (Seq (Chr 64)
       (Seq (Plus (Class notSpaceNorAt))
          (Seq (Chr 46) (Plus (Class notSpaceNorAt))))).

Definition validateEmail (email : list N) : bool := test emailRegex email.

(** *** [parseInt] and [String.prototype.includes] *)

Fixpoint trimStart (s : list N) : list N :=
  match s with
  | c :: s' => if isSpace c then trimStart s' else s
  | [] => []
  end.

(** The value of a code unit as a digit: [0-9], [A-Z], [a-z]. *)
Definition digitValue (c : N) : option N :=
  if (48 <=? c)%N && (c <=? 57)%N then Some (c - 48)%N
  else if (65 <=? c)%N && (c <=? 90)%N then Some (c - 55)%N
  else if (97 <=? c)%N && (c <=? 122)%N then Some (c - 87)%N
  else None.

Definition radixDigit (R c : N) : option N :=
  match digitValue c with
  | Some d => if (d <? R)%N then Some d else None
  | None => None
  end.

(** The digits of the longest prefix of [s] made of radix-[R] digits. *)
Fixpoint leadingDigits (R : N) (s : list N) : list N :=
  match s with
  | c :: s' =>
      match radixDigit R c with
      | Some d => d :: leadingDigits R s'
      | None => []
      end
  | [] => []
  end.

Definition valueOf (R : N) (ds : list N) : N := foldl (λ acc d, acc * R + d)%N 0%N ds.

(** The steps of [parseInt]: the sign, the string without its sign, and
    whether what is left starts with [0x] or [0X]. *)
Definition signOf (s : list N) : Z :=
  match s with
  | c :: _ => if (c =? 45)%N then (-1)%Z else 1%Z
  | [] => 1%Z
  end.

Definition dropSign (s : list N) : list N :=
  match s with
  | c :: s' => if (c =? 43)%N || (c =? 45)%N then s' else s
  | [] => s
  end.

Definition hexPrefix (s : list N) : bool :=
  match s with
  | c :: x :: _ => (c =? 48)%N && ((x =? 120)%N || (x =? 88)%N)
  | _ => false
  end.

(** [parseInt(s)] with no radix; [None] is [NaN].  The result is the
    mathematical value: the page compares it with 13 only, which rounding
    to a Number does not change. *)
Definition parseInt (s : list N) : option Z :=
  let s0 := trimStart s in
  let s1 := dropSign s0 in
  let R : N := if hexPrefix s1 then 16%N else 10%N in
  let s2 := if hexPrefix s1 then drop 2 s1 else s1 in
  match leadingDigits R s2 with
  | [] => None
  | ds => Some (signOf s0 * Z.of_N (valueOf R ds))%Z
  end.

Fixpoint startsWith (s p : list N) : bool :=
  match p, s with
  | [], _ => true
  | a :: p', b :: s' => (a =? b)%N && startsWith s' p'
  | _ :: _, [] => false
  end.

(** [s.includes(p)]. *)
Fixpoint includes (s p : list N) : bool :=
  startsWith s p || match s with
                    | [] => false
                    | _ :: s' => includes s' p
                    end.

(** *** The state of the page *)

Record FormData : Type := mkFormData {
  firstName : list N; middleName : list N; lastName : list N; studentId : list N;
  email : list N; password : list N; confirmPassword : list N;
  age : list N; yearLevel : list N; section : list N; contactInfo : list N;
  teamId : list N; bio : list N; interestedEvents : list (list N) }.

(** [formData] without [confirmPassword]: what [register] is given. *)
Record DataToSubmit : Type := mkDataToSubmit {
  s_firstName : list N; s_middleName : list N; s_lastName : list N; s_studentId : list N;
  s_email : list N; s_password : list N;
  s_age : list N; s_yearLevel : list N; s_section : list N; s_contactInfo : list N;
  s_teamId : list N; s_bio : list N; s_interestedEvents : list (list N) }.

Definition dataToSubmit (d : FormData) : DataToSubmit :=
  {| s_firstName := firstName d; s_middleName := middleName d; s_lastName := lastName d;
     s_studentId := studentId d; s_email := email d; s_password := password d;
     s_age := age d; s_yearLevel := yearLevel d; s_section := section d;
     s_contactInfo := contactInfo d; s_teamId := teamId d; s_bio := bio d;
     s_interestedEvents := interestedEvents d |}.

Record Page : Type := mkPage {
  formData : FormData;
  error : list N;
  emailError : list N;
  loading : bool }.

Definition set_formData (d : FormData) (p : Page) : Page :=
  {| formData := d; error := error p; emailError := emailError p; loading := loading p |}.
Definition setError (m : list N) (p : Page) : Page :=
  {| formData := formData p; error := m; emailError := emailError p; loading := loading p |}.
Definition setEmailError (m : list N) (p : Page) : Page :=
  {| formData := formData p; error := error p; emailError := m; loading := loading p |}.
Definition setLoading (b : bool) (p : Page) : Page :=
  {| formData := formData p; error := error p; emailError := emailError p; loading := b |}.

(** The inputs of the form that carry [onChange={handleChange}], by their
    [name]. *)
Inductive Field : Type :=
  | FirstName | MiddleName | LastName | StudentId | Age | Email
  | Password | ConfirmPassword | ContactInfo.

(** [{ ...formData, [name]: value }]. *)
Definition setField (f : Field) (v : list N) (d : FormData) : FormData :=
  match f with
  | FirstName => mkFormData v (middleName d) (lastName d) (studentId d) (email d) (password d) (confirmPassword d) (age d) (yearLevel d) (section d) (contactInfo d) (teamId d) (bio d) (interestedEvents d)
  | MiddleName => mkFormData (firstName d) v (lastName d) (studentId d) (email d) (password d) (confirmPassword d) (age d) (yearLevel d) (section d) (contactInfo d) (teamId d) (bio d) (interestedEvents d)
  | LastName => mkFormData (firstName d) (middleName d) v (studentId d) (email d) (password d) (confirmPassword d) (age d) (yearLevel d) (section d) (contactInfo d) (teamId d) (bio d) (interestedEvents d)
  | StudentId => mkFormData (firstName d) (middleName d) (lastName d) v (email d) (password d) (confirmPassword d) (age d) (yearLevel d) (section d) (contactInfo d) (teamId d) (bio d) (interestedEvents d)
  | Email => mkFormData (firstName d) (middleName d) (lastName d) (studentId d) v (password d) (confirmPassword d) (age d) (yearLevel d) (section d) (contactInfo d) (teamId d) (bio d) (interestedEvents d)
  | Password => mkFormData (firstName d) (middleName d) (lastName d) (studentId d) (email d) v (confirmPassword d) (age d) (yearLevel d) (section d) (contactInfo d) (teamId d) (bio d) (interestedEvents d)
  | ConfirmPassword => mkFormData (firstName d) (middleName d) (lastName d) (studentId d) (email d) (password d) v (age d) (yearLevel d) (section d) (contactInfo d) (teamId d) (bio d) (interestedEvents d)
  | Age => mkFormData (firstName d) (middleName d) (lastName d) (studentId d) (email d) (password d) (confirmPassword d) v (yearLevel d) (section d) (contactInfo d) (teamId d) (bio d) (interestedEvents d)
  | ContactInfo => mkFormData (firstName d) (middleName d) (lastName d) (studentId d) (email d) (password d) (confirmPassword d) (age d) (yearLevel d) (section d) v (teamId d) (bio d) (interestedEvents d)
  end.

Definition set_interestedEvents (l : list (list N)) (d : FormData) : FormData :=
  mkFormData (firstName d) (middleName d) (lastName d) (studentId d) (email d) (password d) (confirmPassword d) (age d) (yearLevel d) (section d) (contactInfo d) (teamId d) (bio d) l.

(** A string is truthy when it is not empty. *)
Definition nonEmpty (s : list N) : bool := if s is [] then false else true.

Definition invalidEmail : list N := lit "Please enter a valid email address".

Definition handleChange (name : Field) (value : list N) (p : Page) : Page :=
  let p := set_formData (setField name value (formData p)) p in
  match name with
  | Email =>
      if nonEmpty value && negb (validateEmail value)
      then setEmailError invalidEmail p
      else setEmailError [] p
  | _ => p
  end.

(** The new list of [handleEventToggle]. *)
Definition toggle (eventName : list N) (events : list (list N)) : list (list N) :=
  if bool_decide (eventName ∈ events)
  then filter (λ e, e ≠ eventName) events
  else events ++ [eventName].

Definition handleEventToggle (eventName : list N) (p : Page) : Page :=
  set_formData (set_interestedEvents (toggle eventName (interestedEvents (formData p)))
                  (formData p)) p.

(** [!formData.age || parseInt(formData.age) < 13]. *)
Definition tooYoung (age : list N) : bool :=
  negb (nonEmpty age)
  || match parseInt age with
     | Some n => (n <? 13)%Z
     | None => false
     end.

Definition emailTaken : list N :=
  lit "This email is already registered. Please log in or use a different email.".

(** [handleSubmit] up to its [await]: the page it leaves and the call of
    [register], if it gets there. *)
Definition handleSubmit (p : Page) : Page * option DataToSubmit :=
  let d := formData p in
  if negb (validateEmail (email d)) then (setEmailError invalidEmail p, None)
  else if negb (bool_decide (password d = confirmPassword d))
  then (setError (lit "Passwords do not match") p, None)
  else if tooYoung (age d)
  then (setError (lit "Age must be at least 13 years old") p, None)
  else (setEmailError [] (setError [] (setLoading true p)), Some (dataToSubmit d)).

(** What the [catch] block finds in what was thrown. *)
Inductive Thrown : Type :=
  | Unreadable             (* [null] or [undefined] was thrown: reading
                              [err.message] throws a [TypeError] *)
  | NoMessage              (* [err.message] is [undefined], or another falsy
                              value that is not a string *)
  | Message (m : list N)   (* [err.message] is a string *)
  | NotAString.            (* [err.message] is truthy, not a string and has no
                              method [includes] (a number, a boolean, an
                              object): calling it throws a [TypeError] *)

(** How the [try] block ends: [register] resolved and [navigate] was
    called, or something was thrown. *)
Inductive Outcome : Type :=
  | Registered
  | Threw (err : Thrown).

(** [handleSubmit] after its [await]: the page it leaves, the routes it
    navigated to, and whether the promise it returned is rejected (the
    [catch] block has thrown; [finally] runs all the same). *)
Definition handleSubmit_settle (o : Outcome) (p : Page)
    : Page * list (list N) * bool :=
  match o with
  | Registered => (setLoading false p, [lit "/dashboard"], false)
  | Threw Unreadable => (setLoading false p, [], true)
  | Threw NoMessage =>
      (setLoading false (setError (lit "Failed to create account.") p), [], false)
  | Threw (Message m) =>
      let p :=
        if nonEmpty m && includes m (lit "email")
        then setEmailError emailTaken p
        else setError (if nonEmpty m then m else lit "Failed to create account.") p in
      (setLoading false p, [], false)
  | Threw NotAString => (setLoading false p, [], true)
  end.

(** [disabled={loading || !!emailError}] of the submit button. *)
Definition submitDisabled (p : Page) : bool := loading p || nonEmpty (emailError p).

(** *** Notions used to state the properties of the page *)

(** A code unit that is neither white space nor [@]. *)
Definition plain (c : N) : Prop := isSpace c = false ∧ c ≠ 64%N.

(** A decimal digit, [0] to [9]. *)
Definition isDecimal (c : N) : Prop := (48 ≤ c ≤ 57)%N.

(** The number a string of decimal digits denotes. *)
Definition decimal (ds : list N) : N := valueOf 10 ((λ c, c - 48)%N <$> ds).

(** What follows the digits does not continue them. *)
Definition ends_number (rest : list N) : Prop :=
  match rest with
  | [] => True
  | c :: _ => ¬ isDecimal c
  end.

End Signup.

(** * Properties *)

(** ** [Set] operations *)

Lemma values_app (d1 d2 : JsSet.t) :
  JsSet.values (d1 ++ d2) = JsSet.values d1 ++ JsSet.values d2.
Proof. apply omap_app. Qed.

Lemma elem_of_values (v : nat) (d : JsSet.t) : v ∈ JsSet.values d ↔ Some v ∈ d.
Proof.
  unfold JsSet.values. rewrite list_elem_of_omap. split.
  - intros (x & Hx & Hid). simpl in Hid. by subst.
  - intros H. by exists (Some v).
Qed.

Lemma values_add (v : nat) (d : JsSet.t) :
  JsSet.values (JsSet.add v d) =
  if bool_decide (v ∈ JsSet.values d) then JsSet.values d else JsSet.values d ++ [v].
Proof.
  unfold JsSet.add, JsSet.has.
  rewrite (bool_decide_ext _ _ (elem_of_values v d)).
  destruct (bool_decide (Some v ∈ d)); [done|].
  by rewrite values_app.
Qed.

Lemma values_delete (v : nat) (d : JsSet.t) :
  JsSet.values (JsSet.delete v d) = filter (λ x, x ≠ v) (JsSet.values d).
Proof.
  unfold JsSet.values, JsSet.delete.
  induction d as [|[x|] d IH]; simpl; [done| |done].
  destruct (decide (Some x = Some v)) as [Heq|Hne]; simpl.
  - injection Heq as ->. rewrite filter_cons_False by naive_solver. apply IH.
  - rewrite filter_cons_True by congruence. f_equal. apply IH.
Qed.

Lemma size_add (v : nat) (d : JsSet.t) : JsSet.size (JsSet.add v d) ≠ 0.
Proof.
  unfold JsSet.size. fold (JsSet.values (JsSet.add v d)). rewrite values_add.
  case_bool_decide as Hin.
  - destruct (JsSet.values d); [by apply elem_of_nil in Hin | done].
  - rewrite length_app. simpl. lia.
Qed.

Lemma NoDup_values_add (v : nat) (d : JsSet.t) :
  NoDup (JsSet.values d) → NoDup (JsSet.values (JsSet.add v d)).
Proof.
  intros Hnd. rewrite values_add. case_bool_decide as Hin; [done|].
  apply NoDup_app. split_and!; [done| |apply NoDup_singleton].
  intros x Hx Hx'. apply list_elem_of_singleton in Hx'. by subst.
Qed.

Lemma NoDup_values_delete (v : nat) (d : JsSet.t) :
  NoDup (JsSet.values d) → NoDup (JsSet.values (JsSet.delete v d)).
Proof. intros Hnd. rewrite values_delete. by apply NoDup_filter. Qed.

(** Deleting a value that is not in the set leaves [[SetData]] as it is. *)
Lemma delete_absent (v : nat) (d : JsSet.t) : Some v ∉ d → JsSet.delete v d = d.
Proof.
  unfold JsSet.delete. induction d as [|e d IH]; simpl; [done|].
  intros Hnin. apply not_elem_of_cons in Hnin as [Hne Hnin].
  rewrite decide_False by congruence. f_equal. by apply IH.
Qed.

Lemma delete_gone (v : nat) (d : JsSet.t) : Some v ∉ JsSet.delete v d.
Proof.
  unfold JsSet.delete. rewrite list_elem_of_fmap. intros (e & Heq & _).
  destruct (decide (e = Some v)); congruence.
Qed.

Lemma delete_delete (v : nat) (d : JsSet.t) :
  JsSet.delete v (JsSet.delete v d) = JsSet.delete v d.
Proof. apply delete_absent, delete_gone. Qed.

Lemma length_delete (v : nat) (d : JsSet.t) : length (JsSet.delete v d) = length d.
Proof. apply length_fmap. Qed.

(** ** The revocation handle *)

Lemma revoke_revoke (key : string) (callback : nat) (st : State) :
  revoke key callback (revoke key callback st) = revoke key callback st.
Proof.
  unfold revoke at 2 3.
  destruct (listeners (this st) !! key) as [r|] eqn:Hk; simpl.
  2: { unfold revoke. by rewrite Hk. }
  destruct (alter (JsSet.delete callback) r (heap (win st)) !! r) as [d|] eqn:Hd.
  - destruct (decide (JsSet.size d = 0)) as [Hz|Hnz].
    + unfold revoke. simpl. by rewrite lookup_delete_eq.
    + unfold revoke. simpl. rewrite Hk.
      rewrite list_alter_alter_eq.
      rewrite (list_alter_ext _ (JsSet.delete callback) _ (heap (win st)) r);
        [|intros; apply delete_delete|done].
      rewrite Hd. by rewrite decide_False.
  - unfold revoke. simpl. rewrite Hk. simpl.
    rewrite list_lookup_alter_eq in Hd.
    destruct (heap (win st) !! r) as [d|] eqn:Hr; [done|].
    assert (Hsame : alter (JsSet.delete callback) r (heap (win st)) = heap (win st)).
    { apply list_eq. intros j. destruct (decide (r = j)) as [<-|Hne].
      - by rewrite list_lookup_alter_eq, Hr.
      - by rewrite list_lookup_alter_ne. }
    rewrite !Hsame, Hr. done.
Qed.

(** ** The registry invariant is kept by [subscribe] and by the handle *)

Lemma lookup_alter_Some (f : JsSet.t → JsSet.t) (h : list JsSet.t) (r r' : nat) (d' : JsSet.t) :
  alter f r h !! r' = Some d' →
  ∃ d, h !! r' = Some d ∧ d' = if decide (r = r') then f d else d.
Proof.
  destruct (decide (r = r')) as [<-|Hne].
  - rewrite list_lookup_alter_eq. destruct (h !! r) as [d|]; simpl; [|done].
    intros [= <-]. eauto.
  - rewrite list_lookup_alter_ne by done. eauto.
Qed.

Lemma subscribe_registry_ok (key : string) (callback : nat) (st : State) :
  registry_ok st → registry_ok (subscribe key callback st).
Proof.
  intros (Hne & Hinj & Hnd). unfold subscribe.
  destruct (listeners (this st) !! key) as [r|] eqn:Hk; simpl.
  - rewrite Hk. unfold registry_ok; simpl. split_and!; [|done|].
    + intros k r' Hk'. destruct (Hne _ _ Hk') as (d & Hd & Hsz).
      destruct (decide (r = r')) as [<-|Hr].
      * rewrite list_lookup_alter_eq, Hd. simpl. eauto using size_add.
      * rewrite list_lookup_alter_ne by done. eauto.
    + intros r' d' (d & Hd & ->)%lookup_alter_Some.
      case_decide; eauto using NoDup_values_add.
  - rewrite lookup_insert_eq. unfold registry_ok; simpl.
    assert (Hfresh : ∀ k r, listeners (this st) !! k = Some r → r < length (heap (win st))).
    { intros k r Hr. destruct (Hne _ _ Hr) as (d & Hd & _). by eapply lookup_lt_Some. }
    split_and!.
    + intros k r'. rewrite lookup_insert. case_decide as Hkk.
      * intros [= <-]. rewrite list_lookup_alter_eq.
        rewrite lookup_app_r by lia. rewrite Nat.sub_diag. simpl.
        eauto using size_add.
      * intros Hr. pose proof (Hfresh _ _ Hr).
        rewrite list_lookup_alter_ne by lia. rewrite lookup_app_l by done.
        eauto.
    + intros k1 k2 r'. rewrite !lookup_insert.
      repeat case_decide; subst; try done.
      * intros [= <-] Hr. pose proof (Hfresh _ _ Hr). lia.
      * intros Hr [= <-]. pose proof (Hfresh _ _ Hr). lia.
      * eauto.
    + intros r' d' (d & Hd & ->)%lookup_alter_Some.
      assert (NoDup (JsSet.values d)) as Hd'.
      { apply lookup_app_Some in Hd as [Hd|[_ Hd]]; [eauto|].
        destruct (r' - length (heap (win st))) as [|n]; simpl in Hd; [|done].
        injection Hd as <-. apply NoDup_nil_2. }
      case_decide; eauto using NoDup_values_add.
Qed.

Lemma revoke_registry_ok (key : string) (callback : nat) (st : State) :
  registry_ok st → registry_ok (revoke key callback st).
Proof.
  intros (Hne & Hinj & Hnd). unfold revoke.
  destruct (listeners (this st) !! key) as [r|] eqn:Hk; [|done].
  destruct (Hne _ _ Hk) as (d & Hd & Hsz). simpl.
  rewrite list_lookup_alter_eq, Hd. simpl.
  assert (Hnd' : ∀ r' d', alter (JsSet.delete callback) r (heap (win st)) !! r' = Some d' →
                  NoDup (JsSet.values d')).
  { intros r' d' (d0 & Hd0 & ->)%lookup_alter_Some.
    case_decide; eauto using NoDup_values_delete. }
  case_decide as Hz; unfold registry_ok; simpl; (split_and!; [| |done]).
  - intros k r'. rewrite lookup_delete. case_decide as Hkk; [done|].
    intros Hr. destruct (decide (r = r')) as [<-|Hrr].
    + destruct Hkk. eauto.
    + rewrite list_lookup_alter_ne by done. eauto.
  - intros k1 k2 r'. rewrite !lookup_delete. repeat case_decide; try done. eauto.
  - intros k r' Hr. destruct (decide (r = r')) as [<-|Hrr].
    + rewrite list_lookup_alter_eq, Hd. simpl. eauto.
    + rewrite list_lookup_alter_ne by done. eauto.
  - done.
Qed.

(** ** Lifting a step property through dispatch

    A relation between a state and a later state that is reflexive and
    transitive, and that holds across the invocation of a callback and
    across [updateSyncTime], holds across everything that is built from
    these: a [forEach] pass, [notifyListeners], [handleSyncMessage] and the
    two window listeners. *)
Section Lift.

Context (env : Env) (R : State → State → Prop).
Hypothesis R_refl : ∀ st, R st st.
Hypothesis R_trans : ∀ a b c, R a b → R b c → R a c.
Hypothesis R_invoke : ∀ c st, R st (invoke env c st).
Hypothesis R_updateSyncTime : ∀ st, R st (updateSyncTime env st).

Lemma lift_forEach n r i st st' : forEach env n r i st = Some st' → R st st'.
Proof using R_refl R_trans R_invoke.
  revert i st. induction n as [|n IH]; intros i st; simpl; [done|].
  destruct (heap (win st) !! r) as [d|]; [|intros [= <-]; apply R_refl].
  destruct (d !! i) as [[c|]|]; [| |intros [= <-]; apply R_refl].
  - intros H%IH. eapply R_trans; [apply R_invoke|done].
  - apply IH.
Qed.

Lemma lift_notifyListeners key st st' :
  notifyListeners env key st = Some st' → R st st'.
Proof using R_refl R_trans R_invoke.
  unfold notifyListeners. intros H.
  apply bind_Some in H as (st1 & H1 & H2).
  assert (R st st1).
  { destruct (listeners (this st) !! key); [by eapply lift_forEach|].
    injection H1 as <-. apply R_refl. }
  eapply R_trans; [done|].
  destruct (listeners (this st1) !! "*"); [|injection H2 as <-; apply R_refl].
  case_decide; [by eapply lift_forEach|injection H2 as <-; apply R_refl].
Qed.

Lemma lift_handleSyncMessage m st st' :
  handleSyncMessage env m st = Some st' → R st st'.
Proof using R_refl R_trans R_invoke R_updateSyncTime.
  unfold handleSyncMessage. intros H.
  eapply R_trans; [apply R_updateSyncTime|].
  destruct (type m), (truthy (key m));
    first [by eapply lift_notifyListeners | injection H as <-; apply R_refl].
Qed.

Lemma lift_notify_then_update key st st' :
  (notifyListeners env key st ≫= λ st1, Some (updateSyncTime env st1)) = Some st' →
  R st st'.
Proof using R_refl R_trans R_invoke R_updateSyncTime.
  intros (st1 & H1 & [= <-])%bind_Some.
  eapply R_trans; [by eapply lift_notifyListeners|apply R_updateSyncTime].
Qed.

Lemma lift_onStorage k st st' : onStorage env k st = Some st' → R st st'.
Proof using R_refl R_trans R_invoke R_updateSyncTime.
  unfold onStorage. destruct (truthy k).
  - apply lift_notify_then_update.
  - intros [= <-]. apply R_refl.
Qed.

Lemma lift_onCustomEvent d st st' : onCustomEvent env d st = Some st' → R st st'.
Proof using R_refl R_trans R_invoke R_updateSyncTime.
  unfold onCustomEvent. destruct d as [m|k].
  - apply lift_handleSyncMessage.
  - destruct (truthy k).
    + apply lift_notify_then_update.
    + intros [= <-]. apply R_refl.
Qed.

Lemma lift_dispatchTo {A} (handlers : list A) (h : State → option State) st st' :
  (∀ s s', h s = Some s' → R s s') →
  dispatchTo handlers h st = Some st' → R st st'.
Proof using R_refl R_trans.
  intros Hh. unfold dispatchTo. revert st.
  induction handlers as [|x handlers IH]; intros st; simpl.
  - intros [= <-]. apply R_refl.
  - destruct (h st) as [s1|] eqn:Hs; simpl.
    + intros H. eapply R_trans; [by apply Hh|by apply IH].
    + intros H. exfalso. clear -H.
      induction handlers as [|y handlers IH']; simpl in H; [done|by apply IH'].
Qed.

(** With the steps of [broadcast] and the four state-changing calls of the
    interface added, the relation holds across every operation and every
    run. *)
Hypothesis R_tick : ∀ st, R st (tick st).
Hypothesis R_emit : ∀ e st, R st (emit e st).
Hypothesis R_start : ∀ st, R st (start env st).
Hypothesis R_stop : ∀ st, R st (stop st).
Hypothesis R_subscribe : ∀ k c st, R st (subscribe k c st).
Hypothesis R_revoke : ∀ k c st, R st (revoke k c st).

Lemma lift_broadcast ty k st st' : broadcast env ty k st = Some st' → R st st'.
Proof using R_refl R_trans R_invoke R_updateSyncTime R_tick R_emit.
  unfold broadcast. intros (st4 & H4 & [= <-])%bind_Some.
  eapply R_trans; [apply R_tick|].
  eapply R_trans; [|apply R_updateSyncTime].
  eapply R_trans; [|eapply lift_dispatchTo; [|exact H4]; apply lift_onCustomEvent].
  eapply R_trans; [|apply R_emit].
  unfold postMessage. destruct (channel (this (tick st))); [|apply R_refl].
  destruct (postThrows env); apply R_emit.
Qed.

Lemma lift_step op st st' : step env op st = Some st' → R st st'.
Proof using All.
  destruct op; simpl.
  - intros [= <-]. apply R_start.
  - intros [= <-]. apply R_stop.
  - intros [= <-]. apply R_subscribe.
  - intros [= <-]. apply R_revoke.
  - apply lift_broadcast.
  - apply lift_broadcast.
  - apply lift_dispatchTo. intros s s'. apply lift_broadcast.
  - apply lift_dispatchTo. intros s s'. apply lift_onStorage.
  - apply lift_dispatchTo. intros s s'. apply lift_handleSyncMessage.
  - apply lift_dispatchTo. intros s s'. apply lift_onCustomEvent.
Qed.

Lemma lift_run ops st st' : run env ops st = Some st' → R st st'.
Proof using All.
  revert st. induction ops as [|op ops IH]; intros st; simpl.
  - intros [= <-]. apply R_refl.
  - intros (st1 & H1 & H2)%bind_Some.
    eapply R_trans; [by eapply lift_step|by apply IH].
Qed.

End Lift.

(** ** Reachable states satisfy both invariants *)

Lemma invoke_preserves (env : Env) (P : State → Prop) :
  (∀ c st, P st → P (emit (Called c) st)) →
  (∀ k c st, P st → P (subscribe k c st)) →
  (∀ k c st, P st → P (revoke k c st)) →
  ∀ c st, P st → P (invoke env c st).
Proof.
  intros He Hs Hr c st H. unfold invoke.
  assert (P (emit (Called c) st)) as H0 by auto.
  revert H0. generalize (emit (Called c) st).
  induction (body env c) as [|a l IH]; intros s Hs'; simpl; [done|].
  apply IH. destruct a; simpl; auto.
Qed.

Lemma remove_id_singleton (id : nat) : remove_id id [id] = [].
Proof. unfold remove_id. by rewrite filter_cons_False, filter_nil by naive_solver. Qed.

Lemma start_registry_ok env st : registry_ok st → registry_ok (start env st).
Proof.
  unfold start, startAutoRefresh, setupStorageListener, initializeBroadcastChannel.
  intros Hok. repeat case_match; exact Hok.
Qed.

Lemma stop_registry_ok st : registry_ok st → registry_ok (stop st).
Proof.
  intros (Hne & Hinj & Hnd). unfold stop, destroy.
  destruct (isStarted (this st)); simpl; [|done].
  unfold registry_ok. split_and!.
  - intros k r. simpl. by rewrite lookup_empty.
  - intros k1 k2 r. simpl. by rewrite lookup_empty.
  - intros r d Hd. eapply Hnd with r. revert Hd.
    repeat case_match; simpl; done.
Qed.

Lemma subscribe_lifecycle_ok k c st : lifecycle_ok st → lifecycle_ok (subscribe k c st).
Proof. intros Hok. unfold subscribe. simpl. repeat case_match; exact Hok. Qed.

Lemma revoke_lifecycle_ok k c st : lifecycle_ok st → lifecycle_ok (revoke k c st).
Proof. intros Hok. unfold revoke. simpl. repeat case_match; exact Hok. Qed.

Lemma start_lifecycle_ok env st : lifecycle_ok st → lifecycle_ok (start env st).
Proof.
  unfold start. destruct (isStarted (this st)) eqn:Hs; [intros H; exact H|].
  unfold lifecycle_ok. rewrite Hs. intros (Hsh & Hch & Hi & Hc & Hsl & Hcl & Hri & Hcn).
  unfold startAutoRefresh, setupStorageListener, initializeBroadcastChannel.
  destruct (bcDefined env), (bcThrows env); simpl;
    rewrite ?Hsh, ?Hch, ?Hi, ?Hc, ?Hsl, ?Hcl, ?Hri, ?Hcn; simpl;
    split_and!; eauto.
Qed.

Lemma stop_lifecycle_ok st : lifecycle_ok st → lifecycle_ok (stop st).
Proof.
  unfold stop, destroy. destruct (isStarted (this st)) eqn:Hs; simpl; [|done].
  unfold lifecycle_ok. rewrite Hs.
  intros (Hsh & Hch & Hi & Hc & [s Hsl] & [c Hcl] & [i Hri]).
  rewrite Hri. simpl. destruct (channel (this st)) as [ch|] eqn:Hcn; simpl;
    rewrite Hsl; simpl; rewrite Hcl; simpl;
    rewrite ?Hsh, ?Hch, ?Hi, ?Hc, ?Hsl, ?Hcl, ?Hri, ?Hcn; simpl;
    rewrite ?remove_id_singleton; repeat split.
Qed.

(** The two invariants together. *)
Lemma reachable_ok env st : reachable env st → registry_ok st ∧ lifecycle_ok st.
Proof.
  induction 1 as [w (Hsh & Hch & Hi & Hc & Hnd)|op st st' _ [IHr IHl] Hstep].
  - split.
    + unfold registry_ok; simpl. split_and!.
      * intros k r. by rewrite lookup_empty.
      * intros k1 k2 r. by rewrite lookup_empty.
      * exact Hnd.
    + unfold lifecycle_ok; simpl. by rewrite Hsh, Hch, Hi, Hc.
  - split.
    + revert IHr. eapply (lift_step env (λ a b, registry_ok a → registry_ok b));
        [..|exact Hstep]; eauto using subscribe_registry_ok, revoke_registry_ok,
          start_registry_ok, stop_registry_ok.
      apply invoke_preserves; eauto using subscribe_registry_ok, revoke_registry_ok.
    + revert IHl. eapply (lift_step env (λ a b, lifecycle_ok a → lifecycle_ok b));
        [..|exact Hstep]; eauto using subscribe_lifecycle_ok, revoke_lifecycle_ok,
          start_lifecycle_ok, stop_lifecycle_ok.
      apply invoke_preserves; eauto using subscribe_lifecycle_ok, revoke_lifecycle_ok.
Qed.

(** ** Dispatch to callbacks that leave the registry alone *)

Lemma emits_nil st : emits [] st = st.
Proof. destruct st as [[] ?]. unfold emits, on_win. simpl. by rewrite app_nil_r. Qed.

Lemma emits_emit e l st : emits l (emit e st) = emits (e :: l) st.
Proof. unfold emits, emit, on_win. simpl. by rewrite <- app_assoc. Qed.

Lemma emits_app l1 l2 st : emits l2 (emits l1 st) = emits (l1 ++ l2) st.
Proof. unfold emits, on_win. simpl. by rewrite <- app_assoc. Qed.

Lemma invoke_quiet env c st : quiet env c → invoke env c st = emit (Called c) st.
Proof. unfold quiet, invoke. by intros ->. Qed.

Lemma forEach_S env n r i st :
  forEach env (S n) r i st =
  match heap (win st) !! r with
  | None => Some st
  | Some d =>
      match d !! i with
      | None => Some st
      | Some None => forEach env n r (S i) st
      | Some (Some c) => forEach env n r (S i) (invoke env c st)
      end
  end.
Proof. done. Qed.

Lemma forEach_quiet env n r i st d :
  heap (win st) !! r = Some d →
  Forall (quiet env) (JsSet.values (drop i d)) →
  length d - i < n →
  forEach env n r i st = Some (emits (Called <$> JsSet.values (drop i d)) st).
Proof.
  revert i st. induction n as [|n IH]; intros i st Hd Hq Hn; [lia|].
  rewrite forEach_S, Hd. destruct (d !! i) as [[c|]|] eqn:Hi.
  - pose proof (lookup_lt_Some _ _ _ Hi) as Hlt.
    rewrite (drop_S _ _ _ Hi) in Hq |- *. simpl in Hq |- *.
    apply Forall_cons in Hq as [Hc Hq].
    rewrite invoke_quiet by done.
    rewrite IH; [|done|done|lia]. by rewrite emits_emit.
  - pose proof (lookup_lt_Some _ _ _ Hi) as Hlt.
    rewrite (drop_S _ _ _ Hi) in Hq |- *. simpl in Hq |- *.
    apply IH; [done|done|lia].
  - apply lookup_ge_None in Hi. rewrite drop_ge by done. simpl.
    by rewrite emits_nil.
Qed.

Lemma notifyListeners_quiet env key st :
  registry_ok st →
  enough_fuel env st →
  Forall (quiet env) (notifyTargets key st) →
  notifyListeners env key st = Some (emits (Called <$> notifyTargets key st) st).
Proof.
  intros (Halloc & _ & _) Hfuel Hq.
  unfold notifyTargets in *. apply Forall_app in Hq as [Hq1 Hq2].
  assert (Hpass : ∀ k l, Forall (quiet env) (callbacksOf k st) →
            match listeners (this st) !! k with
            | Some r => forEach env (fuel env) r 0 (emits l st)
            | None => Some (emits l st)
            end = Some (emits (Called <$> callbacksOf k st) (emits l st))).
  { intros k l Hqk. unfold callbacksOf in *.
    destruct (listeners (this st) !! k) as [r|] eqn:Hk; [|by rewrite emits_nil].
    destruct (Halloc _ _ Hk) as (d & Hd & _). rewrite Hd in Hqk |- *.
    erewrite forEach_quiet; [by rewrite drop_0|exact Hd|by rewrite drop_0|].
    unfold enough_fuel in Hfuel. rewrite Forall_forall in Hfuel.
    apply elem_of_map_to_list in Hk. specialize (Hfuel _ Hk). simpl in Hfuel.
    rewrite Hd in Hfuel. simpl in Hfuel. lia. }
  unfold notifyListeners.
  pose proof (Hpass key [] Hq1) as H1. rewrite !emits_nil in H1. rewrite H1. simpl.
  destruct (decide (key = "*")) as [->|Hne].
  - rewrite app_nil_r. destruct (listeners _ !! "*"); [|done].
    by rewrite decide_False by naive_solver.
  - rewrite fmap_app, <- emits_app.
    specialize (Hpass "*" (Called <$> callbacksOf key st)).
    specialize (Hpass Hq2).
    destruct (listeners (this st) !! "*"); [|done].
    by rewrite decide_True by done.
Qed.

Lemma calls_emits l st :
  calls (emits l st) =
  calls st ++ omap (λ e, match e with Called c => Some c | _ => None end) l.
Proof. unfold calls, emits. simpl. apply omap_app. Qed.

Lemma calls_emits_Called l st : calls (emits (Called <$> l) st) = calls st ++ l.
Proof.
  rewrite calls_emits. f_equal. induction l as [|c l IH]; [done|].
  simpl. f_equal. apply IH.
Qed.

Lemma calls_updateSyncTime env st : calls (updateSyncTime env st) = calls st.
Proof. unfold calls, updateSyncTime. simpl. rewrite omap_app. simpl. apply app_nil_r. Qed.

Lemma handleSyncMessage_quiet env m st :
  registry_ok st →
  enough_fuel env st →
  Forall (quiet env) (dispatchTargets m st) →
  handleSyncMessage env m st =
  Some (emits (Called <$> dispatchTargets m st) (updateSyncTime env st)).
Proof.
  intros Hok Hfuel Hq. unfold handleSyncMessage, dispatchTargets in *.
  assert (Hwild : Forall (quiet env) (callbacksOf "*" st) →
            notifyListeners env "*" (updateSyncTime env st) =
            Some (emits (Called <$> callbacksOf "*" st) (updateSyncTime env st))).
  { intros Hq'. rewrite notifyListeners_quiet; [|exact Hok|exact Hfuel|].
    - unfold notifyTargets. simpl. by rewrite app_nil_r.
    - unfold notifyTargets. simpl. by rewrite app_nil_r. }
  destruct (type m), (truthy (key m)) as [k|]; auto.
  - exact (notifyListeners_quiet env k (updateSyncTime env st) Hok Hfuel Hq).
  - by rewrite emits_nil.
  - exact (notifyListeners_quiet env k (updateSyncTime env st) Hok Hfuel Hq).
Qed.

Lemma registry_ok_NoDup key st : registry_ok st → NoDup (callbacksOf key st).
Proof.
  intros (_ & _ & Hnd). unfold callbacksOf.
  destruct (listeners (this st) !! key) as [r|]; [|apply NoDup_nil_2].
  destruct (heap (win st) !! r) as [d|] eqn:Hd; [eauto|apply NoDup_nil_2].
Qed.

(** ** A pass over a set that changes while it is iterated *)

(** The part of a pass that runs over quiet callbacks only. *)
Lemma forEach_quiet_prefix env r d k : ∀ j n st,
  heap (win st) !! r = Some d →
  j + k ≤ length d →
  Forall (quiet env) (JsSet.values (take k (drop j d))) →
  forEach env (k + n) r j st =
  forEach env n r (j + k) (emits (Called <$> JsSet.values (take k (drop j d))) st).
Proof.
  induction k as [|k IH]; intros j n st Hd Hlen Hq.
  - simpl. by rewrite Nat.add_0_r, emits_nil.
  - destruct (lookup_lt_is_Some_2 d j) as [e He]; [lia|].
    change (S k + n) with (S (k + n)). rewrite forEach_S, Hd, He.
    rewrite (drop_S _ _ _ He) in Hq |- *. simpl in Hq |- *.
    replace (j + S k) with (S j + k) by lia.
    destruct e as [c|]; simpl in Hq |- *.
    + apply Forall_cons in Hq as [Hc Hq]. rewrite invoke_quiet by done.
      rewrite IH; [|done|lia|done]. by rewrite emits_emit.
    + apply IH; [done|lia|done].
Qed.

Lemma calls_emit_Called c st : calls (emit (Called c) st) = calls st ++ [c].
Proof. unfold calls. simpl. by rewrite omap_app. Qed.

Lemma calls_subscribe k c st : calls (subscribe k c st) = calls st.
Proof. unfold subscribe. simpl. by repeat case_match. Qed.

Lemma calls_revoke k c st : calls (revoke k c st) = calls st.
Proof. unfold revoke. simpl. by repeat case_match. Qed.

(** A callback that revokes [b] under the key being dispatched: the rest of
    the pass runs over the set without [b]. *)
Lemma forEach_after_revoke env n r i st d key a b :
  heap (win st) !! r = Some d →
  listeners (this st) !! key = Some r →
  d !! i = Some (Some a) →
  body env a = [CbRevoke key b] →
  Forall (quiet env) (JsSet.values (drop (S i) d)) →
  length d - i < n →
  ∃ st', forEach env n r i st = Some st'
         ∧ calls st' = calls st ++ a :: filter (λ x, x ≠ b) (JsSet.values (drop (S i) d)).
Proof.
  intros Hd Hk Hi Hbody Hq Hn. destruct n as [|n]; [lia|].
  pose proof (lookup_lt_Some _ _ _ Hi) as Hlt.
  rewrite forEach_S, Hd, Hi. unfold invoke. rewrite Hbody. simpl.
  set (st1 := revoke key b (emit (Called a) st)).
  assert (Hd1 : heap (win st1) !! r = Some (JsSet.delete b d)).
  { unfold st1, revoke. simpl. rewrite Hk. simpl.
    rewrite list_lookup_alter_eq, Hd. simpl.
    case_decide; simpl; by rewrite list_lookup_alter_eq, Hd. }
  assert (Hvals : JsSet.values (drop (S i) (JsSet.delete b d)) =
                  filter (λ x, x ≠ b) (JsSet.values (drop (S i) d))).
  { unfold JsSet.delete at 1. rewrite <- fmap_drop. apply values_delete. }
  eexists. split.
  - apply (forEach_quiet env n r (S i) st1 (JsSet.delete b d) Hd1).
    + rewrite Hvals. apply Forall_forall. intros x [_ Hx]%list_elem_of_filter.
      rewrite Forall_forall in Hq. by apply Hq.
    + rewrite length_delete. lia.
  - rewrite calls_emits_Called, Hvals. unfold st1.
    rewrite calls_revoke, calls_emit_Called. by rewrite <- app_assoc.
Qed.

(** A callback that subscribes a new callback [c] under the key being
    dispatched: the pass goes on to [c]. *)
Lemma forEach_after_subscribe env n r i st d key a c :
  heap (win st) !! r = Some d →
  listeners (this st) !! key = Some r →
  d !! i = Some (Some a) →
  body env a = [CbSubscribe key c] →
  Some c ∉ d →
  quiet env c →
  Forall (quiet env) (JsSet.values (drop (S i) d)) →
  S (length d) - i < n →
  ∃ st', forEach env n r i st = Some st'
         ∧ calls st' = calls st ++ a :: JsSet.values (drop (S i) d) ++ [c].
Proof.
  intros Hd Hk Hi Hbody Hnew Hc Hq Hn. destruct n as [|n]; [lia|].
  pose proof (lookup_lt_Some _ _ _ Hi) as Hlt.
  rewrite forEach_S, Hd, Hi. unfold invoke. rewrite Hbody. simpl.
  set (st1 := subscribe key c (emit (Called a) st)).
  assert (Hd1 : heap (win st1) !! r = Some (d ++ [Some c])).
  { unfold st1, subscribe. simpl. rewrite Hk. simpl. rewrite Hk. simpl.
    rewrite list_lookup_alter_eq, Hd. simpl. unfold JsSet.add, JsSet.has.
    by rewrite bool_decide_eq_false_2. }
  assert (Hvals : JsSet.values (drop (S i) (d ++ [Some c])) =
                  JsSet.values (drop (S i) d) ++ [c]).
  { rewrite drop_app_le by lia. by rewrite values_app. }
  eexists. split.
  - apply (forEach_quiet env n r (S i) st1 (d ++ [Some c]) Hd1).
    + rewrite Hvals. apply Forall_app. split; [done|by apply Forall_singleton].
    + rewrite length_app. simpl. lia.
  - rewrite calls_emits_Called, Hvals. unfold st1.
    rewrite calls_subscribe, calls_emit_Called. by rewrite <- app_assoc.
Qed.

(** *** The pass and the walk

    What [subscribe] and the handle do to one [Set] object of the heap and
    to its key, whatever else is registered. *)

Lemma subscribe_heap_other k c st r d :
  heap (win st) !! r = Some d →
  listeners (this st) !! k ≠ Some r →
  heap (win (subscribe k c st)) !! r = Some d.
Proof.
  intros Hd Hk. pose proof (lookup_lt_Some _ _ _ Hd) as Hlt. unfold subscribe.
  destruct (listeners (this st) !! k) as [r2|] eqn:Hr2; simpl.
  - rewrite Hr2. simpl. rewrite list_lookup_alter_ne by congruence. done.
  - rewrite lookup_insert_eq. simpl.
    rewrite list_lookup_alter_ne by lia. by rewrite lookup_app_l.
Qed.

Lemma subscribe_listeners_other k c st k' :
  k' ≠ k → listeners (this (subscribe k c st)) !! k' = listeners (this st) !! k'.
Proof.
  intros Hne. unfold subscribe.
  destruct (listeners (this st) !! k) as [r2|] eqn:Hr2; simpl.
  - by rewrite Hr2.
  - rewrite lookup_insert_eq. simpl. by rewrite lookup_insert_ne.
Qed.

Lemma subscribe_listeners_same k c st :
  listeners (this (subscribe k c st)) !! k
  = Some (default (length (heap (win st))) (listeners (this st) !! k)).
Proof.
  unfold subscribe.
  destruct (listeners (this st) !! k) as [r2|] eqn:Hr2; simpl.
  - by rewrite Hr2.
  - rewrite lookup_insert_eq. simpl. by rewrite lookup_insert_eq.
Qed.

Lemma subscribe_heap_same k c st r d :
  heap (win st) !! r = Some d →
  listeners (this st) !! k = Some r →
  heap (win (subscribe k c st)) !! r = Some (JsSet.add c d)
  ∧ listeners (this (subscribe k c st)) = listeners (this st).
Proof.
  intros Hd Hk. unfold subscribe. rewrite Hk. simpl. rewrite Hk. simpl.
  by rewrite list_lookup_alter_eq, Hd.
Qed.

Lemma revoke_heap_other k c st r d :
  heap (win st) !! r = Some d →
  listeners (this st) !! k ≠ Some r →
  heap (win (revoke k c st)) !! r = Some d.
Proof.
  intros Hd Hk. unfold revoke.
  destruct (listeners (this st) !! k) as [r2|] eqn:Hr2; [|done]. simpl.
  assert (r2 ≠ r) by congruence.
  destruct (alter (JsSet.delete c) r2 (heap (win st)) !! r2); [case_decide|]; simpl;
    by rewrite list_lookup_alter_ne.
Qed.

Lemma revoke_listeners_other k c st k' :
  k' ≠ k → listeners (this (revoke k c st)) !! k' = listeners (this st) !! k'.
Proof.
  intros Hne. unfold revoke.
  destruct (listeners (this st) !! k) as [r2|] eqn:Hr2; [|done]. simpl.
  destruct (alter (JsSet.delete c) r2 (heap (win st)) !! r2); [case_decide|]; simpl;
    [by rewrite lookup_delete_ne|done|done].
Qed.

Lemma revoke_listeners_sub k c st k' r :
  listeners (this (revoke k c st)) !! k' = Some r →
  listeners (this st) !! k' = Some r.
Proof.
  unfold revoke.
  destruct (listeners (this st) !! k) as [r2|] eqn:Hr2; [|done]. simpl.
  destruct (alter (JsSet.delete c) r2 (heap (win st)) !! r2); [case_decide|]; simpl;
    [|done|done].
  intros Hk'. apply lookup_delete_Some in Hk' as [_ Hk']. done.
Qed.

Lemma revoke_heap_same k c st r d :
  heap (win st) !! r = Some d →
  listeners (this st) !! k = Some r →
  heap (win (revoke k c st)) !! r = Some (JsSet.delete c d)
  ∧ listeners (this (revoke k c st))
    = if decide (JsSet.size (JsSet.delete c d) = 0)
      then delete k (listeners (this st)) else listeners (this st).
Proof.
  intros Hd Hk. unfold revoke. rewrite Hk. simpl.
  rewrite list_lookup_alter_eq, Hd. simpl.
  case_decide; simpl; by rewrite list_lookup_alter_eq, Hd.
Qed.

Lemma runAction_tracks key r a s st :
  tracks key r s st → tracks key r (actOn key a s) (runAction a st).
Proof.
  destruct s as [d att]. intros (Hok & Hd & Hatt). simpl in Hd, Hatt.
  assert (Hok' : registry_ok (runAction a st)).
  { destruct a; [by apply subscribe_registry_ok|by apply revoke_registry_ok]. }
  split; [done|]. unfold actOn. cbn [fst snd].
  destruct Hok as (_ & Hinj & _).
  destruct att.
  - destruct a as [k c|k c]; simpl.
    + case_decide as Hk; simpl.
      * subst k. destruct (subscribe_heap_same key c st r d Hd Hatt) as [-> ->]. done.
      * split.
        -- apply subscribe_heap_other; [done|]. intros Hk'. apply Hk. by eapply Hinj.
        -- by rewrite subscribe_listeners_other.
    + case_decide as Hk; simpl.
      * subst k. destruct (revoke_heap_same key c st r d Hd Hatt) as [-> ->].
        split; [done|]. case_decide as Hsz.
        -- rewrite bool_decide_eq_false_2 by (by intros ?).
           intros k' [Hne Hk']%lookup_delete_Some. apply Hne. by eapply Hinj.
        -- by rewrite bool_decide_eq_true_2.
      * split.
        -- apply revoke_heap_other; [done|]. intros Hk'. apply Hk. by eapply Hinj.
        -- by rewrite revoke_listeners_other.
  - simpl. destruct a as [k c|k c]; simpl.
    + split; [by apply subscribe_heap_other|].
      intros k' Hk'. destruct (decide (k' = k)) as [->|Hne].
      * rewrite subscribe_listeners_same in Hk'. injection Hk' as Hk'.
        destruct (listeners (this st) !! k) as [r2|] eqn:Hr2; simpl in Hk'.
        -- subst r2. by apply (Hatt k).
        -- apply lookup_lt_Some in Hd. lia.
      * rewrite subscribe_listeners_other in Hk' by done. by apply (Hatt k').
    + split; [by apply revoke_heap_other|].
      intros k' Hk'%revoke_listeners_sub. by apply (Hatt k').
Qed.

Lemma emit_tracks key r s e st : tracks key r s st → tracks key r s (emit e st).
Proof.
  intros H. exact H.
Qed.

Lemma invoke_tracks env key r c s st :
  tracks key r s st → tracks key r (setAfter env key c s) (invoke env c st).
Proof.
  intros H. unfold invoke, setAfter.
  pose proof (emit_tracks key r s (Called c) st H) as H0.
  clear H. revert H0. generalize (emit (Called c) st). revert s.
  induction (body env c) as [|a l IH]; intros s x Hx; simpl; [done|].
  apply (IH (actOn key a s)). by apply runAction_tracks.
Qed.

Lemma calls_invoke env c st : calls (invoke env c st) = calls st ++ [c].
Proof.
  unfold invoke. rewrite <- calls_emit_Called.
  generalize (emit (Called c) st).
  induction (body env c) as [|a l IH]; intros x; simpl; [done|].
  rewrite IH. destruct a; [apply calls_subscribe|apply calls_revoke].
Qed.

(** The pass of the code and the walk over the set invoke the same
    callbacks, whatever the callbacks subscribe and revoke, and the one
    ends exactly when the other does. *)
Lemma forEach_walk env key r : ∀ n i s st,
  tracks key r s st →
  calls <$> forEach env n r i st = (λ l, calls st ++ l) <$> walk env key n i s.
Proof.
  induction n as [|n IH]; intros i s st Htr; [done|].
  pose proof Htr as (_ & Hd & _).
  rewrite forEach_S, Hd. simpl.
  destruct (s.1 !! i) as [[c|]|] eqn:Hi.
  - rewrite (IH (S i) (setAfter env key c s) (invoke env c st))
      by (by apply invoke_tracks).
    rewrite calls_invoke. destruct (walk env key n (S i) (setAfter env key c s)); simpl;
      [|done]. by rewrite <- app_assoc.
  - by apply IH.
  - simpl. by rewrite app_nil_r.
Qed.

Lemma setAfter_quiet env key c s : quiet env c → setAfter env key c s = s.
Proof. unfold quiet, setAfter. by intros ->. Qed.

Lemma walk_S env key n i s :
  walk env key (S n) i s =
  match s.1 !! i with
  | None => Some []
  | Some None => walk env key n (S i) s
  | Some (Some c) => (c ::.) <$> walk env key n (S i) (setAfter env key c s)
  end.
Proof. done. Qed.

Lemma walk_quiet env key : ∀ n i s,
  Forall (quiet env) (JsSet.values (drop i s.1)) →
  length s.1 - i < n →
  walk env key n i s = Some (JsSet.values (drop i s.1)).
Proof.
  induction n as [|n IH]; intros i s Hq Hn; [lia|].
  rewrite walk_S. destruct (s.1 !! i) as [[c|]|] eqn:Hi.
  - pose proof (lookup_lt_Some _ _ _ Hi) as Hlt.
    rewrite (drop_S _ _ _ Hi) in Hq |- *. simpl in Hq |- *.
    apply Forall_cons in Hq as [Hc Hq]. rewrite setAfter_quiet by done.
    rewrite IH; [done|done|lia].
  - pose proof (lookup_lt_Some _ _ _ Hi) as Hlt.
    rewrite (drop_S _ _ _ Hi) in Hq |- *. simpl in Hq |- *.
    apply IH; [done|lia].
  - apply lookup_ge_None in Hi. by rewrite drop_ge.
Qed.

Lemma walk_quiet_prefix env key s k : ∀ j n,
  j + k ≤ length s.1 →
  Forall (quiet env) (JsSet.values (take k (drop j s.1))) →
  walk env key (k + n) j s =
  (λ l, JsSet.values (take k (drop j s.1)) ++ l) <$> walk env key n (j + k) s.
Proof.
  induction k as [|k IH]; intros j n Hlen Hq.
  - simpl. rewrite Nat.add_0_r. by destruct (walk env key n j s).
  - destruct (lookup_lt_is_Some_2 s.1 j) as [e He]; [lia|].
    change (S k + n) with (S (k + n)). rewrite walk_S, He.
    rewrite (drop_S _ _ _ He) in Hq |- *. simpl in Hq |- *.
    replace (j + S k) with (S j + k) by lia.
    destruct e as [c|]; simpl in Hq |- *.
    + apply Forall_cons in Hq as [Hc Hq]. rewrite setAfter_quiet by done.
      rewrite IH; [|lia|done]. change (S (j + k)) with (S j + k).
      by destruct (walk env key n (S j + k) s).
    + apply IH; [lia|done].
Qed.

(** A pass that reaches a callback which takes itself out of the set and
    puts itself back, while another callback stays in the set, never
    ends: the callback is appended behind the position of the pass every
    time it is invoked. *)
Lemma walk_diverges env key a :
  body env a = [CbRevoke key a; CbSubscribe key a] →
  ∀ n pre, JsSet.values pre ≠ [] → Some a ∉ pre →
    walk env key n (length pre) (pre ++ [Some a], true) = None.
Proof.
  intros Hbody. induction n as [|n IH]; intros pre Hlive Hnew; [done|].
  rewrite walk_S. cbn [fst]. rewrite lookup_app_r by lia. rewrite Nat.sub_diag. simpl.
  assert (Hdel : JsSet.delete a (pre ++ [Some a]) = pre ++ [None]).
  { unfold JsSet.delete. rewrite fmap_app. simpl. rewrite decide_True by done.
    f_equal. by apply delete_absent. }
  assert (Hafter : setAfter env key a (pre ++ [Some a], true)
                   = ((pre ++ [None]) ++ [Some a], true)).
  { unfold setAfter. rewrite Hbody. simpl. unfold actOn. cbn [fst snd].
    rewrite decide_True by done. cbn [fst snd]. rewrite Hdel.
    rewrite bool_decide_eq_true_2.
    - rewrite decide_True by done. unfold JsSet.add, JsSet.has.
      rewrite bool_decide_eq_false_2; [done|].
      rewrite elem_of_app, list_elem_of_singleton. by intros [?|?].
    - unfold JsSet.size. fold (JsSet.values (pre ++ [None])).
      rewrite values_app. simpl. rewrite app_nil_r.
      by destruct (JsSet.values pre). }
  rewrite Hafter.
  replace (S (length pre)) with (length (pre ++ [None])) by (rewrite length_app; simpl; lia).
  rewrite IH; [done| |].
  - rewrite values_app. simpl. by rewrite app_nil_r.
  - rewrite elem_of_app, list_elem_of_singleton. by intros [?|?].
Qed.

Lemma walk_None_prefix env key s k : ∀ j,
  j + k ≤ length s.1 →
  Forall (quiet env) (JsSet.values (take k (drop j s.1))) →
  (∀ n, walk env key n (j + k) s = None) →
  ∀ n, walk env key n j s = None.
Proof.
  induction k as [|k IH]; intros j Hlen Hq Hnone n.
  - rewrite <- (Nat.add_0_r j). apply Hnone.
  - destruct n as [|n]; [done|].
    destruct (lookup_lt_is_Some_2 s.1 j) as [e He]; [lia|].
    rewrite walk_S, He. rewrite (drop_S _ _ _ He) in Hq. simpl in Hq.
    assert (Hrest : ∀ m, walk env key m (S j) s = None).
    { apply IH; [lia| |].
      - destruct e; simpl in Hq; [by apply Forall_cons in Hq as [_ Hq]|done].
      - intros m. replace (S j + k) with (j + S k) by lia. apply Hnone. }
    destruct e as [c|]; simpl in Hq.
    + apply Forall_cons in Hq as [Hc _]. rewrite setAfter_quiet by done.
      by rewrite Hrest.
    + apply Hrest.
Qed.

(** ** Fixtures are reachable *)

Lemma emptyWindow_pristine : pristine emptyWindow.
Proof. repeat split. intros [|r] d H; discriminate H. Qed.

Lemma sharedCallbackState_reachable : reachable quietEnv sharedCallbackState.
Proof.
  unfold sharedCallbackState.
  apply (reachable_step _ (OpSubscribe "*" 7) _ _
           (reachable_step _ (OpSubscribe "teams" 7) _ _
              (reachable_step _ OpStart _ _
                 (reachable_new _ _ emptyWindow_pristine) eq_refl) eq_refl) eq_refl).
Qed.

Lemma twoCallbacksState_reachable : reachable reentrantEnv twoCallbacksState.
Proof.
  unfold twoCallbacksState.
  apply (reachable_step _ (OpSubscribe "teams" 1) _ _
           (reachable_step _ (OpSubscribe "teams" 0) _ _
              (reachable_step _ OpStart _ _
                 (reachable_new _ _ emptyWindow_pristine) eq_refl) eq_refl) eq_refl).
Qed.

Lemma resubscribingState_reachable : reachable resubscribingEnv resubscribingState.
Proof.
  unfold resubscribingState.
  apply (reachable_step _ (OpSubscribe "teams" 1) _ _
           (reachable_step _ (OpSubscribe "teams" 0) _ _
              (reachable_step _ OpStart _ _
                 (reachable_new _ _ emptyWindow_pristine) eq_refl) eq_refl) eq_refl).
Qed.

(** ** Dispatch rule *)

(** C1, as the code has it.  When the callbacks a message reaches leave
    the registry alone: a [storage-update] or [force-sync] message with a
    non-empty key invokes the callbacks registered under that key, in
    registration order, and then, unless the key is the wildcard, the
    callbacks registered under the wildcard; a [data-refresh] message and a
    [force-sync] message without a key invoke the wildcard callbacks; a
    [storage-update] message without a key invokes nothing.  Each
    registration is invoked once: no set lists a callback twice, and the
    wildcard set is not walked a second time when the key is the wildcard. *)
Theorem handleSyncMessage_reaches_targets env m st :
  registry_ok st →
  enough_fuel env st →
  Forall (quiet env) (dispatchTargets m st) →
  ∃ st', handleSyncMessage env m st = Some st'
         ∧ calls st' = calls st ++ dispatchTargets m st
         ∧ ∀ key, NoDup (callbacksOf key st).
Proof.
  intros Hok Hfuel Hq. eexists. split_and!.
  - by apply handleSyncMessage_quiet.
  - by rewrite calls_emits_Called, calls_updateSyncTime.
  - intros key. by apply registry_ok_NoDup.
Qed.

Lemma handleSyncMessage_reaches_targets_witness :
  ∃ st', handleSyncMessage quietEnv
           {| type := force_sync; key := Some "teams"; timestamp := 0 |}
           sharedCallbackState = Some st'
         ∧ calls st' = calls sharedCallbackState ++ [7; 7]
         ∧ ∀ key, NoDup (callbacksOf key sharedCallbackState).
Proof.
  apply (handleSyncMessage_reaches_targets quietEnv
           {| type := force_sync; key := Some "teams"; timestamp := 0 |}
           sharedCallbackState).
  - apply (reachable_ok quietEnv), sharedCallbackState_reachable.
  - unfold enough_fuel. vm_compute. repeat constructor.
  - vm_compute. repeat constructor.
Defined.

(** C1 as stated fails twice on a started transport in which callback 7 is
    subscribed under ["teams"] and under the wildcard.  A [storage-update]
    message without a key is to reach the wildcard subscriber and invokes no
    callback; a [storage-update] for ["teams"] is to invoke callback 7 once
    and invokes it twice. *)
Lemma handleSyncMessage_counterexample :
  let no_key := {| type := storage_update; key := None; timestamp := 0 |} in
  let teams := {| type := storage_update; key := Some "teams"; timestamp := 0 |} in
  calls sharedCallbackState = []
  ∧ claimedTargets no_key sharedCallbackState = [7]
  ∧ calls <$> handleSyncMessage quietEnv no_key sharedCallbackState = Some []
  ∧ claimedTargets teams sharedCallbackState = [7]
  ∧ calls <$> handleSyncMessage quietEnv teams sharedCallbackState = Some [7; 7].
Proof. vm_compute. done. Qed.

(** ** Reentrancy *)

(** A set that an action has emptied stays as it is: the key has lost it. *)
Lemma setAfter_detached env key c d :
  (setAfter env key c (d, true)).2 = false →
  JsSet.values (setAfter env key c (d, true)).1 = [].
Proof.
  unfold setAfter. generalize (body env c). intros l.
  assert (∀ s : list (option nat) * bool,
            (s.2 = false → JsSet.values s.1 = []) →
            (foldl (λ s a, actOn key a s) s l).2 = false →
            JsSet.values (foldl (λ s a, actOn key a s) s l).1 = []) as Hall.
  { induction l as [|a l IH]; intros s Hs; simpl; [done|].
    apply IH. destruct s as [e att]. unfold actOn. cbn [fst snd] in *.
    destruct att; [|done].
    destruct a as [k x|k x]; case_decide; cbn [fst snd]; try done.
    intros Hsz%bool_decide_eq_false. apply dec_stable in Hsz.
    unfold JsSet.size in Hsz. fold (JsSet.values (JsSet.delete x e)) in Hsz.
    by destruct (JsSet.values (JsSet.delete x e)). }
  by apply Hall.
Qed.

(** C2, as the code has it.  A pass walks the live set, it takes no
    snapshot: whatever the callbacks subscribe and revoke, it invokes what
    the walk over the set invokes, which looks at the set again after each
    callback, and it ends exactly when that walk ends.  In particular:
    - when no callback of the set subscribes or revokes, the pass invokes
      the callbacks that were in the set when it began, once each, in
      registration order;
    - when the pass reaches a callback [a] that subscribes and revokes, in
      any number and under any keys, it goes on over the set as [a] left
      it: the callbacks invoked after [a] are those that are in the set
      behind the position of [a] when [a] has returned (here: when the
      callbacks before [a] and those then behind it leave the registry
      alone);
    - so when all [a] does is revoke a callback [b] of the same key, the
      callbacks after [a] are invoked except [b]; when all [a] does is
      subscribe a new callback [c] under the same key, [c] is invoked at
      the end of the same pass; and once [a] has emptied the set, nothing
      more is invoked;
    - a pass need not end: when the last callback of the set takes itself
      out and puts itself back while another callback stays in the set, it
      is appended behind the position of the pass every time it is invoked,
      and no number of steps ends the pass. *)
Theorem forEach_walks_live_set env key r st d :
  registry_ok st →
  listeners (this st) !! key = Some r →
  heap (win st) !! r = Some d →
  (∀ n, calls <$> forEach env n r 0 st
        = (λ l, calls st ++ l) <$> walk env key n 0 (d, true))
  ∧ (∀ n, length d < n →
       Forall (quiet env) (JsSet.values d) →
       ∃ st', forEach env n r 0 st = Some st' ∧ calls st' = calls st ++ JsSet.values d)
  ∧ (∀ n i a,
       d !! i = Some (Some a) →
       Forall (quiet env) (JsSet.values (take i d)) →
       let d' := (setAfter env key a (d, true)).1 in
       Forall (quiet env) (JsSet.values (drop (S i) d')) →
       length d' < n →
       ∃ st', forEach env n r 0 st = Some st'
              ∧ calls st' = calls st ++ JsSet.values (take i d)
                              ++ a :: JsSet.values (drop (S i) d'))
  ∧ (∀ n i a b,
       d !! i = Some (Some a) →
       body env a = [CbRevoke key b] →
       Forall (quiet env) (JsSet.values (take i d)) →
       Forall (quiet env) (JsSet.values (drop (S i) d)) →
       S (length d) < n →
       ∃ st', forEach env n r 0 st = Some st'
              ∧ calls st' = calls st ++ JsSet.values (take i d)
                              ++ a :: filter (λ x, x ≠ b) (JsSet.values (drop (S i) d)))
  ∧ (∀ n i a c,
       d !! i = Some (Some a) →
       body env a = [CbSubscribe key c] →
       Some c ∉ d →
       quiet env c →
       Forall (quiet env) (JsSet.values (take i d)) →
       Forall (quiet env) (JsSet.values (drop (S i) d)) →
       S (length d) < n →
       ∃ st', forEach env n r 0 st = Some st'
              ∧ calls st' = calls st ++ JsSet.values (take i d)
                              ++ a :: JsSet.values (drop (S i) d) ++ [c])
  ∧ (∀ n i a,
       d !! i = Some (Some a) →
       Forall (quiet env) (JsSet.values (take i d)) →
       (setAfter env key a (d, true)).2 = false →
       length (setAfter env key a (d, true)).1 < n →
       ∃ st', forEach env n r 0 st = Some st'
              ∧ calls st' = calls st ++ JsSet.values (take i d) ++ [a])
  ∧ (∀ a pre,
       d = pre ++ [Some a] →
       JsSet.values pre ≠ [] →
       Forall (quiet env) (JsSet.values pre) →
       body env a = [CbRevoke key a; CbSubscribe key a] →
       ∀ n, forEach env n r 0 st = None).
Proof.
  intros Hok Hk Hd.
  assert (Htr : tracks key r (d, true) st) by done.
  pose proof (λ n, forEach_walk env key r n 0 (d, true) st Htr) as Hwalk.
  assert (Hsome : ∀ n l, walk env key n 0 (d, true) = Some l →
            ∃ st', forEach env n r 0 st = Some st' ∧ calls st' = calls st ++ l).
  { intros n l Hl. specialize (Hwalk n). rewrite Hl in Hwalk. simpl in Hwalk.
    destruct (forEach env n r 0 st) as [st'|]; [|done].
    injection Hwalk as Hwalk. eauto. }
  assert (Hprefix : ∀ n i, i < length d → Forall (quiet env) (JsSet.values (take i d)) →
            forEach env n r 0 st =
            forEach env (n - i) r i (emits (Called <$> JsSet.values (take i d)) st)
            ∨ n < i).
  { intros n i Hi Hq. destruct (decide (n < i)); [by right|left].
    replace n with (i + (n - i)) at 1 by lia.
    by rewrite (forEach_quiet_prefix env r d i 0 (n - i) st Hd) by (done || lia). }
  assert (Hany : ∀ n i a,
            d !! i = Some (Some a) →
            Forall (quiet env) (JsSet.values (take i d)) →
            let d' := (setAfter env key a (d, true)).1 in
            Forall (quiet env) (JsSet.values (drop (S i) d')) →
            length d' < n →
            ∃ st', forEach env n r 0 st = Some st'
                   ∧ calls st' = calls st ++ JsSet.values (take i d)
                                   ++ a :: JsSet.values (drop (S i) d')).
  { intros n i a Hi Hq1 d' Hq2 Hn.
    pose proof (lookup_lt_Some _ _ _ Hi) as Hlt.
    assert (Hlen : length d ≤ length d').
    { unfold d', setAfter. generalize (body env a). intros l.
      assert (∀ s : list (option nat) * bool,
                length s.1 ≤ length (foldl (λ s a, actOn key a s) s l).1) as Hall.
      { induction l as [|x l IH]; intros s; simpl; [done|].
        etrans; [|apply IH]. unfold actOn. destruct s as [e []]; simpl; [|done].
        destruct x; case_decide; simpl; rewrite ?length_delete; try done.
        unfold JsSet.add. case_match; [done|]. rewrite length_app. lia. }
      apply (Hall (d, true)). }
    apply Hsome.
    replace n with (i + S (n - S i)) by lia.
    rewrite (walk_quiet_prefix env key (d, true) i 0 (S (n - S i)));
      [|simpl; lia|by rewrite drop_0].
    cbn [fst]. rewrite drop_0. change (0 + i) with i.
    rewrite walk_S. cbn [fst]. rewrite Hi.
    rewrite walk_quiet; [done|done|]. fold d'. lia. }
  split_and!.
  - exact Hwalk.
  - intros n Hn Hq. apply Hsome. rewrite walk_quiet; [done|done|simpl; lia].
  - exact Hany.
  - intros n i a b Hi Hbody Hq1 Hq2 Hn.
    pose proof (lookup_lt_Some _ _ _ Hi) as Hlt.
    destruct (Hprefix n i Hlt Hq1) as [->|?]; [|lia].
    destruct (forEach_after_revoke env (n - i) r i
                (emits (Called <$> JsSet.values (take i d)) st) d key a b)
      as (st' & Hrun & Hcalls); [done..|lia|].
    exists st'. split; [done|].
    by rewrite Hcalls, calls_emits_Called, <- app_assoc.
  - intros n i a c Hi Hbody Hnew Hc Hq1 Hq2 Hn.
    pose proof (lookup_lt_Some _ _ _ Hi) as Hlt.
    destruct (Hprefix n i Hlt Hq1) as [->|?]; [|lia].
    destruct (forEach_after_subscribe env (n - i) r i
                (emits (Called <$> JsSet.values (take i d)) st) d key a c)
      as (st' & Hrun & Hcalls); [done..|lia|].
    exists st'. split; [done|].
    by rewrite Hcalls, calls_emits_Called, <- app_assoc.
  - intros n i a Hi Hq1 Hgone Hn.
    pose proof (setAfter_detached env key a d Hgone) as Hnil.
    assert (Hrest : JsSet.values (drop (S i) (setAfter env key a (d, true)).1) = []).
    { rewrite <- (take_drop (S i) (setAfter env key a (d, true)).1), values_app in Hnil.
      by apply app_eq_nil in Hnil as [_ Hnil]. }
    destruct (Hany n i a Hi Hq1) as (st' & Hrun & Hcalls); [by rewrite Hrest|done|].
    exists st'. split; [done|]. by rewrite Hcalls, Hrest.
  - intros a pre -> Hlive Hq Hbody n.
    assert (Hnew : Some a ∉ pre).
    { destruct Hok as (_ & _ & Hnd). specialize (Hnd _ _ Hd).
      rewrite values_app in Hnd. apply NoDup_app in Hnd as (_ & Hnd & _).
      intros Hin%elem_of_values. apply (Hnd a Hin). simpl. by left. }
    specialize (Hwalk n).
    rewrite (walk_None_prefix env key (pre ++ [Some a], true) (length pre) 0) in Hwalk.
    + by destruct (forEach env n r 0 st).
    + simpl. rewrite length_app. lia.
    + simpl. rewrite drop_0, take_app_length. done.
    + intros m. simpl. by apply walk_diverges.
Qed.

Lemma forEach_walks_live_set_witness :
  (∃ st', forEach reentrantEnv 8 0 0 twoCallbacksState = Some st'
          ∧ calls st' = [0; 2])
  ∧ ∀ n, forEach resubscribingEnv n 0 0 resubscribingState = None.
Proof.
  split.
  - destruct (forEach_walks_live_set reentrantEnv "teams" 0 twoCallbacksState
                [Some 0; Some 1]
                (proj1 (reachable_ok reentrantEnv _ twoCallbacksState_reachable))
                eq_refl eq_refl) as (_ & _ & Hany & _).
    destruct (Hany 8 0 0 eq_refl) as (st' & Hrun & Hcalls).
    + constructor.
    + vm_compute. repeat constructor.
    + vm_compute. lia.
    + exists st'. split; [exact Hrun|]. rewrite Hcalls. by vm_compute.
  - destruct (forEach_walks_live_set resubscribingEnv "teams" 0 resubscribingState
                [Some 0; Some 1]
                (proj1 (reachable_ok resubscribingEnv _ resubscribingState_reachable))
                eq_refl eq_refl) as (_ & _ & _ & _ & _ & _ & Hloop).
    apply (Hloop 1 [Some 0]); [done|done|by repeat constructor|done].
Defined.

(** C2 as stated fails: callbacks 0 and 1 are subscribed under ["teams"]
    when the pass begins; callback 0 revokes callback 1 and subscribes
    callback 2; the pass invokes 0 and 2, and never 1. *)
Lemma forEach_snapshot_counterexample :
  callbacksOf "teams" twoCallbacksState = [0; 1]
  ∧ listeners (this twoCallbacksState) !! "teams" = Some 0
  ∧ calls <$> forEach reentrantEnv 8 0 0 twoCallbacksState = Some [0; 2]
  ∧ calls <$> notifyListeners reentrantEnv "teams" twoCallbacksState = Some [0; 2].
Proof. vm_compute. done. Qed.

(** ** No empty bucket *)

(** C6.  In every state the transport can reach, by any run of interface
    calls and environment events (callbacks that subscribe and revoke while
    they are dispatched included), every key of the listener map points to
    a set that is not empty; and revoking the last callback of a key removes
    the key. *)
Theorem registry_has_no_empty_bucket env st :
  reachable env st →
  (∀ key r, listeners (this st) !! key = Some r →
     ∃ d, heap (win st) !! r = Some d ∧ JsSet.size d ≠ 0)
  ∧ (∀ key, is_Some (listeners (this st) !! key) → callbacksOf key st ≠ [])
  ∧ (∀ key callback, callbacksOf key st = [callback] →
       listeners (this (revoke key callback st)) !! key = None).
Proof.
  intros [(Hne & _ & _) _]%reachable_ok. split_and!.
  - exact Hne.
  - intros key [r Hr]. unfold callbacksOf. rewrite Hr.
    destruct (Hne _ _ Hr) as (d & -> & Hsz).
    intros Hnil. apply Hsz. unfold JsSet.size. fold (JsSet.values d). by rewrite Hnil.
  - intros key callback. unfold callbacksOf, revoke.
    destruct (listeners (this st) !! key) as [r|] eqn:Hr; [|done].
    destruct (heap (win st) !! r) as [d|] eqn:Hd; [|done].
    intros Hvals. simpl. rewrite list_lookup_alter_eq, Hd. simpl.
    assert (JsSet.size (JsSet.delete callback d) = 0) as Hz.
    { unfold JsSet.size. fold (JsSet.values (JsSet.delete callback d)).
      rewrite values_delete, Hvals.
      by rewrite filter_cons_False, filter_nil by naive_solver. }
    rewrite decide_True by done. simpl. apply lookup_delete_eq.
Qed.

Lemma registry_has_no_empty_bucket_witness :
  reachable quietEnv sharedCallbackState
  ∧ callbacksOf "teams" sharedCallbackState ≠ []
  ∧ listeners (this (revoke "teams" 7 sharedCallbackState)) !! "teams" = None.
Proof.
  split; [exact sharedCallbackState_reachable|].
  destruct (registry_has_no_empty_bucket quietEnv sharedCallbackState
              sharedCallbackState_reachable) as (_ & Hnonempty & Hlast).
  split.
  - apply Hnonempty. exists 0. by vm_compute.
  - apply Hlast. by vm_compute.
Defined.

(** ** Idempotent revocation *)

Lemma callbacksOf_subscribe key callback st k :
  registry_ok st →
  callbacksOf k (subscribe key callback st) =
  if decide (k = key) then added callback (callbacksOf key st) else callbacksOf k st.
Proof.
  intros (Hne & Hinj & _). unfold subscribe, callbacksOf, added.
  destruct (listeners (this st) !! key) as [r|] eqn:Hk; simpl.
  - rewrite Hk. simpl. destruct (Hne _ _ Hk) as (d & Hd & _). rewrite Hd.
    case_decide as Hkk.
    + subst k. rewrite Hk, list_lookup_alter_eq, Hd. simpl. apply values_add.
    + destruct (listeners (this st) !! k) as [r'|] eqn:Hk'; [|done].
      rewrite list_lookup_alter_ne; [done|].
      intros <-. apply Hkk. by apply (Hinj k key r).
  - rewrite lookup_insert_eq. simpl. case_decide as Hkk.
    + subst k. rewrite lookup_insert_eq, list_lookup_alter_eq.
      rewrite lookup_app_r by lia. by rewrite Nat.sub_diag.
    + rewrite lookup_insert_ne by done.
      destruct (listeners (this st) !! k) as [r'|] eqn:Hk'; [|done].
      destruct (Hne _ _ Hk') as (d & Hd & _).
      pose proof (lookup_lt_Some _ _ _ Hd).
      rewrite list_lookup_alter_ne by lia. by rewrite lookup_app_l.
Qed.

Lemma callbacksOf_revoke key callback st k :
  registry_ok st →
  callbacksOf k (revoke key callback st) =
  if decide (k = key) then filter (λ x, x ≠ callback) (callbacksOf key st)
  else callbacksOf k st.
Proof.
  intros (Hne & Hinj & _). unfold revoke, callbacksOf.
  destruct (listeners (this st) !! key) as [r|] eqn:Hk; simpl.
  2: { case_decide as Hkk; [|done]. subst k. by rewrite Hk. }
  destruct (Hne _ _ Hk) as (d & Hd & _).
  rewrite list_lookup_alter_eq, Hd. simpl.
  assert (Hother : ∀ r', k ≠ key → listeners (this st) !! k = Some r' →
            alter (JsSet.delete callback) r (heap (win st)) !! r' = heap (win st) !! r').
  { intros r' Hkk Hk'. apply list_lookup_alter_ne. intros <-.
    apply Hkk. by apply (Hinj k key r). }
  destruct (decide (JsSet.size (JsSet.delete callback d) = 0)) as [Hz|Hnz]; simpl.
  - case_decide as Hkk.
    + subst k. rewrite lookup_delete_eq. rewrite <- values_delete.
      unfold JsSet.size in Hz. fold (JsSet.values (JsSet.delete callback d)) in Hz.
      by destruct (JsSet.values (JsSet.delete callback d)).
    + rewrite lookup_delete_ne by done.
      destruct (listeners (this st) !! k) as [r'|] eqn:Hk'; [|done].
      by rewrite Hother.
  - case_decide as Hkk.
    + subst k. rewrite Hk, list_lookup_alter_eq, Hd. simpl. apply values_delete.
    + destruct (listeners (this st) !! k) as [r'|] eqn:Hk'; [|done].
      by rewrite Hother.
Qed.

(** A handle that is not called for the first time is a no-op at any later
    moment as long as its pair has not been subscribed again. *)
Lemma revoke_stale (key : string) (callback : nat) (st : State) :
  registry_ok st → callback ∉ callbacksOf key st → revoke key callback st = st.
Proof.
  intros (Hne & _ & _) Hnin. unfold revoke, callbacksOf in *.
  destruct (listeners (this st) !! key) as [r|] eqn:Hr; [|done].
  destruct (Hne _ _ Hr) as (d & Hd & Hsz). rewrite Hd in Hnin.
  assert (alter (JsSet.delete callback) r (heap (win st)) = heap (win st)) as Hsame.
  { apply list_eq. intros j. destruct (decide (r = j)) as [<-|Hj].
    - rewrite list_lookup_alter_eq, Hd. simpl. f_equal.
      apply delete_absent. by rewrite <- elem_of_values.
    - by rewrite list_lookup_alter_ne. }
  rewrite Hsame. simpl. rewrite Hd. rewrite decide_False by done.
  by destruct st as [[] ?].
Qed.

(** C7, as the code has it.  The handle keeps no record of having been
    called: it removes whatever registration of its callback under its key
    exists when it is called.  So a call that follows another call of the
    handle directly, any number of times, leaves the state as the first
    call left it, and a later call changes nothing as long as the callback
    is not registered under the key at that time.  When the same callback
    has been subscribed under the same key again in the meantime, a later
    call of the old handle removes that new registration.  The handle is a
    total function: it has no failing path. *)
Theorem handle_called_again (key : string) (callback : nat) (st : State) (n : nat) :
  Nat.iter (S n) (revoke key callback) (subscribe key callback st)
  = revoke key callback (subscribe key callback st)
  ∧ Nat.iter (S n) (revoke key callback) st = revoke key callback st
  ∧ (registry_ok st →
     (callback ∉ callbacksOf key st → revoke key callback st = st)
     ∧ (callback ∈ callbacksOf key st →
          callbacksOf key (revoke key callback st)
          = filter (λ x, x ≠ callback) (callbacksOf key st)
          ∧ revoke key callback st ≠ st)
     ∧ (let st1 := revoke key callback (subscribe key callback st) in
        let st2 := subscribe key callback st1 in
        callback ∈ callbacksOf key st2
        ∧ (callback ∉ callbacksOf key (revoke key callback st2))
        ∧ revoke key callback st2 ≠ st2)).
Proof.
  assert (Hiter : ∀ s, Nat.iter (S n) (revoke key callback) s = revoke key callback s).
  { intros s. induction n as [|n IH]; [done|].
    change (Nat.iter (S (S n)) (revoke key callback) s)
      with (revoke key callback (Nat.iter (S n) (revoke key callback) s)).
    rewrite IH. apply revoke_revoke. }
  assert (Hremoves : ∀ s, registry_ok s → callback ∈ callbacksOf key s →
            callbacksOf key (revoke key callback s)
            = filter (λ x, x ≠ callback) (callbacksOf key s)
            ∧ (callback ∉ callbacksOf key (revoke key callback s))
            ∧ revoke key callback s ≠ s).
  { intros s Hs Hin.
    assert (Heq : callbacksOf key (revoke key callback s)
                  = filter (λ x, x ≠ callback) (callbacksOf key s)).
    { by rewrite callbacksOf_revoke, decide_True. }
    assert (Hout : callback ∉ callbacksOf key (revoke key callback s)).
    { rewrite Heq, list_elem_of_filter. intros [Hne _]. by apply Hne. }
    split_and!; [done|done|]. intros Hsame. by rewrite Hsame in Hout. }
  split; [apply Hiter|]. split; [apply Hiter|].
  intros Hok. split_and!.
  - by apply revoke_stale.
  - intros Hin. by destruct (Hremoves st Hok Hin) as (? & _ & ?).
  - intros st1 st2.
    assert (Hok2 : registry_ok st2).
    { by apply subscribe_registry_ok, revoke_registry_ok, subscribe_registry_ok. }
    assert (Hin : callback ∈ callbacksOf key st2).
    { unfold st2. rewrite callbacksOf_subscribe, decide_True; [|done|].
      - unfold added. case_bool_decide; [done|].
        apply elem_of_app. right. by apply list_elem_of_singleton.
      - by apply revoke_registry_ok, subscribe_registry_ok. }
    split; [done|]. by destruct (Hremoves st2 Hok2 Hin) as (_ & ? & ?).
Qed.

Lemma handle_called_again_witness :
  revoke "scores" 7 sharedCallbackState = sharedCallbackState
  ∧ revoke "teams" 7 sharedCallbackState ≠ sharedCallbackState.
Proof.
  destruct (handle_called_again "scores" 7 sharedCallbackState 0) as (_ & _ & Hscores).
  destruct (Hscores (proj1 (reachable_ok quietEnv _ sharedCallbackState_reachable)))
    as (Hstale & _).
  destruct (handle_called_again "teams" 7 sharedCallbackState 0) as (_ & _ & Hteams).
  destruct (Hteams (proj1 (reachable_ok quietEnv _ sharedCallbackState_reachable)))
    as (_ & Hlive & _).
  split.
  - apply Hstale. vm_compute. by intros ?%elem_of_nil.
  - apply Hlive. vm_compute. by left.
Defined.

(** C7 as stated fails: callback 7 is subscribed under ["teams"] and its
    handle is called; the same callback is subscribed under ["teams"]
    again; a second call of the first handle is then not a no-op, it
    removes the new registration. *)
Lemma handle_after_resubscribe_counterexample :
  let st1 := subscribe "teams" 7 startedState in
  let st2 := revoke "teams" 7 st1 in
  let st3 := subscribe "teams" 7 st2 in
  let st4 := revoke "teams" 7 st3 in
  callbacksOf "teams" st1 = [7]
  ∧ callbacksOf "teams" st2 = []
  ∧ callbacksOf "teams" st3 = [7]
  ∧ callbacksOf "teams" st4 = []
  ∧ st4 ≠ st3.
Proof.
  intros st1 st2 st3 st4. split_and!; [by vm_compute..|].
  intros Heq. apply (f_equal (callbacksOf "teams")) in Heq. by vm_compute in Heq.
Qed.

(** ** The last-sync time *)

Lemma subscribe_time k c st :
  reads (win (subscribe k c st)) = reads (win st)
  ∧ lastSyncTime (this (subscribe k c st)) = lastSyncTime (this st).
Proof. unfold subscribe. simpl. by repeat case_match. Qed.

Lemma revoke_time k c st :
  reads (win (revoke k c st)) = reads (win st)
  ∧ lastSyncTime (this (revoke k c st)) = lastSyncTime (this st).
Proof. unfold revoke. simpl. by repeat case_match. Qed.

Lemma start_time env st :
  reads (win (start env st)) = reads (win st)
  ∧ lastSyncTime (this (start env st)) = lastSyncTime (this st).
Proof.
  unfold start, startAutoRefresh, setupStorageListener, initializeBroadcastChannel.
  by repeat case_match.
Qed.

Lemma stop_time st :
  reads (win (stop st)) = reads (win st)
  ∧ lastSyncTime (this (stop st)) = lastSyncTime (this st).
Proof. unfold stop, destroy. by repeat case_match. Qed.

Section Time.

Context (env : Env) (Hclock : clock_monotone env).

Lemma later_unchanged a b :
  reads (win b) = reads (win a) ∧ lastSyncTime (this b) = lastSyncTime (this a) →
  later env a b.
Proof. unfold later, time_ok. intros [-> ->] H. split; [exact H|reflexivity]. Qed.

Lemma later_run ops st st' : run env ops st = Some st' → later env st st'.
Proof using Hclock.
  apply (lift_run env (later env)).
  - intros s Hs. split; [done|lia].
  - intros a b c Hab Hbc Ha. destruct (Hab Ha) as [Hb ?].
    destruct (Hbc Hb) as [Hc ?]. split; [done|lia].
  - intros c s. apply later_unchanged.
    apply (invoke_preserves env
             (λ x, reads (win x) = reads (win s)
                   ∧ lastSyncTime (this x) = lastSyncTime (this s))); [done|..|done].
    + intros k c' x [<- <-]. apply subscribe_time.
    + intros k c' x [<- <-]. apply revoke_time.
  - intros s. unfold later, time_ok, updateSyncTime. simpl.
    pose proof (Hclock (reads (win s))). lia.
  - intros s. unfold later, time_ok. simpl. pose proof (Hclock (reads (win s))). lia.
  - intros e s. by apply later_unchanged.
  - intros s. apply later_unchanged, start_time.
  - intros s. apply later_unchanged, stop_time.
  - intros k c s. apply later_unchanged, subscribe_time.
  - intros k c s. apply later_unchanged, revoke_time.
Qed.

End Time.

(** C3, as the code has it.  The last-sync time is whatever [Date.now()]
    returned at the last update.  As long as successive readings of that
    clock do not go back, the values [getLastSyncTime()] returns along a run
    do not go back either. *)
Theorem getLastSyncTime_monotone env w ops1 ops2 st1 st2 :
  clock_monotone env →
  run env ops1 (newSyncService env w) = Some st1 →
  run env ops2 st1 = Some st2 →
  (getLastSyncTime st1 ≤ getLastSyncTime st2)%Z.
Proof.
  intros Hclock H1 H2.
  assert (time_ok env (newSyncService env w)) as H0.
  { unfold time_ok. simpl. apply Hclock. }
  destruct (later_run env Hclock _ _ _ H1 H0) as [Hok1 _].
  by destruct (later_run env Hclock _ _ _ H2 Hok1) as [_ ?].
Qed.

Lemma getLastSyncTime_monotone_witness :
  (getLastSyncTime (newSyncService quietEnv emptyWindow)
   ≤ getLastSyncTime
       (default startedState
          (run quietEnv [OpStart; OpNotifyUpdate "teams"]
             (newSyncService quietEnv emptyWindow))))%Z.
Proof.
  apply (getLastSyncTime_monotone quietEnv emptyWindow []
           [OpStart; OpNotifyUpdate "teams"]).
  - intros i. simpl. lia.
  - reflexivity.
  - by vm_compute.
Defined.

(** C3 as stated fails when the wall clock is set back: the transport is
    created at time 1000, the clock then reads 501, 502, ..., and after one
    [notifyUpdate] the last-sync time is 502. *)
Lemma getLastSyncTime_counterexample :
  ∃ st1 st2,
    run setBackEnv [] (newSyncService setBackEnv emptyWindow) = Some st1
    ∧ run setBackEnv [OpNotifyUpdate "teams"] st1 = Some st2
    ∧ getLastSyncTime st1 = 1000%Z
    ∧ getLastSyncTime st2 = 502%Z
    ∧ (getLastSyncTime st2 < getLastSyncTime st1)%Z.
Proof.
  eexists _, _. split; [reflexivity|]. split; [vm_compute; reflexivity|].
  by vm_compute.
Qed.

(** ** Broadcasting on a stopped transport *)

Lemma broadcast_stopped env ty k st :
  lifecycle_ok st →
  isStarted (this st) = false →
  broadcast env ty k st =
  Some (updateSyncTime env
          (emit (Dispatched {| type := ty; key := k;
                               timestamp := clock env (reads (win st)) |})
             (tick st))).
Proof.
  unfold lifecycle_ok. intros (_ & Hch & _ & _ & Hstopped) Hs.
  rewrite Hs in Hstopped. destruct Hstopped as (_ & Hcl & _ & Hcn).
  unfold broadcast, postMessage. simpl. rewrite Hcn. simpl. rewrite Hch, Hcl. done.
Qed.

(** C10.  On a transport that is stopped (never started, or stopped
    again), [notifyUpdate] and [forceSync] return normally; they stamp the
    message with the clock, dispatch it on the window, set the last-sync
    time from the clock and emit the time signal, and no subscribed
    callback is invoked: the window has no listener of the transport that
    would hand the event to the registry. *)
Theorem stopped_broadcast_reaches_no_callback env st :
  reachable env st →
  isStarted (this st) = false →
  let t0 := clock env (reads (win st)) in
  let t1 := clock env (S (reads (win st))) in
  (∀ key, ∃ st',
      notifyUpdate env key st = Some st'
      ∧ trace (win st') =
          trace (win st)
          ++ [Dispatched {| type := storage_update; key := Some key; timestamp := t0 |};
              SyncTimeUpdate t1]
      ∧ getLastSyncTime st' = t1
      ∧ calls st' = calls st)
  ∧ (∀ key, ∃ st',
      forceSync env key st = Some st'
      ∧ trace (win st') =
          trace (win st)
          ++ [Dispatched {| type := force_sync; key := key; timestamp := t0 |};
              SyncTimeUpdate t1]
      ∧ getLastSyncTime st' = t1
      ∧ calls st' = calls st).
Proof.
  intros [_ Hlife]%reachable_ok Hs t0 t1.
  assert (∀ ty k, ∃ st',
             broadcast env ty k st = Some st'
             ∧ trace (win st') =
                 trace (win st)
                 ++ [Dispatched {| type := ty; key := k; timestamp := t0 |};
                     SyncTimeUpdate t1]
             ∧ getLastSyncTime st' = t1
             ∧ calls st' = calls st) as H.
  { intros ty k. eexists. split; [by apply broadcast_stopped|].
    split_and!.
    - simpl. by rewrite <- app_assoc.
    - done.
    - unfold calls. simpl. rewrite !omap_app. simpl. by rewrite !app_nil_r. }
  split; intros key; apply H.
Qed.

Lemma stoppedState_reachable : reachable quietEnv stoppedState.
Proof.
  apply (reachable_step _ (OpSubscribe "teams" 7) _ _
           (reachable_new _ _ emptyWindow_pristine) eq_refl).
Qed.

Lemma stopped_broadcast_reaches_no_callback_witness :
  isStarted (this stoppedState) = false
  ∧ callbacksOf "teams" stoppedState = [7]
  ∧ ∃ st', notifyUpdate quietEnv "teams" stoppedState = Some st'
           ∧ getLastSyncTime st' = clock quietEnv (S (reads (win stoppedState)))
           ∧ calls st' = calls stoppedState.
Proof.
  split; [reflexivity|]. split; [by vm_compute|].
  destruct (stopped_broadcast_reaches_no_callback quietEnv stoppedState
              stoppedState_reachable eq_refl) as [Hnotify _].
  destruct (Hnotify "teams") as (st' & Hrun & _ & Htime & Hcalls).
  exists st'. split_and!; assumption.
Defined.

(** ** Starting twice *)

Lemma dispatched_unchanged a b : trace (win b) = trace (win a) → dispatched b = dispatched a.
Proof. unfold dispatched. by intros ->. Qed.

Lemma subscribe_trace k c st : trace (win (subscribe k c st)) = trace (win st).
Proof. unfold subscribe. simpl. by repeat case_match. Qed.

Lemma revoke_trace k c st : trace (win (revoke k c st)) = trace (win st).
Proof. unfold revoke. simpl. by repeat case_match. Qed.

(** Handling an event never dispatches a further [STORAGE_EVENT_KEY]
    event. *)
Lemma onCustomEvent_dispatched env d s s' :
  onCustomEvent env d s = Some s' → dispatched s' = dispatched s.
Proof.
  apply (lift_onCustomEvent env (λ a b, dispatched b = dispatched a)).
  - done.
  - intros a b c Hab Hbc. by rewrite Hbc.
  - intros c st.
    apply (invoke_preserves env (λ x, dispatched x = dispatched st)); [..|done].
    + intros c' x <-. unfold dispatched. simpl. rewrite omap_app. simpl.
      apply app_nil_r.
    + intros k c' x <-. apply dispatched_unchanged, subscribe_trace.
    + intros k c' x <-. apply dispatched_unchanged, revoke_trace.
  - intros st. unfold dispatched, updateSyncTime. simpl. rewrite omap_app. simpl.
    apply app_nil_r.
Qed.

(** One [broadcast] dispatches one event, whatever the callbacks do. *)
Lemma broadcast_dispatched env ty k st st' :
  broadcast env ty k st = Some st' →
  dispatched st' =
  dispatched st ++ [{| type := ty; key := k; timestamp := clock env (reads (win st)) |}].
Proof.
  unfold broadcast. intros (st4 & H4 & [= <-])%bind_Some.
  apply (lift_dispatchTo (λ a b, dispatched b = dispatched a)) in H4.
  - unfold dispatched in *. unfold updateSyncTime. simpl. rewrite omap_app. simpl.
    rewrite app_nil_r. rewrite H4. simpl. rewrite omap_app. simpl. f_equal.
    unfold postMessage. simpl. destruct (channel (this st)); [|done].
    destruct (postThrows env); simpl; rewrite omap_app; simpl; apply app_nil_r.
  - done.
  - intros a b c Hab Hbc. by rewrite Hbc.
  - intros s s'. apply onCustomEvent_dispatched.
Qed.

(** C4.  On a transport that is already started, [start()] logs the
    warning and changes nothing else: the state of the object is the same,
    and the window holds the same channel, the same two listeners and the
    same single interval as before.  When the interval elapses, the one
    timer callback runs one [broadcast] of [data-refresh], which dispatches
    one event. *)
Theorem start_when_started env st :
  reachable env st →
  isStarted (this st) = true →
  start env st = emit (Warn "SyncService already started") st
  ∧ this (start env st) = this st
  ∧ (∃ i, refreshInterval (this st) = Some i ∧ intervals (win (start env st)) = [i])
  ∧ (∃ s c, storageHandlers (win (start env st)) = [s]
            ∧ customHandlers (win (start env st)) = [c])
  ∧ channels (win (start env st)) = option_list (channel (this st))
  ∧ step env OpIntervalElapsed (start env st)
    = broadcast env data_refresh None (start env st)
  ∧ ∀ st', step env OpIntervalElapsed (start env st) = Some st' →
      dispatched st' =
      dispatched st
      ++ [{| type := data_refresh; key := None;
             timestamp := clock env (reads (win st)) |}].
Proof.
  intros [_ Hlife]%reachable_ok Hs.
  unfold lifecycle_ok in Hlife. rewrite Hs in Hlife.
  destruct Hlife as (Hsh & Hch & Hi & Hc & [s Hsl] & [c Hcl] & [i Hri]).
  assert (Hstart : start env st = emit (Warn "SyncService already started") st).
  { unfold start. by rewrite Hs. }
  assert (Hstep : step env OpIntervalElapsed (start env st)
                  = broadcast env data_refresh None (start env st)).
  { rewrite Hstart. simpl. by rewrite Hi, Hri. }
  rewrite Hstep. rewrite Hstart. simpl. split_and!.
  - done.
  - done.
  - exists i. by rewrite Hi, Hri.
  - exists s, c. by rewrite Hsh, Hch, Hsl, Hcl.
  - done.
  - done.
  - intros st' Hrun. apply broadcast_dispatched in Hrun. rewrite Hrun.
    unfold dispatched. simpl. rewrite omap_app. simpl. by rewrite app_nil_r.
Qed.

Lemma startedState_reachable : reachable quietEnv startedState.
Proof.
  apply (reachable_step _ OpStart _ _ (reachable_new _ _ emptyWindow_pristine) eq_refl).
Qed.

Lemma start_when_started_witness :
  isStarted (this startedState) = true
  ∧ start quietEnv startedState = emit (Warn "SyncService already started") startedState
  ∧ length (intervals (win (start quietEnv startedState))) = 1
  ∧ is_Some (step quietEnv OpIntervalElapsed (start quietEnv startedState)).
Proof.
  split; [reflexivity|].
  destruct (start_when_started quietEnv startedState startedState_reachable eq_refl)
    as (Hstart & _ & (i & _ & Hi) & _).
  split; [exact Hstart|]. split; [by rewrite Hi|].
  apply (bool_decide_unpack _). by vm_compute.
Defined.

(** ** Broadcasting on a started transport *)

Lemma registry_ok_ext a b :
  heap (win b) = heap (win a) → listeners (this b) = listeners (this a) →
  registry_ok a → registry_ok b.
Proof. unfold registry_ok. by intros -> ->. Qed.

Lemma enough_fuel_ext env a b :
  heap (win b) = heap (win a) → listeners (this b) = listeners (this a) →
  enough_fuel env a → enough_fuel env b.
Proof. unfold enough_fuel. by intros -> ->. Qed.

Lemma dispatchTargets_ext m a b :
  heap (win b) = heap (win a) → listeners (this b) = listeners (this a) →
  dispatchTargets m b = dispatchTargets m a.
Proof. unfold dispatchTargets, notifyTargets, callbacksOf. by intros -> ->. Qed.

Lemma postMessage_frame env m st :
  heap (win (postMessage env m st)) = heap (win st)
  ∧ this (postMessage env m st) = this st
  ∧ customHandlers (win (postMessage env m st)) = customHandlers (win st)
  ∧ calls (postMessage env m st) = calls st.
Proof.
  unfold postMessage, calls. destruct (channel (this st)); [|done].
  destruct (postThrows env); simpl; rewrite omap_app; simpl; by rewrite app_nil_r.
Qed.

(** On a started transport a broadcast reaches the callbacks its message
    is for (here: when they leave the registry alone). *)
Lemma broadcast_quiet env ty k st :
  registry_ok st →
  lifecycle_ok st →
  isStarted (this st) = true →
  enough_fuel env st →
  Forall (quiet env)
    (dispatchTargets {| type := ty; key := k; timestamp := clock env (reads (win st)) |} st) →
  ∃ st', broadcast env ty k st = Some st'
         ∧ calls st' =
           calls st
           ++ dispatchTargets
                {| type := ty; key := k; timestamp := clock env (reads (win st)) |} st.
Proof.
  intros Hok Hlife Hs Hfuel Hq.
  set (m := {| type := ty; key := k; timestamp := clock env (reads (win st)) |}) in *.
  unfold lifecycle_ok in Hlife. rewrite Hs in Hlife.
  destruct Hlife as (_ & Hch & _ & _ & _ & [c Hcl] & _).
  set (st3 := emit (Dispatched m) (postMessage env m (tick st))).
  destruct (postMessage_frame env m (tick st)) as (Hheap & Hthis & Hcust & Hcalls).
  assert (Hh3 : heap (win st3) = heap (win st)) by exact Hheap.
  assert (Hl3 : listeners (this st3) = listeners (this st)) by (simpl; by rewrite Hthis).
  assert (Hc3 : calls st3 = calls st).
  { unfold st3, calls. simpl. rewrite omap_app. simpl. rewrite app_nil_r. exact Hcalls. }
  assert (Hrun : handleSyncMessage env m st3 =
                 Some (emits (Called <$> dispatchTargets m st) (updateSyncTime env st3))).
  { rewrite <- (dispatchTargets_ext m st st3 Hh3 Hl3).
    apply handleSyncMessage_quiet.
    - by apply (registry_ok_ext st).
    - by apply (enough_fuel_ext env st).
    - by rewrite (dispatchTargets_ext m st st3 Hh3 Hl3). }
  exists (updateSyncTime env (emits (Called <$> dispatchTargets m st) (updateSyncTime env st3))).
  split.
  - unfold broadcast. fold m. fold st3.
    replace (customHandlers (win st3)) with [c].
    + unfold dispatchTo. simpl. rewrite Hrun. done.
    + unfold st3. simpl. rewrite Hcust. simpl. by rewrite Hch, Hcl.
  - by rewrite calls_updateSyncTime, calls_emits_Called, calls_updateSyncTime, Hc3.
Qed.

(** The state a broadcast on a started transport ends in, when the
    callbacks it reaches leave the registry alone. *)
Lemma broadcast_quiet_state env ty k st :
  registry_ok st →
  lifecycle_ok st →
  isStarted (this st) = true →
  enough_fuel env st →
  let m := {| type := ty; key := k; timestamp := clock env (reads (win st)) |} in
  Forall (quiet env) (dispatchTargets m st) →
  broadcast env ty k st
  = Some (updateSyncTime env
            (emits (Called <$> dispatchTargets m st)
               (updateSyncTime env (emit (Dispatched m) (postMessage env m (tick st)))))).
Proof.
  intros Hok Hlife Hs Hfuel m Hq.
  unfold lifecycle_ok in Hlife. rewrite Hs in Hlife.
  destruct Hlife as (_ & Hch & _ & _ & _ & [c Hcl] & _).
  set (st3 := emit (Dispatched m) (postMessage env m (tick st))).
  destruct (postMessage_frame env m (tick st)) as (Hheap & Hthis & Hcust & _).
  assert (Hh3 : heap (win st3) = heap (win st)) by exact Hheap.
  assert (Hl3 : listeners (this st3) = listeners (this st)) by (simpl; by rewrite Hthis).
  assert (Hrun : handleSyncMessage env m st3 =
                 Some (emits (Called <$> dispatchTargets m st) (updateSyncTime env st3))).
  { rewrite <- (dispatchTargets_ext m st st3 Hh3 Hl3).
    apply handleSyncMessage_quiet.
    - by apply (registry_ok_ext st).
    - by apply (enough_fuel_ext env st).
    - by rewrite (dispatchTargets_ext m st st3 Hh3 Hl3). }
  unfold broadcast. fold m. fold st3.
  replace (customHandlers (win st3)) with [c].
  - unfold dispatchTo. simpl. by rewrite Hrun.
  - unfold st3. simpl. rewrite Hcust. simpl. by rewrite Hch, Hcl.
Qed.

(** ** Stopping, and starting again *)

Lemma stop_when_started st :
  lifecycle_ok st →
  isStarted (this st) = true →
  this (stop st) =
    {| channel := None; listeners := ∅; refreshInterval := None;
       lastSyncTime := lastSyncTime (this st); storageListener := None;
       customEventListener := None; isStarted := false |}
  ∧ intervals (win (stop st)) = []
  ∧ channels (win (stop st)) = []
  ∧ storageHandlers (win (stop st)) = []
  ∧ customHandlers (win (stop st)) = []
  ∧ calls (stop st) = calls st.
Proof.
  unfold lifecycle_ok. intros Hlife Hs. rewrite Hs in Hlife.
  destruct Hlife as (Hsh & Hch & Hi & Hc & [s Hsl] & [c Hcl] & [i Hri]).
  unfold stop, destroy. rewrite Hs. simpl. rewrite Hri. simpl.
  destruct (channel (this st)) as [ch|] eqn:Hcn; simpl;
    rewrite Hsl; simpl; rewrite Hcl; simpl;
    rewrite ?Hsh, ?Hch, ?Hi, ?Hc, ?Hsl, ?Hcl, ?Hri, ?Hcn; simpl;
    rewrite ?remove_id_singleton; repeat split.
Qed.

Lemma start_when_stopped env st :
  lifecycle_ok st →
  isStarted (this st) = false →
  isStarted (this (start env st)) = true
  ∧ listeners (this (start env st)) = listeners (this st)
  ∧ heap (win (start env st)) = heap (win st)
  ∧ (∃ s c i, storageHandlers (win (start env st)) = [s]
              ∧ customHandlers (win (start env st)) = [c]
              ∧ intervals (win (start env st)) = [i])
  ∧ calls (start env st) = calls st.
Proof.
  unfold lifecycle_ok. intros Hlife Hs. rewrite Hs in Hlife.
  destruct Hlife as (Hsh & Hch & Hi & Hc & Hsl & Hcl & Hri & Hcn).
  unfold start. rewrite Hs.
  unfold startAutoRefresh, setupStorageListener, initializeBroadcastChannel, calls.
  destruct (bcDefined env), (bcThrows env); simpl;
    rewrite Hsh, Hch, Hi, Hsl, Hcl, Hri;
    rewrite ?omap_app; simpl; rewrite ?app_nil_r; split_and!;
    first [done | by eexists _, _, _].
Qed.

(** What [start()] does about the channel on a stopped transport. *)
Lemma start_channel env st :
  lifecycle_ok st →
  isStarted (this st) = false →
  if bcDefined env && negb (bcThrows env)
  then ∃ ch, channel (this (start env st)) = Some ch ∧ channels (win (start env st)) = [ch]
  else channel (this (start env st)) = None ∧ channels (win (start env st)) = [].
Proof.
  unfold lifecycle_ok. intros Hlife Hs. rewrite Hs in Hlife.
  destruct Hlife as (_ & _ & _ & Hc & _ & _ & _ & Hcn).
  unfold start. rewrite Hs.
  unfold startAutoRefresh, setupStorageListener, initializeBroadcastChannel.
  destruct (bcDefined env), (bcThrows env); simpl; rewrite ?Hc, ?Hcn; simpl; eauto.
Qed.

(** The first subscription of an empty registry. *)
Lemma subscribe_first key callback st :
  listeners (this st) = ∅ →
  listeners (this (subscribe key callback st)) = {[key := length (heap (win st))]}
  ∧ heap (win (subscribe key callback st)) = heap (win st) ++ [[Some callback]]
  ∧ isStarted (this (subscribe key callback st)) = isStarted (this st).
Proof.
  intros Hempty. unfold subscribe. rewrite Hempty, lookup_empty. simpl.
  rewrite lookup_insert_eq. simpl. split_and!; [done| |done].
  replace (length (heap (win st))) with (length (heap (win st)) + 0) at 1 by lia.
  by rewrite alter_app_r.
Qed.

(** C5.  On a started transport [stop()] clears the interval, closes the
    channel if there is one, removes both listeners from the window and
    empties the registry, and the transport is stopped.  A [start()] after
    it brings back everything a first [start()] sets up, with an empty
    registry: the two listeners and one interval, and the channel, opened
    again whenever [BroadcastChannel] is usable; a message arriving on the
    channel, a storage event, a [STORAGE_EVENT_KEY] event and the elapsed
    interval are each handled once.  The transport works: a callback
    subscribed after the restart is invoked by a [notifyUpdate] for its
    key, and nothing else is, and the message is posted on the channel and
    dispatched in the window.  On a stopped transport [stop()] changes
    nothing. *)
Theorem stop_releases_everything env st :
  reachable env st →
  (isStarted (this st) = true →
   this (stop st) =
     {| channel := None; listeners := ∅; refreshInterval := None;
        lastSyncTime := lastSyncTime (this st); storageListener := None;
        customEventListener := None; isStarted := false |}
   ∧ intervals (win (stop st)) = []
   ∧ channels (win (stop st)) = []
   ∧ storageHandlers (win (stop st)) = []
   ∧ customHandlers (win (stop st)) = []
   ∧ (∀ key, callbacksOf key (stop st) = [])
   ∧ isStarted (this (start env (stop st))) = true
   ∧ listeners (this (start env (stop st))) = ∅
   ∧ (∃ s c i, storageHandlers (win (start env (stop st))) = [s]
               ∧ customHandlers (win (start env (stop st))) = [c]
               ∧ intervals (win (start env (stop st))) = [i])
   ∧ (if bcDefined env && negb (bcThrows env)
      then ∃ ch, channel (this (start env (stop st))) = Some ch
                 ∧ channels (win (start env (stop st))) = [ch]
      else channel (this (start env (stop st))) = None
           ∧ channels (win (start env (stop st))) = [])
   ∧ (∀ m, step env (OpChannelMessage m) (start env (stop st))
           = if bcDefined env && negb (bcThrows env)
             then handleSyncMessage env m (start env (stop st))
             else Some (start env (stop st)))
   ∧ (∀ k, step env (OpStorageEvent k) (start env (stop st))
           = onStorage env k (start env (stop st)))
   ∧ (∀ detail, step env (OpCustomEvent detail) (start env (stop st))
                = onCustomEvent env detail (start env (stop st)))
   ∧ step env OpIntervalElapsed (start env (stop st))
     = broadcast env data_refresh None (start env (stop st))
   ∧ (∀ key callback, key ≠ "" → quiet env callback → 1 < fuel env →
        let st2 := subscribe key callback (start env (stop st)) in
        let m := {| type := storage_update; key := Some key;
                    timestamp := clock env (reads (win st2)) |} in
        ∃ st', notifyUpdate env key st2 = Some st'
               ∧ calls st' = calls st ++ [callback]
               ∧ trace (win st') =
                   trace (win st2)
                   ++ (if bcDefined env && negb (bcThrows env)
                       then [if postThrows env then Warn "Failed to broadcast message"
                             else Posted m]
                       else [])
                   ++ [Dispatched m; SyncTimeUpdate (clock env (S (reads (win st2))));
                       Called callback;
                       SyncTimeUpdate (clock env (S (S (reads (win st2)))))]))
  ∧ (isStarted (this st) = false → stop st = st).
Proof.
  intros Hreach. split.
  2: { intros Hs. unfold stop, destroy. by rewrite Hs. }
  intros Hs.
  pose proof (reachable_step env OpStop _ _ Hreach eq_refl) as Hreach1.
  pose proof (reachable_step env OpStart _ _ Hreach1 eq_refl) as Hreach2.
  destruct (reachable_ok env _ Hreach) as [_ Hlife].
  destruct (reachable_ok env _ Hreach1) as [_ Hlife1].
  destruct (stop_when_started st Hlife Hs) as (Hthis & Hi & Hc & Hsh & Hch & Hcalls).
  assert (Hs1 : isStarted (this (stop st)) = false) by (by rewrite Hthis).
  assert (Hl1 : listeners (this (stop st)) = ∅) by (by rewrite Hthis).
  destruct (start_when_stopped env (stop st) Hlife1 Hs1)
    as (Hs2 & Hl2 & Hh2 & (s & c & i & Hsh2 & Hch2 & Hi2) & Hcalls2).
  rewrite Hl1 in Hl2.
  pose proof (start_channel env (stop st) Hlife1 Hs1) as Hchannel.
  simpl in Hreach2.
  set (st1 := start env (stop st)) in *.
  split_and!; try done.
  - intros key. unfold callbacksOf. by rewrite Hl1, lookup_empty.
  - by exists s, c, i.
  - intros m. simpl. destruct (bcDefined env && negb (bcThrows env)).
    + destruct Hchannel as (ch & _ & ->). done.
    + destruct Hchannel as (_ & ->). done.
  - intros k. simpl. by rewrite Hsh2.
  - intros detail. simpl. by rewrite Hch2.
  - simpl. by rewrite Hi2.
  - intros key callback Hkey Hquiet Hfuel st2 m.
    pose proof (reachable_step env (OpSubscribe key callback) _ _ Hreach2 eq_refl) as Hreach3.
    simpl in Hreach3. fold st2 in Hreach3.
    destruct (reachable_ok env _ Hreach3) as [Hok3 Hlife3].
    destruct (subscribe_first key callback st1 Hl2) as (Hl3 & Hh3 & Hs3).
    fold st2 in Hl3, Hh3, Hs3.
    assert (Hkeycbs : callbacksOf key st2 = [callback]).
    { unfold callbacksOf. rewrite Hl3, lookup_singleton_eq, Hh3.
      rewrite lookup_app_r by lia. by rewrite Nat.sub_diag. }
    assert (Htargets : dispatchTargets m st2 = [callback]).
    { unfold dispatchTargets. simpl. rewrite decide_False by done.
      unfold notifyTargets. rewrite Hkeycbs. case_decide as Hstar; [done|].
      unfold callbacksOf. rewrite Hl3, lookup_singleton_ne by done. done. }
    assert (Hrun : notifyUpdate env key st2
                   = Some (updateSyncTime env
                             (emits (Called <$> [callback])
                                (updateSyncTime env
                                   (emit (Dispatched m) (postMessage env m (tick st2))))))).
    { rewrite <- Htargets. apply broadcast_quiet_state; [done|done|by rewrite Hs3| |].
      - unfold enough_fuel. rewrite Hl3, map_to_list_singleton.
        apply Forall_singleton. simpl. rewrite Hh3.
        rewrite lookup_app_r by lia. rewrite Nat.sub_diag. simpl. lia.
      - fold m. rewrite Htargets. by apply Forall_singleton. }
    eexists. split; [exact Hrun|].
    assert (Hcn : channel (this st2) = channel (this st1)).
    { unfold st2, subscribe. simpl. by repeat case_match. }
    split.
    + rewrite calls_updateSyncTime, calls_emits_Called, calls_updateSyncTime.
      assert (Hsub : calls st2 = calls st).
      { unfold st2. by rewrite calls_subscribe, Hcalls2, Hcalls. }
      rewrite <- Hsub. f_equal.
      clear Hrun Hreach3 Hok3 Hlife3 Hl3 Hh3 Hs3 Hkeycbs Htargets Hcn Hsub.
      clearbody st2. unfold calls at 1. cbn [emit win trace]. rewrite omap_app.
      cbn [omap list_omap]. rewrite app_nil_r. fold (calls (postMessage env m (tick st2))).
      by destruct (postMessage_frame env m (tick st2)) as (_ & _ & _ & ->).
    + clear Hrun Hreach3 Hok3 Hlife3 Hl3 Hh3 Hs3 Hkeycbs Htargets.
      clearbody st2. simpl. unfold postMessage. simpl. rewrite Hcn.
      destruct (bcDefined env && negb (bcThrows env)).
      * destruct Hchannel as (ch & -> & _).
        destruct (postThrows env); simpl; by rewrite <- !app_assoc.
      * destruct Hchannel as (-> & _). simpl. by rewrite <- !app_assoc.
Qed.

Lemma stop_releases_everything_witness :
  isStarted (this sharedCallbackState) = true
  ∧ callbacksOf "*" sharedCallbackState = [7]
  ∧ listeners (this (stop sharedCallbackState)) = ∅
  ∧ (∀ key, callbacksOf key (stop sharedCallbackState) = [])
  ∧ isStarted (this (start quietEnv (stop sharedCallbackState))) = true
  ∧ (∃ ch, channel (this (start quietEnv (stop sharedCallbackState))) = Some ch
           ∧ channels (win (start quietEnv (stop sharedCallbackState))) = [ch])
  ∧ ∃ st', notifyUpdate quietEnv "teams"
             (subscribe "teams" 9 (start quietEnv (stop sharedCallbackState))) = Some st'
           ∧ calls st' = calls sharedCallbackState ++ [9].
Proof.
  split; [reflexivity|]. split; [by vm_compute|].
  destruct (stop_releases_everything quietEnv sharedCallbackState
              sharedCallbackState_reachable) as [Hstarted _].
  destruct (Hstarted eq_refl)
    as (Hthis & _ & _ & _ & _ & Hnone & Hrestart & _ & _ & Hchannel & _ & _ & _ & _
        & Hworks).
  split; [by rewrite Hthis|]. split; [exact Hnone|]. split; [exact Hrestart|].
  split; [exact Hchannel|].
  destruct (Hworks "teams" 9) as (st' & Hrun & Hcalls & _);
    [done|reflexivity|simpl; lia|].
  exists st'. by split.
Defined.

(** ** The data-bound hook *)

Section HookFacts.

Import UseSyncedData.

Context {T E : Type}.

Implicit Types (h : Hook T E) (o : Outcome T E) (ev : Event T E).

Lemma doFetch_settle_effects e o h :
  effects (doFetch_settle e o h).1 = effects h
  ∧ pending (doFetch_settle e o h).1 = pending h.
Proof. unfold doFetch_settle. simpl. by repeat case_match. Qed.

Lemma doFetch_effects e thrown h : effects (doFetch e thrown h).1 = effects h.
Proof.
  unfold doFetch. destruct (negb (mounted e h)); [done|].
  destruct thrown as [error|]; cbn [fst].
  - rewrite (proj1 (doFetch_settle_effects _ _ _)). by repeat case_match.
  - simpl. by repeat case_match.
Qed.

Lemma settle_effects p o h : effects (settle p o h) = effects h.
Proof.
  unfold settle. case_match; [|done].
  by rewrite (proj1 (doFetch_settle_effects _ _ _)).
Qed.

(** The guard: a run that is not mounted writes nothing. *)
Lemma doFetch_settle_unmounted e o h :
  mounted e h = false → doFetch_settle e o h = (h, Normal).
Proof.
  intros Hm. unfold doFetch_settle. destruct o; by rewrite !Hm.
Qed.

Lemma doFetch_unmounted e thrown h : mounted e h = false → doFetch e thrown h = (h, false).
Proof. intros Hm. unfold doFetch. by rewrite Hm. Qed.

Lemma cleanup_unmounts e h : mounted e (cleanup e h) = false.
Proof.
  unfold mounted, cleanup. simpl. rewrite list_lookup_alter_eq.
  by destruct (effects h !! e).
Qed.

Lemma unmount_all h :
  only_current_mounted h → ∀ e, mounted e (unmount h) = false.
Proof.
  intros Hinv e. unfold unmount, current.
  destruct (length (effects h)) as [|n] eqn:Hlen.
  - unfold mounted. destruct (effects h) as [|? ?]; [by rewrite lookup_nil|done].
  - destruct (decide (e = n)) as [->|Hne]; [apply cleanup_unmounts|].
    unfold mounted, cleanup. simpl. rewrite list_lookup_alter_ne by done.
    destruct (effects h !! e) as [c|] eqn:Hc; [|done].
    destruct (isMounted c) eqn:Hm; [|done].
    specialize (Hinv _ _ Hc Hm). lia.
Qed.

Lemma runEffect_only_current keys thrown h :
  only_current_mounted h → only_current_mounted (runEffect keys thrown h).
Proof.
  intros Hinv. unfold runEffect, only_current_mounted.
  rewrite doFetch_effects. simpl.
  set (h1 := match current h with Some e => cleanup e h | None => h end).
  assert (Hall : ∀ i c, effects h1 !! i = Some c → isMounted c = false).
  { intros i c Hc. pose proof (unmount_all h Hinv i) as Hm.
    unfold unmount in Hm. fold h1 in Hm. unfold mounted in Hm. by rewrite Hc in Hm. }
  intros i c Hc Hm. rewrite length_app. simpl.
  apply lookup_app_Some in Hc as [Hc|[Hge Hc]].
  - specialize (Hall _ _ Hc). congruence.
  - apply list_lookup_singleton_Some in Hc as [Hi _]. lia.
Qed.

Lemma stepHook_only_current ev h :
  only_current_mounted h → only_current_mounted (stepHook ev h).
Proof.
  intros Hinv. destruct ev as [keys thrown|keys thrown|e thrown|p o]; simpl.
  - by apply runEffect_only_current.
  - by apply runEffect_only_current.
  - unfold only_current_mounted. by rewrite doFetch_effects.
  - unfold only_current_mounted. by rewrite settle_effects.
Qed.

Lemma reachableHook_only_current h : reachableHook h → only_current_mounted h.
Proof.
  intros [evs <-]. unfold runHook.
  induction evs as [|ev evs IH] using rev_ind.
  - intros [|i] c Hc; discriminate Hc.
  - rewrite foldl_app. simpl. by apply stepHook_only_current.
Qed.

(** Once every run is unmounted, callbacks and promises that arrive later
    change neither what the component shows nor the flags of the runs. *)
Lemma late_events_discarded evs h :
  (∀ e, mounted e h = false) →
  forallb afterUnmount evs = true →
  observable (runHook evs h) = observable h
  ∧ ∀ e, mounted e (runHook evs h) = false.
Proof.
  revert h. induction evs as [|ev evs IH]; intros h Hall Hevs; [done|].
  simpl in Hevs. apply andb_prop in Hevs as [Hev Hevs].
  assert (observable (stepHook ev h) = observable h
          ∧ ∀ e, mounted e (stepHook ev h) = false) as [Hobs Hall'].
  { destruct ev as [keys thrown|keys thrown|e thrown|p o]; try done; simpl.
    - by rewrite doFetch_unmounted.
    - unfold settle. destruct (pending h !! p) as [e|]; [|done].
      rewrite doFetch_settle_unmounted by apply Hall. done. }
  simpl. destruct (IH (stepHook ev h) Hall' Hevs) as [Hobs' Hall''].
  split; [by rewrite Hobs'|done].
Qed.

(** C8, as the code has it.  What a rejection does depends on the run of
    the effect that issued the fetch, not on the component being mounted.
    When that run is still mounted (it is then the current run: no
    [refetch()], no change of the watch keys or of the transport and no
    unmount has cleaned it up), the error is logged with [console.error],
    [loading] is set to false, [data] keeps the value it had, and [doFetch]
    completes normally: nothing is thrown to its caller.  The same holds
    when the fetcher throws before it returns a promise.  When the run has
    been cleaned up, the rejection is dropped: nothing is logged, and
    [loading] and [data] stay as they are. *)
Theorem doFetch_rejection_keeps_data (e : nat) (error : E) h :
  (mounted e h = true →
     doFetch_settle e (Rejected error) h = (setLoading false (consoleError error h), Normal)
     ∧ observable (doFetch_settle e (Rejected error) h).1
       = (dataState h, false, errors h ++ [error])
     ∧ (∀ p, pending h !! p = Some e →
          observable (settle p (Rejected error) h) = (dataState h, false, errors h ++ [error]))
     ∧ observable (doFetch e (Some error) h).1 = (dataState h, false, errors h ++ [error]))
  ∧ (mounted e h = false →
       doFetch_settle e (Rejected error) h = (h, Normal)
       ∧ (∀ p, pending h !! p = Some e →
            observable (settle p (Rejected error) h) = observable h)
       ∧ doFetch e (Some error) h = (h, false))
  ∧ (reachableHook h → mounted e h = true → current h = Some e).
Proof.
  split_and!.
  - intros Hm.
    assert (Hsettle : ∀ h', mounted e h' = true →
              doFetch_settle e (Rejected error) h'
              = (setLoading false (consoleError error h'), Normal)).
    { intros h' Hm'. unfold doFetch_settle.
      replace (mounted e (if mounted e h' then consoleError error h' else h')) with true
        by (by rewrite Hm'). by rewrite Hm'. }
    split_and!.
    + by apply Hsettle.
    + by rewrite Hsettle.
    + intros p Hp. unfold settle. rewrite Hp. by rewrite Hsettle.
    + unfold doFetch. rewrite Hm. cbn [negb fst].
      match goal with |- context [doFetch_settle e _ ?x] => set (h1 := x) end.
      assert (mounted e h1 = true ∧ dataState h1 = dataState h ∧ errors h1 = errors h)
        as (Hm1 & Hd1 & He1) by (unfold h1; by repeat case_match).
      rewrite Hsettle by done. unfold observable. simpl. by rewrite Hd1, He1.
  - intros Hm. split_and!.
    + by apply doFetch_settle_unmounted.
    + intros p Hp. unfold settle. rewrite Hp. by rewrite doFetch_settle_unmounted.
    + by apply doFetch_unmounted.
  - intros Hreach%reachableHook_only_current Hm. unfold mounted in Hm.
    destruct (effects h !! e) as [c|] eqn:Hc; [|done].
    specialize (Hreach _ _ Hc Hm). unfold current. by rewrite <- Hreach.
Qed.

(** C9.  A run of the effect whose cleanup has run writes nothing: a call
    of its [doFetch] returns at the first guard, and a fetch of it that
    settles, with a result or with a rejection, changes neither [data] nor
    [loading] and logs nothing.  Cleanup clears the flag of its run, and
    after the component is unmounted no later callback or settled promise
    changes what the hook holds. *)
Theorem late_results_are_discarded h :
  reachableHook h →
  (∀ e, mounted e h = false →
     (∀ o, doFetch_settle e o h = (h, Normal))
     ∧ (∀ thrown, doFetch e thrown h = (h, false))
     ∧ ∀ p o, pending h !! p = Some e → observable (settle p o h) = observable h)
  ∧ (∀ e, mounted e (cleanup e h) = false)
  ∧ (∀ e, mounted e (unmount h) = false)
  ∧ ∀ evs, forallb afterUnmount evs = true →
      observable (runHook evs (unmount h)) = observable (unmount h).
Proof.
  intros Hreach%reachableHook_only_current. split_and!.
  - intros e Hm. split_and!.
    + intros o. by apply doFetch_settle_unmounted.
    + intros thrown. by apply doFetch_unmounted.
    + intros p o Hp. unfold settle. rewrite Hp.
      by rewrite doFetch_settle_unmounted.
  - intros e. apply cleanup_unmounts.
  - by apply unmount_all.
  - intros evs Hevs. by apply late_events_discarded; [apply unmount_all|].
Qed.

End HookFacts.

Section HookExamples.

Import UseSyncedData.

Lemma doFetch_rejection_keeps_data_witness :
  mounted 0 inflightHook = true
  ∧ observable (settle 0 (Rejected "offline") inflightHook)
    = (None, false, ["offline"])
  ∧ mounted 0 refetchedHook = false
  ∧ observable (settle 0 (Rejected "offline") refetchedHook) = observable refetchedHook.
Proof.
  split; [reflexivity|].
  destruct (doFetch_rejection_keeps_data 0 "offline" inflightHook)
    as (Hcurrent & _ & _).
  destruct (Hcurrent eq_refl) as (_ & _ & Hsettle & _).
  split; [apply (Hsettle 0); reflexivity|].
  split; [reflexivity|].
  destruct (doFetch_rejection_keeps_data 0 "offline" refetchedHook)
    as (_ & Hstale & _).
  destruct (Hstale eq_refl) as (_ & Hsettle' & _).
  apply (Hsettle' 0). reflexivity.
Defined.

(** C8 as stated fails while the component is mounted: after a
    [refetch()] run 1 of the effect is mounted, and the first fetch, issued
    by run 0, is still in flight; when it rejects, nothing is logged and
    [loading] is not cleared. *)
Lemma stale_rejection_counterexample :
  current refetchedHook = Some 1
  ∧ mounted 1 refetchedHook = true
  ∧ pending refetchedHook = [0; 1]
  ∧ observable refetchedHook = (None, true, [])
  ∧ observable (settle 0 (Rejected "offline") refetchedHook) = (None, true, []).
Proof. vm_compute. done. Qed.

Lemma late_results_are_discarded_witness :
  pending (unmount inflightHook) = [0]
  ∧ observable (runHook [EvSettle 0 (Resolved 5); EvNotify 0 None]
                   (unmount inflightHook))
    = observable (unmount inflightHook).
Proof.
  split; [reflexivity|].
  assert (reachableHook inflightHook) as Hreach.
  { by exists [EvRun ["teams"] None]. }
  destruct (late_results_are_discarded inflightHook Hreach)
    as (_ & _ & _ & Hlate).
  apply Hlate. reflexivity.
Defined.

End HookExamples.

(** ** Scenarios of the design document *)

(** [subscribe('teamA', cb)]; [notifyUpdate('teamA')] invokes [cb] once;
    [notifyUpdate('teamB')] does not invoke it. *)
Example scenario_exact_key :
  calls <$> run quietEnv [OpStart; OpSubscribe "teamA" 1; OpNotifyUpdate "teamA"]
              (newSyncService quietEnv emptyWindow) = Some [1]
  ∧ calls <$> run quietEnv [OpStart; OpSubscribe "teamA" 1; OpNotifyUpdate "teamB"]
                (newSyncService quietEnv emptyWindow) = Some [].
Proof. vm_compute. done. Qed.

(** A wildcard subscriber is invoked after [notifyUpdate('anyKey')], after
    a [forceSync()] without key, and once per elapsed interval. *)
Example scenario_wildcard :
  calls <$> run quietEnv
              [OpStart; OpSubscribe "*" 1; OpNotifyUpdate "anyKey"; OpForceSync None;
               OpIntervalElapsed]
              (newSyncService quietEnv emptyWindow) = Some [1; 1; 1].
Proof. vm_compute. done. Qed.

(** After its handle was called a callback is not invoked any more. *)
Example scenario_revoked :
  calls <$> run quietEnv
              [OpStart; OpSubscribe "teamA" 1; OpRevoke "teamA" 1; OpNotifyUpdate "teamA"]
              (newSyncService quietEnv emptyWindow) = Some [].
Proof. vm_compute. done. Qed.

(** * Further properties of the code *)

(** ** What [subscribe] and the handle do to the callbacks of each key *)

Lemma filter_ne_absent (v : nat) (l : list nat) : v ∉ l → filter (λ x, x ≠ v) l = l.
Proof.
  induction l as [|x l IH]; [done|]. intros [Hx Hl]%not_elem_of_cons.
  rewrite filter_cons_True by done. by rewrite IH.
Qed.

Lemma filter_ne_added (v : nat) (l : list nat) :
  v ∉ l → filter (λ x, x ≠ v) (added v l) = l.
Proof.
  intros Hnin. unfold added. rewrite bool_decide_eq_false_2 by done.
  rewrite filter_app, filter_ne_absent by done.
  rewrite filter_cons_False, filter_nil by naive_solver. apply app_nil_r.
Qed.

Lemma elem_of_added (v x : nat) (l : list nat) : x ∈ added v l ↔ x = v ∨ x ∈ l.
Proof.
  unfold added. case_bool_decide as Hin.
  - split; [auto|]. intros [->|?]; done.
  - rewrite elem_of_app, list_elem_of_singleton. tauto.
Qed.

(** X1.  [subscribe(key, callback)] puts the callback into the set of that
    key, after the callbacks that are there already (and changes nothing
    when it is there already); the callbacks of every other key stay as
    they are. *)
Theorem subscribe_registers key callback st :
  registry_ok st →
  callback ∈ callbacksOf key (subscribe key callback st)
  ∧ callbacksOf key (subscribe key callback st)
    = (if decide (callback ∈ callbacksOf key st) then callbacksOf key st
       else callbacksOf key st ++ [callback])
  ∧ ∀ k, k ≠ key → callbacksOf k (subscribe key callback st) = callbacksOf k st.
Proof.
  intros Hok. split_and!.
  - rewrite callbacksOf_subscribe, decide_True by done.
    apply elem_of_added. by left.
  - rewrite callbacksOf_subscribe, decide_True by done. unfold added.
    by destruct (decide (callback ∈ callbacksOf key st));
      [rewrite bool_decide_eq_true_2|rewrite bool_decide_eq_false_2].
  - intros k Hk. by rewrite callbacksOf_subscribe, decide_False.
Qed.

Lemma subscribe_registers_witness :
  callbacksOf "teams" (subscribe "teams" 9 sharedCallbackState) = [7; 9]
  ∧ callbacksOf "*" (subscribe "teams" 9 sharedCallbackState) = [7].
Proof.
  destruct (subscribe_registers "teams" 9 sharedCallbackState
              (proj1 (reachable_ok quietEnv _ sharedCallbackState_reachable)))
    as (_ & Hkey & Hother).
  split.
  - rewrite Hkey. by vm_compute.
  - rewrite Hother by done. by vm_compute.
Defined.

(** X2.  The handle removes its callback from the set of its key and from
    no other set; the other callbacks of the key keep their order. *)
Theorem revoke_unregisters key callback st :
  registry_ok st →
  (callback ∉ callbacksOf key (revoke key callback st))
  ∧ callbacksOf key (revoke key callback st)
    = filter (λ x, x ≠ callback) (callbacksOf key st)
  ∧ ∀ k, k ≠ key → callbacksOf k (revoke key callback st) = callbacksOf k st.
Proof.
  intros Hok. split_and!.
  - rewrite callbacksOf_revoke, decide_True by done.
    rewrite list_elem_of_filter. intros [Hne _]. by apply Hne.
  - by rewrite callbacksOf_revoke, decide_True.
  - intros k Hk. by rewrite callbacksOf_revoke, decide_False.
Qed.

Lemma revoke_unregisters_witness :
  callbacksOf "teams" (revoke "teams" 7 sharedCallbackState) = []
  ∧ callbacksOf "*" (revoke "teams" 7 sharedCallbackState) = [7].
Proof.
  destruct (revoke_unregisters "teams" 7 sharedCallbackState
              (proj1 (reachable_ok quietEnv _ sharedCallbackState_reachable)))
    as (_ & Hkey & Hother).
  split.
  - rewrite Hkey. by vm_compute.
  - rewrite Hother by done. by vm_compute.
Defined.

(** X3.  Subscribing a callback and calling the handle brings the registry
    back: when the callback was not registered under the key, the listener
    map is the same map as before (a key that was created for the
    subscription is deleted again) and every key lists the same callbacks. *)
Theorem subscribe_revoke_round_trip key callback st :
  registry_ok st →
  callback ∉ callbacksOf key st →
  listeners (this (revoke key callback (subscribe key callback st))) = listeners (this st)
  ∧ ∀ k, callbacksOf k (revoke key callback (subscribe key callback st)) = callbacksOf k st.
Proof.
  intros Hok Hnew. pose proof (subscribe_registry_ok key callback st Hok) as Hok1.
  split.
  - destruct Hok as (Hne & _ & _). unfold callbacksOf in Hnew.
    unfold subscribe, revoke.
    destruct (listeners (this st) !! key) as [r|] eqn:Hk; simpl.
    + rewrite Hk. simpl. rewrite Hk. destruct (Hne _ _ Hk) as (d & Hd & Hsz).
      rewrite Hd in Hnew. rewrite !list_lookup_alter_eq, Hd. simpl.
      rewrite decide_False; [done|].
      unfold JsSet.size in *. fold (JsSet.values d) in Hsz.
      fold (JsSet.values (JsSet.delete callback (JsSet.add callback d))).
      rewrite values_delete, values_add. fold (added callback (JsSet.values d)).
      by rewrite filter_ne_added.
    + rewrite lookup_insert_eq. simpl. rewrite lookup_insert_eq.
      rewrite !list_lookup_alter_eq, lookup_app_r by lia.
      rewrite Nat.sub_diag. simpl. rewrite decide_True.
      * simpl. rewrite delete_insert_eq. by apply delete_id.
      * unfold JsSet.size, JsSet.delete, JsSet.add, JsSet.has. simpl.
        by rewrite decide_True.
  - intros k. rewrite callbacksOf_revoke by done.
    rewrite !callbacksOf_subscribe by done. case_decide as Hk; [|done].
    subst k. rewrite decide_True by done. by apply filter_ne_added.
Qed.

Lemma subscribe_revoke_round_trip_witness :
  listeners (this (revoke "scores" 9 (subscribe "scores" 9 sharedCallbackState)))
  = listeners (this sharedCallbackState).
Proof.
  apply (subscribe_revoke_round_trip "scores" 9 sharedCallbackState).
  - apply (reachable_ok quietEnv), sharedCallbackState_reachable.
  - vm_compute. by intros ?%elem_of_nil.
Defined.

Lemma add_add (v : nat) (d : JsSet.t) : JsSet.add v (JsSet.add v d) = JsSet.add v d.
Proof.
  unfold JsSet.add at 1. replace (JsSet.has v (JsSet.add v d)) with true; [done|].
  symmetry. unfold JsSet.has. apply bool_decide_eq_true_2.
  apply elem_of_values. rewrite values_add. case_bool_decide as Hin; [done|].
  apply elem_of_app. right. by apply list_elem_of_singleton.
Qed.

(** X4.  The registry holds one entry per key and callback: subscribing the
    same callback again under the same key changes nothing at all, so the
    two handles stand for the same entry and one call of either of them
    unsubscribes the callback. *)
Theorem subscribe_twice_is_once key callback st :
  registry_ok st →
  subscribe key callback (subscribe key callback st) = subscribe key callback st
  ∧ (callback ∉ callbacksOf key
                  (revoke key callback (subscribe key callback (subscribe key callback st)))).
Proof.
  intros Hok.
  assert (Hsame : subscribe key callback (subscribe key callback st)
                  = subscribe key callback st).
  { assert (∃ r, listeners (this (subscribe key callback st)) !! key = Some r) as [r Hr].
    { unfold subscribe. destruct (listeners (this st) !! key) as [r|] eqn:Hk; simpl.
      - rewrite Hk. simpl. eauto.
      - rewrite lookup_insert_eq. simpl. rewrite lookup_insert_eq. eauto. }
    assert (∃ h, heap (win (subscribe key callback st)) = alter (JsSet.add callback) r h)
      as [h Hh].
    { revert Hr. unfold subscribe.
      destruct (listeners (this st) !! key) as [r0|] eqn:Hk; simpl.
      - rewrite Hk. simpl. rewrite Hk. intros [= ->]. eauto.
      - rewrite lookup_insert_eq. simpl. rewrite lookup_insert_eq. intros [= <-]. eauto. }
    unfold subscribe at 1. rewrite Hr. simpl. rewrite Hr. rewrite Hh at 1.
    rewrite list_alter_alter_eq.
    rewrite (list_alter_ext _ (JsSet.add callback) _ h r);
      [|intros; apply add_add|done].
    rewrite <- Hh. by destruct (subscribe key callback st) as [[] ?]. }
  split; [done|]. rewrite Hsame.
  rewrite callbacksOf_revoke, decide_True by (by try apply subscribe_registry_ok).
  rewrite list_elem_of_filter. intros [Hne _]. by apply Hne.
Qed.

Lemma subscribe_twice_is_once_witness :
  callbacksOf "teams" (subscribe "teams" 7 (subscribe "teams" 7 sharedCallbackState)) = [7].
Proof.
  destruct (subscribe_twice_is_once "teams" 7 sharedCallbackState
              (proj1 (reachable_ok quietEnv _ sharedCallbackState_reachable)))
    as [-> _].
  by vm_compute.
Defined.

(** ** The subscriptions of a hook *)

Lemma subscribeAll_registry_ok keys e st :
  registry_ok st → registry_ok (subscribeAll keys e st).
Proof.
  unfold subscribeAll. revert st.
  induction keys as [|k keys IH]; intros st Hok; simpl; [done|].
  by apply IH, subscribe_registry_ok.
Qed.

Lemma unsubscribeAll_registry_ok keys e st :
  registry_ok st → registry_ok (unsubscribeAll keys e st).
Proof.
  unfold unsubscribeAll. revert st.
  induction keys as [|k keys IH]; intros st Hok; simpl; [done|].
  by apply IH, revoke_registry_ok.
Qed.

Lemma added_added (v : nat) (l : list nat) : added v (added v l) = added v l.
Proof.
  unfold added at 1. rewrite bool_decide_eq_true_2; [done|].
  apply elem_of_added. by left.
Qed.

Lemma callbacksOf_subscribeAll keys e st k :
  registry_ok st →
  callbacksOf k (subscribeAll keys e st) =
  if decide (k ∈ keys) then added e (callbacksOf k st) else callbacksOf k st.
Proof.
  unfold subscribeAll. revert st.
  induction keys as [|k0 keys IH]; intros st Hok; cbn [foldl].
  - case_decide as Hin; [by apply elem_of_nil in Hin|done].
  - rewrite IH by by apply subscribe_registry_ok.
    rewrite callbacksOf_subscribe by done.
    destruct (decide (k = k0)) as [->|Hne].
    + rewrite (decide_True (P := k0 ∈ k0 :: keys)) by apply list_elem_of_here.
      case_decide; [apply added_added|done].
    + destruct (decide (k ∈ keys)) as [Hin|Hnin].
      * by rewrite decide_True by by apply list_elem_of_further.
      * rewrite decide_False; [done|]. by intros [?|?]%elem_of_cons.
Qed.

Lemma filter_filter_ne (v : nat) (l : list nat) :
  filter (λ x, x ≠ v) (filter (λ x, x ≠ v) l) = filter (λ x, x ≠ v) l.
Proof.
  apply filter_ne_absent. rewrite list_elem_of_filter. intros [Hne _]. by apply Hne.
Qed.

Lemma callbacksOf_unsubscribeAll keys e st k :
  registry_ok st →
  callbacksOf k (unsubscribeAll keys e st) =
  if decide (k ∈ keys) then filter (λ x, x ≠ e) (callbacksOf k st) else callbacksOf k st.
Proof.
  unfold unsubscribeAll. revert st.
  induction keys as [|k0 keys IH]; intros st Hok; cbn [foldl].
  - case_decide as Hin; [by apply elem_of_nil in Hin|done].
  - rewrite IH by by apply revoke_registry_ok.
    rewrite callbacksOf_revoke by done.
    destruct (decide (k = k0)) as [->|Hne].
    + rewrite (decide_True (P := k0 ∈ k0 :: keys)) by apply list_elem_of_here.
      case_decide; [apply filter_filter_ne|done].
    + destruct (decide (k ∈ keys)) as [Hin|Hnin].
      * by rewrite decide_True by by apply list_elem_of_further.
      * rewrite decide_False; [done|]. by intros [?|?]%elem_of_cons.
Qed.

(** X5.  The effect of [useSyncedData] registers its [doFetch] under every
    watch key (a key that is listed twice gets one entry) and touches the
    callbacks of no other key. *)
Theorem effect_subscribes_watch_keys watchKeys doFetch st :
  registry_ok st →
  (∀ k, k ∈ watchKeys → doFetch ∈ callbacksOf k (subscribeAll watchKeys doFetch st))
  ∧ (∀ k, k ∈ watchKeys →
       callbacksOf k (subscribeAll watchKeys doFetch st)
       = if decide (doFetch ∈ callbacksOf k st) then callbacksOf k st
         else callbacksOf k st ++ [doFetch])
  ∧ (∀ k, k ∉ watchKeys →
       callbacksOf k (subscribeAll watchKeys doFetch st) = callbacksOf k st).
Proof.
  intros Hok. split_and!.
  - intros k Hk. rewrite callbacksOf_subscribeAll, decide_True by done.
    apply elem_of_added. by left.
  - intros k Hk. rewrite callbacksOf_subscribeAll, decide_True by done.
    unfold added.
    destruct (decide (doFetch ∈ callbacksOf k st));
      [by rewrite bool_decide_eq_true_2|by rewrite bool_decide_eq_false_2].
  - intros k Hk. by rewrite callbacksOf_subscribeAll, decide_False.
Qed.

Lemma effect_subscribes_watch_keys_witness :
  callbacksOf "teams" (subscribeAll ["teams"; "events"; "teams"] 3 sharedCallbackState)
  = [7; 3]
  ∧ callbacksOf "*" (subscribeAll ["teams"; "events"; "teams"] 3 sharedCallbackState)
    = [7].
Proof.
  destruct (effect_subscribes_watch_keys ["teams"; "events"; "teams"] 3 sharedCallbackState
              (proj1 (reachable_ok quietEnv _ sharedCallbackState_reachable)))
    as (_ & Hin & Hout).
  split.
  - rewrite Hin by apply list_elem_of_here. by vm_compute.
  - rewrite Hout; [by vm_compute|].
    intros Hin'. by repeat (apply elem_of_cons in Hin' as [?|Hin']; [done|]);
      apply elem_of_nil in Hin'.
Defined.

(** X6.  The cleanup of the effect leaves no subscription behind: whatever
    happened to the registry since the effect ran, after the cleanup
    [doFetch] is registered under none of the watch keys, and the other
    callbacks are registered as before.  When [doFetch] was new to the
    watch keys, running the effect and its cleanup leaves every key with
    the callbacks it had. *)
Theorem cleanup_unsubscribes_watch_keys watchKeys doFetch st :
  registry_ok st →
  (∀ k, k ∈ watchKeys → doFetch ∉ callbacksOf k (unsubscribeAll watchKeys doFetch st))
  ∧ (∀ k, callbacksOf k (unsubscribeAll watchKeys doFetch st)
          = if decide (k ∈ watchKeys)
            then filter (λ x, x ≠ doFetch) (callbacksOf k st)
            else callbacksOf k st)
  ∧ ((∀ k, k ∈ watchKeys → doFetch ∉ callbacksOf k st) →
     ∀ k, callbacksOf k (unsubscribeAll watchKeys doFetch (subscribeAll watchKeys doFetch st))
          = callbacksOf k st).
Proof.
  intros Hok. split_and!.
  - intros k Hk. rewrite callbacksOf_unsubscribeAll, decide_True by done.
    rewrite list_elem_of_filter. intros [Hne _]. by apply Hne.
  - intros k. by apply callbacksOf_unsubscribeAll.
  - intros Hnew k.
    rewrite callbacksOf_unsubscribeAll by by apply subscribeAll_registry_ok.
    rewrite callbacksOf_subscribeAll by done.
    case_decide as Hk; [|done]. by apply filter_ne_added, Hnew.
Qed.

Lemma cleanup_unsubscribes_watch_keys_witness :
  callbacksOf "teams"
    (unsubscribeAll ["teams"; "*"] 7 sharedCallbackState) = []
  ∧ callbacksOf "*"
      (unsubscribeAll ["teams"; "*"] 7 sharedCallbackState) = [].
Proof.
  destruct (cleanup_unsubscribes_watch_keys ["teams"; "*"] 7 sharedCallbackState
              (proj1 (reachable_ok quietEnv _ sharedCallbackState_reachable)))
    as (_ & Hview & _).
  split; rewrite Hview; by vm_compute.
Defined.








(** X8.  [start()] keeps the registry: callbacks that were subscribed while
    the transport was stopped are registered as before.  From then on a
    [notifyUpdate] for a key that is not empty reaches them: when the
    callbacks of the key and of the wildcard leave the registry alone, it
    invokes exactly them, those of the key first. *)
Theorem start_serves_earlier_subscriptions env st :
  reachable env st →
  isStarted (this st) = false →
  (∀ k, callbacksOf k (start env st) = callbacksOf k st)
  ∧ (∀ key, key ≠ "" →
       enough_fuel env st →
       Forall (quiet env) (notifyTargets key st) →
       ∃ st', notifyUpdate env key (start env st) = Some st'
              ∧ calls st' = calls st ++ notifyTargets key st).
Proof.
  intros Hreach Hs.
  pose proof (reachable_step env OpStart _ _ Hreach eq_refl) as Hreach1.
  destruct (reachable_ok env _ Hreach) as [Hok Hlife].
  destruct (reachable_ok env _ Hreach1) as [Hok1 Hlife1].
  destruct (start_when_stopped env st Hlife Hs) as (Hs1 & Hl1 & Hh1 & _ & Hcalls1).
  assert (Hcbs : ∀ k, callbacksOf k (start env st) = callbacksOf k st).
  { intros k. unfold callbacksOf. by rewrite Hl1, Hh1. }
  split; [done|]. intros key Hkey Hfuel Hq.
  assert (Htargets : dispatchTargets
                       {| type := storage_update; key := Some key;
                          timestamp := clock env (reads (win (start env st))) |}
                       (start env st)
                     = notifyTargets key st).
  { unfold dispatchTargets. simpl. rewrite decide_False by done.
    unfold notifyTargets. by rewrite !Hcbs. }
  destruct (broadcast_quiet env storage_update (Some key) (start env st))
    as (st' & Hrun & Hcalls); [done|done|done| | |].
  - by apply (enough_fuel_ext env st).
  - by rewrite Htargets.
  - exists st'. split; [done|]. by rewrite Hcalls, Htargets, Hcalls1.
Qed.

Lemma start_serves_earlier_subscriptions_witness :
  ∃ st', notifyUpdate quietEnv "teams" (start quietEnv stoppedState) = Some st'
         ∧ calls st' = calls stoppedState ++ notifyTargets "teams" stoppedState.
Proof.
  destruct (start_serves_earlier_subscriptions quietEnv stoppedState
              stoppedState_reachable eq_refl) as [_ Hnotify].
  apply (Hnotify "teams").
  - done.
  - unfold enough_fuel. vm_compute. repeat constructor.
  - vm_compute. repeat constructor.
Defined.

(** X9.  A stopped transport has left nothing behind in the window: an
    elapsed interval, a storage event, a message on the channel and a
    [STORAGE_EVENT_KEY] event all leave it exactly as it is. *)
Theorem stopped_transport_ignores_events env st :
  reachable env st →
  isStarted (this st) = false →
  step env OpIntervalElapsed st = Some st
  ∧ (∀ k, step env (OpStorageEvent k) st = Some st)
  ∧ (∀ m, step env (OpChannelMessage m) st = Some st)
  ∧ (∀ d, step env (OpCustomEvent d) st = Some st).
Proof.
  intros [_ Hlife]%reachable_ok Hs. unfold lifecycle_ok in Hlife.
  rewrite Hs in Hlife. destruct Hlife as (Hsh & Hch & Hi & Hc & Hsl & Hcl & Hri & Hcn).
  simpl. rewrite Hsh, Hch, Hi, Hc, Hsl, Hcl, Hri, Hcn. done.
Qed.

Lemma stopped_transport_ignores_events_witness :
  step quietEnv (OpStorageEvent (Some "teams")) (stop sharedCallbackState)
  = Some (stop sharedCallbackState).
Proof.
  apply (stopped_transport_ignores_events quietEnv (stop sharedCallbackState)).
  - apply (reachable_step _ OpStop _ _ sharedCallbackState_reachable eq_refl).
  - reflexivity.
Defined.

(** X10.  However often [start()] and [stop()] are called and whatever
    else happens, the window holds exactly what the object refers to: at
    most one channel, and on a started transport one interval and one
    listener of each kind, on a stopped one none of them. *)
Theorem window_holds_what_object_holds env st :
  reachable env st →
  storageHandlers (win st) = option_list (storageListener (this st))
  ∧ customHandlers (win st) = option_list (customEventListener (this st))
  ∧ intervals (win st) = option_list (refreshInterval (this st))
  ∧ channels (win st) = option_list (channel (this st))
  ∧ length (channels (win st)) ≤ 1
  ∧ length (intervals (win st)) = (if isStarted (this st) then 1 else 0)
  ∧ length (storageHandlers (win st)) = (if isStarted (this st) then 1 else 0)
  ∧ length (customHandlers (win st)) = (if isStarted (this st) then 1 else 0).
Proof.
  intros [_ Hlife]%reachable_ok. unfold lifecycle_ok in Hlife.
  destruct Hlife as (Hsh & Hch & Hi & Hc & Hrest).
  rewrite Hsh, Hch, Hi, Hc. split_and!; try done.
  - destruct (channel (this st)); simpl; lia.
  - destruct (isStarted (this st)).
    + by destruct Hrest as (_ & _ & [i ->]).
    + by destruct Hrest as (_ & _ & -> & _).
  - destruct (isStarted (this st)).
    + by destruct Hrest as ([s ->] & _).
    + by destruct Hrest as (-> & _).
  - destruct (isStarted (this st)).
    + by destruct Hrest as (_ & [c ->] & _).
    + by destruct Hrest as (_ & -> & _).
Qed.

Lemma window_holds_what_object_holds_witness :
  length (intervals
            (win (default startedState
                    (run quietEnv [OpStart; OpStop; OpStart; OpStart] startedState)))) = 1.
Proof.
  assert (reachable quietEnv
            (default startedState
               (run quietEnv [OpStart; OpStop; OpStart; OpStart] startedState))) as Hreach.
  { simpl.
    apply (reachable_step _ OpStart _ _
             (reachable_step _ OpStart _ _
                (reachable_step _ OpStop _ _
                   (reachable_step _ OpStart _ _ startedState_reachable eq_refl)
                   eq_refl) eq_refl) eq_refl). }
  destruct (window_holds_what_object_holds quietEnv _ Hreach)
    as (_ & _ & _ & _ & _ & -> & _).
  reflexivity.
Defined.

(** ** The lanes of a started transport *)

Lemma started_fields st :
  lifecycle_ok st →
  isStarted (this st) = true →
  ∃ s c i, storageHandlers (win st) = [s] ∧ customHandlers (win st) = [c]
           ∧ intervals (win st) = [i].
Proof.
  unfold lifecycle_ok. intros (Hsh & Hch & Hi & _ & Hrest) Hs. rewrite Hs in Hrest.
  destruct Hrest as ([s Hsl] & [c Hcl] & [i Hri]).
  exists s, c, i. by rewrite Hsh, Hch, Hi, Hsl, Hcl, Hri.
Qed.

Lemma updateSyncTime_fields env s :
  trace (win (updateSyncTime env s))
  = trace (win s) ++ [SyncTimeUpdate (clock env (reads (win s)))]
  ∧ reads (win (updateSyncTime env s)) = S (reads (win s))
  ∧ lastSyncTime (this (updateSyncTime env s)) = clock env (reads (win s)).
Proof. done. Qed.




(** X12.  [start()] on a stopped transport with and without a usable
    [BroadcastChannel].  When the constructor is missing, or throws, the
    transport is started all the same, without a channel, with both window
    listeners and the interval; a constructor that throws is reported by
    one warning.  Otherwise one channel is opened. *)
Theorem start_with_and_without_channel env st :
  reachable env st →
  isStarted (this st) = false →
  isStarted (this (start env st)) = true
  ∧ (∃ s c i, storageHandlers (win (start env st)) = [s]
              ∧ customHandlers (win (start env st)) = [c]
              ∧ intervals (win (start env st)) = [i])
  ∧ (if bcDefined env && negb (bcThrows env)
     then ∃ ch, channel (this (start env st)) = Some ch
                ∧ channels (win (start env st)) = [ch]
                ∧ trace (win (start env st)) = trace (win st)
     else channel (this (start env st)) = None
          ∧ channels (win (start env st)) = []
          ∧ trace (win (start env st))
            = trace (win st)
              ++ (if bcDefined env
                  then [Warn "BroadcastChannel not available, falling back to storage events only"]
                  else [])).
Proof.
  intros [_ Hlife]%reachable_ok Hs.
  destruct (start_when_stopped env st Hlife Hs) as (Hs1 & _ & _ & Hinst & _).
  split; [done|]. split; [done|].
  unfold lifecycle_ok in Hlife. rewrite Hs in Hlife.
  destruct Hlife as (_ & _ & _ & Hc & _ & _ & _ & Hcn).
  unfold start. rewrite Hs.
  unfold startAutoRefresh, setupStorageListener, initializeBroadcastChannel.
  destruct (bcDefined env), (bcThrows env); simpl; rewrite ?Hc, ?Hcn; simpl;
    rewrite ?app_nil_r; eauto.
Qed.

Lemma start_with_and_without_channel_witness :
  isStarted (this (start quietEnv stoppedState)) = true
  ∧ ∃ ch, channel (this (start quietEnv stoppedState)) = Some ch
          ∧ channels (win (start quietEnv stoppedState)) = [ch]
          ∧ trace (win (start quietEnv stoppedState)) = trace (win stoppedState).
Proof.
  destruct (start_with_and_without_channel quietEnv stoppedState
              stoppedState_reachable eq_refl) as (Hs & _ & Hch).
  split; [exact Hs|exact Hch].
Defined.

(** X13.  The two lanes that carry only a key, on a started transport: a
    [storage] event, and a [STORAGE_EVENT_KEY] event whose detail has a
    key and no type.  Both do the same.  Without a key, or with an empty
    one, nothing at all happens.  With a non-empty key, when the callbacks
    of the key and of the wildcard leave the registry alone, exactly these
    callbacks are invoked first, and the last-sync time is set and
    signalled afterwards, once. *)
Theorem key_only_lanes env k st :
  reachable env st →
  isStarted (this st) = true →
  (truthy k = None →
     step env (OpStorageEvent k) st = Some st
     ∧ step env (OpCustomEvent (DetailKey k)) st = Some st)
  ∧ (∀ key, truthy k = Some key →
       enough_fuel env st →
       Forall (quiet env) (notifyTargets key st) →
       ∃ st', step env (OpStorageEvent k) st = Some st'
              ∧ step env (OpCustomEvent (DetailKey k)) st = Some st'
              ∧ trace (win st') =
                  trace (win st) ++ (Called <$> notifyTargets key st)
                  ++ [SyncTimeUpdate (clock env (reads (win st)))]
              ∧ getLastSyncTime st' = clock env (reads (win st))).
Proof.
  intros [Hok Hlife]%reachable_ok Hs.
  destruct (started_fields st Hlife Hs) as (s & c & i & Hsh & Hch & _).
  split.
  - intros Hk. simpl. rewrite Hsh, Hch. unfold dispatchTo, onStorage. simpl.
    by rewrite Hk.
  - intros key Hk Hfuel Hq.
    exists (updateSyncTime env (emits (Called <$> notifyTargets key st) st)).
    split_and!.
    + simpl. rewrite Hsh. unfold dispatchTo, onStorage. simpl. rewrite Hk.
      by rewrite notifyListeners_quiet.
    + simpl. rewrite Hch. unfold dispatchTo. simpl. rewrite Hk.
      by rewrite notifyListeners_quiet.
    + simpl. by rewrite <- app_assoc.
    + done.
Qed.

Lemma key_only_lanes_witness :
  ∃ st', step quietEnv (OpStorageEvent (Some "teams")) sharedCallbackState = Some st'
         ∧ step quietEnv (OpCustomEvent (DetailKey (Some "teams"))) sharedCallbackState
           = Some st'
         ∧ trace (win st') =
             trace (win sharedCallbackState)
             ++ (Called <$> notifyTargets "teams" sharedCallbackState)
             ++ [SyncTimeUpdate (clock quietEnv (reads (win sharedCallbackState)))]
         ∧ getLastSyncTime st' = clock quietEnv (reads (win sharedCallbackState)).
Proof.
  destruct (key_only_lanes quietEnv (Some "teams") sharedCallbackState
              sharedCallbackState_reachable eq_refl) as [_ Hkey].
  apply (Hkey "teams"); [reflexivity| |].
  - unfold enough_fuel. vm_compute. repeat constructor.
  - vm_compute. repeat constructor.
Defined.

(** ** The time signal and the last-sync time *)

Lemma grows_refl st : grows st st.
Proof. exists []. by rewrite app_nil_r. Qed.

Lemma grows_trans a b c : grows a b → grows b c → grows a c.
Proof.
  intros (l1 & Ht1 & Hs1) (l2 & Ht2 & Hs2). exists (l1 ++ l2). split.
  - by rewrite Ht2, Ht1, app_assoc.
  - rewrite Hs2, Hs1. unfold syncTimes. rewrite omap_app, last_app.
    by destruct (last (omap _ l2)).
Qed.

(** A step that adds no time signal and leaves the last-sync time alone. *)
Lemma grows_silent a b l :
  trace (win b) = trace (win a) ++ l →
  syncTimes l = [] →
  lastSyncTime (this b) = lastSyncTime (this a) →
  grows a b.
Proof. intros Ht Hl Hs. exists l. by rewrite Hl, Hs. Qed.

Lemma grows_subscribe k c st : grows st (subscribe k c st).
Proof.
  apply (grows_silent _ _ []); [|done|apply subscribe_time].
  by rewrite subscribe_trace, app_nil_r.
Qed.

Lemma grows_revoke k c st : grows st (revoke k c st).
Proof.
  apply (grows_silent _ _ []); [|done|apply revoke_time].
  by rewrite revoke_trace, app_nil_r.
Qed.

Lemma grows_invoke env c st : grows st (invoke env c st).
Proof.
  unfold invoke. apply (grows_trans _ (emit (Called c) st)).
  - by apply (grows_silent _ _ [Called c]).
  - generalize (emit (Called c) st). induction (body env c) as [|a l IH]; intros s.
    + apply grows_refl.
    + simpl. eapply grows_trans; [|apply IH].
      destruct a; [apply grows_subscribe|apply grows_revoke].
Qed.

Lemma grows_updateSyncTime env st : grows st (updateSyncTime env st).
Proof. by exists [SyncTimeUpdate (clock env (reads (win st)))]. Qed.

Lemma grows_onCustomEvent env d s s' : onCustomEvent env d s = Some s' → grows s s'.
Proof.
  apply (lift_onCustomEvent env grows);
    auto using grows_refl, grows_invoke, grows_updateSyncTime.
  apply grows_trans.
Qed.

Lemma grows_emit e st : syncTimes [e] = [] → grows st (emit e st).
Proof. intros He. by apply (grows_silent _ _ [e]). Qed.

Lemma grows_tick st : grows st (tick st).
Proof. apply (grows_silent _ _ []); [|done..]. simpl. by rewrite app_nil_r. Qed.

Lemma grows_broadcast env ty k st st' : broadcast env ty k st = Some st' → grows st st'.
Proof.
  unfold broadcast. intros (st4 & H4 & [= <-])%bind_Some.
  apply (lift_dispatchTo grows) in H4;
    [|apply grows_refl|apply grows_trans|intros s s'; apply grows_onCustomEvent].
  eapply grows_trans; [|apply grows_updateSyncTime].
  eapply grows_trans; [|exact H4].
  eapply grows_trans; [|by apply grows_emit].
  eapply grows_trans; [apply grows_tick|].
  unfold postMessage. destruct (channel (this (tick st))); [|apply grows_refl].
  destruct (postThrows env); by apply grows_emit.
Qed.

Lemma grows_start env st : grows st (start env st).
Proof.
  unfold start, startAutoRefresh, setupStorageListener, initializeBroadcastChannel.
  destruct (isStarted (this st)); [by apply grows_emit|].
  destruct (bcDefined env); [destruct (bcThrows env)|].
  - by apply (grows_silent _ _
                [Warn "BroadcastChannel not available, falling back to storage events only"]).
  - apply (grows_silent _ _ []); [|done..]. simpl. by rewrite app_nil_r.
  - apply (grows_silent _ _ []); [|done..]. simpl. by rewrite app_nil_r.
Qed.

Lemma grows_stop st : grows st (stop st).
Proof.
  apply (grows_silent _ _ []); [|done|apply stop_time].
  rewrite app_nil_r. unfold stop, destroy. by repeat case_match.
Qed.

Lemma grows_step env op st st' : step env op st = Some st' → grows st st'.
Proof.
  assert (Hhandle : ∀ m s s', handleSyncMessage env m s = Some s' → grows s s').
  { intros m s s'. apply (lift_handleSyncMessage env grows);
      auto using grows_refl, grows_invoke, grows_updateSyncTime. apply grows_trans. }
  assert (Hstorage : ∀ k s s', onStorage env k s = Some s' → grows s s').
  { intros k s s'. apply (lift_onStorage env grows);
      auto using grows_refl, grows_invoke, grows_updateSyncTime. apply grows_trans. }
  destruct op; simpl.
  - intros [= <-]. apply grows_start.
  - intros [= <-]. apply grows_stop.
  - intros [= <-]. apply grows_subscribe.
  - intros [= <-]. apply grows_revoke.
  - apply grows_broadcast.
  - apply grows_broadcast.
  - apply (lift_dispatchTo grows); [apply grows_refl|apply grows_trans|].
    intros s s'. apply grows_broadcast.
  - apply (lift_dispatchTo grows); [apply grows_refl|apply grows_trans|].
    intros s s'. apply Hstorage.
  - apply (lift_dispatchTo grows); [apply grows_refl|apply grows_trans|].
    intros s s'. apply Hhandle.
  - apply (lift_dispatchTo grows); [apply grows_refl|apply grows_trans|].
    intros s s'. apply grows_onCustomEvent.
Qed.

Lemma grows_since a b :
  grows a b →
  trace (win b) = trace (win a) ++ since a b
  ∧ lastSyncTime (this b)
    = default (lastSyncTime (this a)) (last (syncTimes (since a b))).
Proof.
  intros (l & Ht & Hs). unfold since. by rewrite Ht, drop_app_length.
Qed.

(** X14.  Along every run the trace of effects only grows, and
    [getLastSyncTime()] returns the detail of the last time signal the run
    has emitted; a run that emits no time signal leaves it unchanged.  So
    whoever listens to the signal holds the value of the transport. *)
Theorem last_signal_is_last_sync_time env ops st st' :
  run env ops st = Some st' →
  trace (win st') = trace (win st) ++ since st st'
  ∧ getLastSyncTime st'
    = default (getLastSyncTime st) (last (syncTimes (since st st'))).
Proof.
  intros Hrun. apply grows_since. revert st Hrun.
  induction ops as [|op ops IH]; intros st; simpl.
  - intros [= <-]. apply grows_refl.
  - intros (st1 & H1 & H2)%bind_Some.
    eapply grows_trans; [by eapply grows_step|by apply IH].
Qed.

Lemma last_signal_is_last_sync_time_witness :
  getLastSyncTime
    (default startedState (run quietEnv [OpNotifyUpdate "teams"; OpStop] startedState))
  = default (getLastSyncTime startedState)
      (last (syncTimes
               (since startedState
                  (default startedState
                     (run quietEnv [OpNotifyUpdate "teams"; OpStop] startedState))))).
Proof.
  apply (last_signal_is_last_sync_time quietEnv [OpNotifyUpdate "teams"; OpStop]).
  by vm_compute.
Defined.

(** ** The provider *)

Section ProviderFacts.

Import SyncContext.

Lemma hear_fields l p :
  listening p = true →
  SyncContext.lastSyncTime (hear l p)
  = default (SyncContext.lastSyncTime p) (last (syncTimes l))
  ∧ isSyncing (hear l p) = (if syncTimes l is [] then isSyncing p else true)
  ∧ timeouts (hear l p) = timeouts p + length (syncTimes l)
  ∧ listening (hear l p) = true.
Proof.
  intros Hl. unfold hear. rewrite Hl. revert p Hl.
  induction (syncTimes l) as [|t ts IH]; intros p Hl; simpl.
  - split_and!; [done|done|lia|done].
  - destruct (IH (handleSyncTimeUpdate t p) Hl) as (-> & -> & -> & ->). simpl.
    split_and!; [|by destruct ts|lia|done].
    rewrite (last_cons t ts). by destruct (last ts).
Qed.

Lemma broadcast_signals env ty k st st' :
  broadcast env ty k st = Some st' → syncTimes (since st st') ≠ [].
Proof.
  intros Hrun. pose proof Hrun as Hgrow%grows_broadcast. revert Hrun.
  unfold broadcast. intros (st4 & H4 & [= <-])%bind_Some.
  assert (grows st st4) as (l & Ht & _).
  { apply (lift_dispatchTo grows) in H4;
      [|apply grows_refl|apply grows_trans|intros s s'; apply grows_onCustomEvent].
    eapply grows_trans; [|exact H4].
    eapply grows_trans; [|by apply grows_emit].
    eapply grows_trans; [apply grows_tick|].
    unfold postMessage. destruct (channel (this (tick st))); [|apply grows_refl].
    destruct (postThrows env); by apply grows_emit. }
  unfold since.
  destruct (updateSyncTime_fields env st4) as (-> & _ & _).
  rewrite Ht, <- app_assoc, drop_app_length.
  unfold syncTimes. rewrite omap_app. simpl. by destruct (omap _ l).
Qed.

(** X15.  While the provider is mounted, its [lastSyncTime] follows the
    transport: once the two agree they agree after every further operation
    of the transport, and after a [forceSync()] of the context they agree
    in any case and [isSyncing] is set. *)
Theorem provider_follows_transport env sys :
  listening (provider sys) = true →
  (∀ op sys', heard env op sys = Some sys' →
     SyncContext.lastSyncTime (provider sys) = getLastSyncTime (transport sys) →
     SyncContext.lastSyncTime (provider sys') = getLastSyncTime (transport sys'))
  ∧ (∀ sys', stepSystem env ForceSync sys = Some sys' →
       SyncContext.lastSyncTime (provider sys') = getLastSyncTime (transport sys')
       ∧ isSyncing (provider sys') = true
       ∧ timeouts (provider sys') > timeouts (provider sys)).
Proof.
  intros Hl.
  assert (Hheard : ∀ op sys', heard env op sys = Some sys' →
            ∃ st', step env op (transport sys) = Some st'
                   ∧ transport sys' = st'
                   ∧ provider sys' = hear (since (transport sys) st') (provider sys)
                   ∧ getLastSyncTime st'
                     = default (getLastSyncTime (transport sys))
                         (last (syncTimes (since (transport sys) st')))).
  { intros op sys'. unfold heard. intros (st' & Hstep & [= <-])%bind_Some.
    exists st'. split_and!; try done.
    by apply grows_since, (grows_step env op). }
  split.
  - intros op sys' (st' & _ & -> & -> & ->)%Hheard Hsync.
    destruct (hear_fields (since (transport sys) st') (provider sys) Hl) as (-> & _).
    by rewrite Hsync.
  - intros sys' Hstep. simpl in Hstep.
    pose proof Hstep as (st' & Hrun & -> & -> & ->)%Hheard.
    apply broadcast_signals in Hrun.
    destruct (hear_fields (since (transport sys) st') (provider sys) Hl)
      as (-> & -> & -> & _).
    destruct (syncTimes (since (transport sys) st')) as [|t ts] eqn:Hsig; [done|].
    split_and!; [|done|simpl; lia].
    by destruct (last (t :: ts)) eqn:Hlast; [|apply last_None in Hlast].
Qed.

Lemma provider_follows_transport_witness :
  let sys := {| transport := startedState;
                provider := set_listening true (SyncContext.initial 0) |} in
  let sys' := default sys (stepSystem quietEnv ForceSync sys) in
  SyncContext.lastSyncTime (provider sys') = getLastSyncTime (transport sys')
  ∧ isSyncing (provider sys') = true
  ∧ timeouts (provider sys') > timeouts (provider sys).
Proof.
  intros sys sys'.
  destruct (provider_follows_transport quietEnv sys eq_refl) as [_ Hforce].
  apply (Hforce sys'). by vm_compute.
Defined.

Lemma onTimeout_off q : isSyncing q = false → isSyncing (onTimeout q) = false.
Proof. intros Hq. unfold onTimeout. by destruct (timeouts q). Qed.

Lemma onTimeout_all p :
  (isSyncing p = true → 0 < timeouts p) →
  isSyncing (Nat.iter (timeouts p) onTimeout p) = false.
Proof.
  intros Hinv. destruct (timeouts p) as [|n] eqn:Hn.
  - simpl. destruct (isSyncing p); [|done]. specialize (Hinv eq_refl). lia.
  - assert (∀ m q, isSyncing q = false → isSyncing (Nat.iter m onTimeout q) = false) as Hoff.
    { induction m as [|m IH]; intros q Hq; [done|]. simpl.
      by apply onTimeout_off, IH. }
    rewrite Nat.iter_succ_r. apply Hoff. unfold onTimeout. by rewrite Hn.
Qed.

Lemma runSystem_isSyncing env evs sys sys' :
  runSystem env evs sys = Some sys' →
  (isSyncing (provider sys) = true → 0 < timeouts (provider sys)) →
  isSyncing (provider sys') = true → 0 < timeouts (provider sys').
Proof.
  revert sys. induction evs as [|ev evs IH]; intros sys; simpl.
  - by intros [= <-].
  - intros (sys1 & Hstep & Hrun)%bind_Some H0. apply (IH sys1); [done|].
    assert (∀ op, heard env op sys = Some sys1 →
              isSyncing (provider sys1) = true → 0 < timeouts (provider sys1)) as Hh.
    { intros op. unfold heard. intros (st' & _ & [= <-])%bind_Some. simpl.
      unfold hear. destruct (listening (provider sys)); [|done].
      generalize (syncTimes (since (transport sys) st')). intros ts.
      revert H0. generalize (provider sys).
      induction ts as [|t ts IHts]; intros p Hp; simpl; [done|].
      apply IHts. simpl. lia. }
    destruct ev; simpl in Hstep; try (by eapply Hh);
      injection Hstep as <-; simpl; try done.
    unfold onTimeout. destruct (timeouts (provider sys)) eqn:Hn; simpl;
      intros Hon; [specialize (H0 Hon); lia|discriminate Hon].
Qed.

(** X16.  The busy flag of the provider cannot stay on: in every state
    the provider reaches, [isSyncing] is set only while a timeout that
    clears it is still pending, and once the pending timeouts have run it
    is cleared. *)
Theorem isSyncing_is_cleared env evs st now sys' :
  runSystem env evs {| transport := st; provider := SyncContext.initial now |} = Some sys' →
  (isSyncing (provider sys') = true → 0 < timeouts (provider sys'))
  ∧ isSyncing (Nat.iter (timeouts (provider sys')) onTimeout (provider sys')) = false.
Proof.
  intros Hrun.
  assert (isSyncing (provider sys') = true → 0 < timeouts (provider sys')) as Hinv.
  { apply (runSystem_isSyncing env evs _ _ Hrun). intros Hon. discriminate Hon. }
  split; [done|]. by apply onTimeout_all.
Qed.

Lemma isSyncing_is_cleared_witness :
  isSyncing
    (Nat.iter
       (timeouts
          (provider
             (default {| transport := startedState; provider := SyncContext.initial 0 |}
                (runSystem quietEnv [Mount; ForceSync; Timeout]
                   {| transport := newSyncService quietEnv emptyWindow;
                      provider := SyncContext.initial 0 |}))))
       onTimeout
       (provider
          (default {| transport := startedState; provider := SyncContext.initial 0 |}
             (runSystem quietEnv [Mount; ForceSync; Timeout]
                {| transport := newSyncService quietEnv emptyWindow;
                   provider := SyncContext.initial 0 |})))) = false.
Proof.
  apply (isSyncing_is_cleared quietEnv [Mount; ForceSync; Timeout]
           (newSyncService quietEnv emptyWindow) 0).
  by vm_compute.
Defined.

End ProviderFacts.

Section FacadeFacts.

Import SyncContext.

(** X17.  What the context offers as [forceSync] is a force-sync without
    key, and what the interval broadcasts is a data-refresh: on a started
    transport whose wildcard callbacks leave the registry alone, both
    invoke the callbacks registered under the wildcard, in order, and no
    others.  A callback that is registered under named keys only is not
    reached by the button of the indicator nor by the periodic refresh. *)
Theorem keyless_sync_reaches_wildcard_only env st :
  reachable env st →
  isStarted (this st) = true →
  enough_fuel env st →
  Forall (quiet env) (callbacksOf "*" st) →
  (∀ p, ∃ sys', stepSystem env ForceSync {| transport := st; provider := p |} = Some sys'
                ∧ calls (transport sys') = calls st ++ callbacksOf "*" st)
  ∧ (∃ st', step env OpIntervalElapsed st = Some st'
            ∧ calls st' = calls st ++ callbacksOf "*" st).
Proof.
  intros Hreach Hs Hfuel Hq. destruct (reachable_ok env st Hreach) as [Hok Hlife].
  split.
  - intros p.
    destruct (broadcast_quiet env force_sync None st Hok Hlife Hs Hfuel Hq)
      as (st' & Hrun & Hcalls).
    eexists. split.
    + simpl. unfold heard. simpl. unfold forceSync. by rewrite Hrun.
    + done.
  - destruct (broadcast_quiet env data_refresh None st Hok Hlife Hs Hfuel Hq)
      as (st' & Hrun & Hcalls).
    exists st'. split; [|done].
    destruct (started_fields st Hlife Hs) as (s & c & i & _ & _ & Hi).
    simpl. rewrite Hi. unfold dispatchTo, onInterval. simpl. by rewrite Hrun.
Qed.

Lemma keyless_sync_reaches_wildcard_only_witness :
  ∃ st', step quietEnv OpIntervalElapsed (subscribe "teams" 5 sharedCallbackState) = Some st'
         ∧ calls st' = calls (subscribe "teams" 5 sharedCallbackState)
                       ++ callbacksOf "*" (subscribe "teams" 5 sharedCallbackState).
Proof.
  apply (keyless_sync_reaches_wildcard_only quietEnv (subscribe "teams" 5 sharedCallbackState)).
  - apply (reachable_step _ (OpSubscribe "teams" 5) _ _ sharedCallbackState_reachable eq_refl).
  - reflexivity.
  - unfold enough_fuel. vm_compute. repeat constructor.
  - vm_compute. repeat constructor.
Defined.

End FacadeFacts.

(** ** The indicator *)

Section IndicatorFacts.

Import SyncIndicator.

Local Open Scope Z_scope.

(** X18.  What [getTimeAgo] shows, for a time difference in whole
    milliseconds: "just now" exactly below five seconds (also for a
    timestamp that lies in the future); otherwise the whole seconds, from 5
    to 59; otherwise the whole minutes, from 1 to 59; otherwise the whole
    hours, from 1 on, without an upper bound. *)
Theorem timeAgo_shows_whole_units (now timestamp : Z) :
  getTimeAgo now timestamp = render (timeAgo now timestamp)
  ∧ match timeAgo now timestamp with
    | JustNow => now - timestamp < 5000
    | SecondsAgo n =>
        5 ≤ n < 60 ∧ 1000 * n ≤ now - timestamp < 1000 * (n + 1)
    | MinutesAgo n =>
        1 ≤ n < 60 ∧ 60000 * n ≤ now - timestamp < 60000 * (n + 1)
    | HoursAgo n =>
        1 ≤ n ∧ 3600000 * n ≤ now - timestamp < 3600000 * (n + 1)
    end.
Proof.
  split; [done|]. unfold timeAgo.
  set (x := now - timestamp). set (s := x `div` 1000).
  assert (1000 * s ≤ x < 1000 * (s + 1)) as Hs.
  { unfold s. Z.to_euclidean_division_equations. lia. }
  destruct (Z.ltb_spec s 5); [lia|].
  destruct (Z.ltb_spec s 60); [lia|].
  destruct (Z.ltb_spec s 3600).
  - assert (60 * (s `div` 60) ≤ s < 60 * (s `div` 60 + 1)) as Hm.
    { Z.to_euclidean_division_equations. lia. }
    lia.
  - assert (3600 * (s `div` 3600) ≤ s < 3600 * (s `div` 3600 + 1)) as Hh.
    { Z.to_euclidean_division_equations. lia. }
    lia.
Qed.

End IndicatorFacts.

(** ** More on the hook *)

Section HookMore.

Import UseSyncedData.

Context {T E : Type}.

Implicit Types (h : Hook T E) (o : Outcome T E) (os : list (Outcome T E)).

Lemma doFetch_settle_mounted e o h :
  mounted e h = true →
  mounted e (doFetch_settle e o h).1 = true
  ∧ dataState (doFetch_settle e o h).1
    = match o with Resolved r => Some r | Rejected _ => dataState h end
  ∧ errors (doFetch_settle e o h).1
    = match o with Resolved _ => errors h | Rejected err => errors h ++ [err] end
  ∧ loading (doFetch_settle e o h).1 = false.
Proof.
  intros Hm. unfold doFetch_settle. rewrite Hm.
  destruct o as [r|err]; simpl.
  - replace (mounted e (setData (Some r) h)) with true by done. done.
  - replace (mounted e (consoleError err h)) with true by done. done.
Qed.

(** X19.  While a run stays mounted, its fetches may settle in any order
    and number: the hook then holds the result that arrived last (a result
    that arrives late overwrites a newer one), a rejection never clears or
    changes the data, every rejection is logged in order, and [loading] is
    false after each of them. *)
Theorem last_settled_result_wins e os h :
  mounted e h = true →
  dataState (settleAll e os h) = from_option Some (dataState h) (last (resolvedOf os))
  ∧ errors (settleAll e os h) = errors h ++ rejectedOf os
  ∧ loading (settleAll e os h) = (if os is [] then loading h else false).
Proof.
  unfold settleAll. revert h. induction os as [|o os IH]; intros h Hm.
  - simpl. by rewrite app_nil_r.
  - cbn [foldl].
    destruct (doFetch_settle_mounted e o h Hm) as (Hm1 & Hd1 & He1 & Hl1).
    destruct (IH _ Hm1) as (-> & -> & ->). rewrite Hd1, He1, Hl1.
    split_and!.
    + destruct o as [r|err]; [|done].
      change (resolvedOf (Resolved r :: os)) with (r :: resolvedOf os).
      rewrite last_cons. by destruct (last (resolvedOf os)).
    + destruct o as [r|err]; [done|].
      change (rejectedOf (Rejected err :: os)) with (err :: rejectedOf os).
      by rewrite <- app_assoc.
    + by destruct os.
Qed.

Lemma notify_settle_effects evs h :
  forallb afterUnmount evs = true → effects (runHook evs h) = effects h.
Proof.
  unfold runHook. revert h. induction evs as [|ev evs IH]; intros h Hevs; [done|].
  simpl in Hevs. apply andb_prop in Hevs as [Hev Hevs]. cbn [foldl].
  rewrite IH by done. destruct ev; try done; simpl.
  - apply doFetch_effects.
  - apply settle_effects.
Qed.

(** X20.  [doFetch] decides whether to show the loading state by the
    [data] its run of the effect closed over.  For a run that was created
    while the hook held no data, every later call of [doFetch] (a
    notification of the transport) sets [loading] again, also when data
    has arrived in the meantime; for a run that was created with data, no
    call does.  The data itself is never touched by the call. *)
Theorem refetch_loading_follows_closure keys h0 evs :
  forallb afterUnmount evs = true →
  let e := length (effects h0) in
  let h := runHook evs (runEffect keys None h0) in
  mounted e h = true
  ∧ loading (doFetch e None h).1 = (if dataState h0 is None then true else loading h)
  ∧ dataState (doFetch e None h).1 = dataState h.
Proof.
  intros Hevs e h.
  assert (Hclosure : effects h !! e
                     = Some {| isMounted := true; data := dataState h0; watchKeys := keys |}).
  { unfold h. rewrite notify_settle_effects by done.
    unfold runEffect. rewrite doFetch_effects. simpl.
    assert (∀ h1 : Hook T E, length (effects h1) = e → dataState h1 = dataState h0 →
              (effects h1 ++ [{| isMounted := true; data := dataState h1; watchKeys := keys |}])
                !! e
              = Some {| isMounted := true; data := dataState h0; watchKeys := keys |}) as Hlook.
    { intros h1 Hlen ->. rewrite lookup_app_r by lia. by rewrite Hlen, Nat.sub_diag. }
    apply Hlook; unfold current; destruct (length (effects h0)) eqn:Hlen; try done.
    - unfold cleanup. simpl. rewrite length_alter. by rewrite Hlen. }
  assert (Hm : mounted e h = true) by (unfold mounted; by rewrite Hclosure).
  split; [done|]. unfold doFetch. rewrite Hm, Hclosure. simpl.
  by destruct (dataState h0).
Qed.

End HookMore.

Section HookMoreExamples.

Import UseSyncedData.

Lemma last_settled_result_wins_witness :
  dataState (settleAll 0 [Resolved 2; Rejected "offline"; Resolved 1] inflightHook) = Some 1
  ∧ errors (settleAll 0 [Resolved 2; Rejected "offline"; Resolved 1] inflightHook)
    = ["offline"].
Proof.
  destruct (last_settled_result_wins 0 [Resolved 2; Rejected "offline"; Resolved 1]
              inflightHook eq_refl) as (-> & -> & _).
  done.
Defined.

Lemma refetch_loading_follows_closure_witness :
  loading (doFetch 0 None
             (runHook [EvSettle 0 (Resolved 5)]
                (runEffect ["teams"] None (initial (T := nat) (E := string))))).1
  = true.
Proof.
  destruct (refetch_loading_follows_closure ["teams"] (initial (T := nat) (E := string))
              [EvSettle 0 (Resolved 5)] eq_refl) as (_ & Hloading & _).
  exact Hloading.
Defined.

End HookMoreExamples.

(** ** When the effect runs again *)

Lemma append_nil s : "" +:+ s = s.
Proof. done. Qed.

Lemma append_cons a s t : String a s +:+ t = String a (s +:+ t).
Proof. done. Qed.

Lemma append_assoc s1 s2 s3 : (s1 +:+ s2) +:+ s3 = s1 +:+ s2 +:+ s3.
Proof. induction s1 as [|a s1 IH]; [done|]. by rewrite !append_cons, IH. Qed.

Lemma has_comma_app s1 s2 : has_comma (s1 +:+ s2) = has_comma s1 || has_comma s2.
Proof.
  induction s1 as [|a s1 IH]; [done|].
  rewrite append_cons. simpl. by rewrite IH, orb_assoc.
Qed.

(** A string without comma, followed by a comma, determines both itself
    and what follows. *)
Lemma comma_split s1 s2 r1 r2 :
  has_comma s1 = false → has_comma s2 = false →
  s1 +:+ "," +:+ r1 = s2 +:+ "," +:+ r2 → s1 = s2 ∧ r1 = r2.
Proof.
  revert s2. induction s1 as [|a s1 IH]; intros [|b s2];
    rewrite ?append_nil, ?append_cons; simpl; intros H1 H2 Heq;
    rewrite ?append_cons, ?append_nil in Heq.
  - by injection Heq as ->.
  - injection Heq as <- _. by rewrite bool_decide_eq_true_2 in H2.
  - injection Heq as -> _. by rewrite bool_decide_eq_true_2 in H1.
  - injection Heq as -> Heq.
    apply orb_false_elim in H1 as [_ H1]. apply orb_false_elim in H2 as [_ H2].
    by destruct (IH s2 H1 H2 Heq) as [-> ->].
Qed.

Lemma join_cons_cons sep x y l : join sep (x :: y :: l) = x +:+ sep +:+ join sep (y :: l).
Proof. done. Qed.

(** X22.  The effect depends on the watch keys through their join with
    commas.  For lists that are not empty and whose keys contain no comma
    the join determines the list, so every change of the keys runs the
    effect again.  Beyond that it does not: a key with a comma in it is
    indistinguishable from the keys it splits into, and the empty list from
    the list of one empty key. *)
Theorem keysDependency_determines_keys :
  (∀ l1 l2, l1 ≠ [] → l2 ≠ [] →
     Forall (λ k, has_comma k = false) l1 → Forall (λ k, has_comma k = false) l2 →
     keysDependency l1 = keysDependency l2 → l1 = l2)
  ∧ (∀ a b l, keysDependency ((a +:+ "," +:+ b) :: l) = keysDependency (a :: b :: l))
  ∧ keysDependency [] = keysDependency [""].
Proof.
  unfold keysDependency. split_and!; [|by intros a b [|c l]; simpl;
    rewrite ?append_assoc|done].
  induction l1 as [|x l1 IH]; intros l2 Hne1 Hne2 Hc1 Hc2 Heq; [done|].
  destruct l2 as [|y l2]; [done|].
  apply Forall_cons in Hc1 as [Hx Hc1]. apply Forall_cons in Hc2 as [Hy Hc2].
  destruct l1 as [|x' l1], l2 as [|y' l2].
  - simpl in Heq. by rewrite Heq.
  - exfalso. rewrite join_cons_cons in Heq. change (join "," [x]) with x in Heq.
    rewrite Heq in Hx.
    rewrite !has_comma_app in Hx. simpl in Hx. by rewrite orb_true_r in Hx.
  - exfalso. rewrite join_cons_cons in Heq. change (join "," [y]) with y in Heq.
    rewrite <- Heq in Hy.
    rewrite !has_comma_app in Hy. simpl in Hy. by rewrite orb_true_r in Hy.
  - rewrite !join_cons_cons in Heq.
    destruct (comma_split _ _ _ _ Hx Hy Heq) as [-> Hrest].
    f_equal. by apply IH.
Qed.

Lemma keysDependency_determines_keys_witness :
  Forall (λ k, has_comma k = false) ["teams"; "events"]
  ∧ (keysDependency ["teams"; "events"] = keysDependency ["teams"; "events"] →
     ["teams"; "events"] = ["teams"; "events"])
  ∧ keysDependency ["teams,events"] = keysDependency ["teams"; "events"].
Proof.
  destruct keysDependency_determines_keys as (Hinj & Hsplit & _).
  split_and!.
  - repeat constructor.
  - apply Hinj; [done|done|repeat constructor..].
  - apply (Hsplit "teams" "events" []).
Defined.

(** ** The sign-up page *)

Section SignupFacts.
Import Signup.

Lemma matches_nil_nullable r : matches r [] → nullable r = true.
Proof.
  intros H. remember [] as s eqn:Hs. induction H; simpl; try done.
  - apply app_eq_nil in Hs as [-> ->]. by rewrite IHmatches1, IHmatches2.
  - by rewrite IHmatches.
  - rewrite IHmatches by done. apply orb_true_r.
Qed.

Lemma nullable_matches r : nullable r = true ↔ matches r [].
Proof.
  split; [|apply matches_nil_nullable].
  induction r; simpl; try done.
  - intros _. constructor.
  - intros [H1 H2]%andb_true_iff. apply (matches_Seq _ _ [] []); auto.
  - intros [H|H]%orb_true_iff; [apply matches_Alt_l|apply matches_Alt_r]; auto.
  - intros _. constructor.
Qed.

Lemma matches_Seq_inv r1 r2 s :
  matches (Seq r1 r2) s ↔ ∃ s1 s2, s = s1 ++ s2 ∧ matches r1 s1 ∧ matches r2 s2.
Proof.
  split.
  - inversion 1; subst. eauto.
  - intros (s1 & s2 & -> & H1 & H2). by constructor.
Qed.

Lemma matches_Class_inv p s : matches (Class p) s ↔ ∃ c, s = [c] ∧ p c = true.
Proof.
  split.
  - inversion 1; subst. eauto.
  - intros (c & -> & H). by constructor.
Qed.

Lemma matches_Star_cons_inv r c s :
  matches (Star r) (c :: s) →
  ∃ s1 s2, s = s1 ++ s2 ∧ matches r (c :: s1) ∧ matches (Star r) s2.
Proof.
  intros H. remember (Star r) as r' eqn:Hr. remember (c :: s) as s' eqn:Hs.
  revert s Hs. induction H; intros s' Hs; try done.
  injection Hr as ->. destruct s1 as [|c1 s1].
  - by apply IHmatches2.
  - injection Hs as -> <-. eauto.
Qed.

Lemma deriv_matches c r s : matches (deriv c r) s ↔ matches r (c :: s).
Proof.
  revert s. induction r as [| |p|r1 IH1 r2 IH2|r1 IH1 r2 IH2|r IH]; intros s; simpl.
  - split; inversion 1.
  - split; inversion 1.
  - rewrite matches_Class_inv. destruct (p c) eqn:Hp.
    + split.
      * inversion 1; subst. eauto.
      * intros (c' & [= <- ->] & _). constructor.
    + split; [inversion 1|]. intros (c' & [= <- ->] & ?). congruence.
  - destruct (nullable r1) eqn:Hn.
    + split.
      * inversion 1 as [| | |? ? ? HL|? ? ? HR| |]; subst.
        -- apply matches_Seq_inv in HL as (s1 & s2 & -> & H1 & H2).
           apply IH1 in H1. by apply (matches_Seq _ _ (c :: s1) s2).
        -- apply IH2 in HR. apply nullable_matches in Hn.
           by apply (matches_Seq _ _ [] (c :: s)).
      * intros (s1 & s2 & Heq & H1 & H2)%matches_Seq_inv.
        destruct s1 as [|c1 s1].
        -- simpl in Heq. subst s2. apply matches_Alt_r. by apply IH2.
        -- injection Heq as <- ->. apply matches_Alt_l.
           apply matches_Seq; [by apply IH1|done].
    + rewrite !matches_Seq_inv. split.
      * intros (s1 & s2 & -> & H1 & H2). apply IH1 in H1.
        by exists (c :: s1), s2.
      * intros (s1 & s2 & Heq & H1 & H2). destruct s1 as [|c1 s1].
        -- apply matches_nil_nullable in H1. congruence.
        -- injection Heq as <- ->. exists s1, s2. by rewrite IH1.
  - split.
    + inversion 1; subst; [apply matches_Alt_l; by apply IH1|apply matches_Alt_r; by apply IH2].
    + inversion 1; subst; [apply matches_Alt_l; by apply IH1|apply matches_Alt_r; by apply IH2].
  - split.
    + intros (s1 & s2 & -> & H1 & H2)%matches_Seq_inv. apply IH in H1.
      by apply (matches_Star_cons _ (c :: s1) s2).
    + intros (s1 & s2 & -> & H1 & H2)%matches_Star_cons_inv.
      apply matches_Seq; [by apply IH|done].
Qed.

(** [test] decides [matches]. *)
Lemma test_matches r s : test r s = true ↔ matches r s.
Proof.
  unfold test. revert r. induction s as [|c s IH]; intros r; simpl.
  - apply nullable_matches.
  - by rewrite IH, deriv_matches.
Qed.

Lemma matches_Star_Class p s :
  matches (Star (Class p)) s ↔ Forall (λ c, p c = true) s.
Proof.
  split.
  - intros H. remember (Star (Class p)) as r eqn:Hr. induction H; try done.
    injection Hr as ->. apply Forall_app. split; [|by apply IHmatches2].
    apply matches_Class_inv in H as (c & -> & Hc). by constructor.
  - induction 1 as [|c s Hc _ IH]; [constructor|].
    apply (matches_Star_cons _ [c] s); [by constructor|done].
Qed.

Lemma matches_Plus_Class p s :
  matches (Plus (Class p)) s ↔ s ≠ [] ∧ Forall (λ c, p c = true) s.
Proof.
  unfold Plus. rewrite matches_Seq_inv. split.
  - intros (s1 & s2 & -> & (c & -> & Hc)%matches_Class_inv & H2%matches_Star_Class).
    split; [done|]. by constructor.
  - intros [Hne Hall]. destruct Hall as [|c s Hc Hall]; [done|].
    exists [c], s. split_and!; [done|by constructor|by apply matches_Star_Class].
Qed.

Lemma matches_Chr c s : matches (Chr c) s ↔ s = [c].
Proof.
  unfold Chr. rewrite matches_Class_inv. split.
  - intros (c' & -> & ->%N.eqb_eq). done.
  - intros ->. exists c. by rewrite N.eqb_refl.
Qed.


Lemma notSpaceNorAt_plain c : notSpaceNorAt c = true ↔ plain c.
Proof.
  unfold notSpaceNorAt, plain. rewrite negb_true_iff, orb_false_iff, N.eqb_neq. done.
Qed.

Lemma Forall_plain l : Forall (λ c, notSpaceNorAt c = true) l ↔ Forall plain l.
Proof. apply Forall_iff, notSpaceNorAt_plain. Qed.

Lemma filter_at_plain l : Forall plain l → filter (λ c, c = 64%N) l = [].
Proof.
  induction 1 as [|c l [_ Hc] _ IH]; [done|].
  by rewrite filter_cons, decide_False.
Qed.

(** X23.  [validateEmail] accepts exactly the strings of the shape
    [local@domain.rest], where the three parts are not empty and contain
    neither white space nor [@] (dots are allowed in all three).  So an
    accepted address has no white space and exactly one [@]. *)
Theorem validateEmail_shape (s : list N) :
  (validateEmail s = true ↔
     ∃ l d t, s = l ++ 64%N :: d ++ 46%N :: t
              ∧ l ≠ [] ∧ d ≠ [] ∧ t ≠ [] ∧ Forall plain (l ++ d ++ t))
  ∧ (validateEmail s = true →
       Forall (λ c, isSpace c = false) s ∧ length (filter (λ c, c = 64%N) s) = 1).
Proof.
  assert (Hshape : validateEmail s = true ↔
     ∃ l d t, s = l ++ 64%N :: d ++ 46%N :: t
              ∧ l ≠ [] ∧ d ≠ [] ∧ t ≠ [] ∧ Forall plain (l ++ d ++ t)).
  { unfold validateEmail. rewrite test_matches. unfold emailRegex.
    split.
    - intros (l & ? & -> & [Hl1 Hl2]%matches_Plus_Class
              & (? & ? & -> & ->%matches_Chr
              & (d & ? & -> & [Hd1 Hd2]%matches_Plus_Class
              & (? & t & -> & ->%matches_Chr & [Ht1 Ht2]%matches_Plus_Class)
                %matches_Seq_inv)%matches_Seq_inv)%matches_Seq_inv)%matches_Seq_inv.
      exists l, d, t. split_and!; try done.
      rewrite !Forall_app. by rewrite <- !Forall_plain.
    - intros (l & d & t & -> & Hl & Hd & Ht & Hall).
      rewrite !Forall_app, <- !Forall_plain in Hall. destruct Hall as (Hl2 & Hd2 & Ht2).
      apply matches_Seq; [by apply matches_Plus_Class|].
      apply (matches_Seq _ _ [64%N]); [by apply matches_Chr|].
      apply matches_Seq; [by apply matches_Plus_Class|].
      apply (matches_Seq _ _ [46%N]); [by apply matches_Chr|].
      by apply matches_Plus_Class. }
  split; [done|].
  intros (l & d & t & -> & _ & _ & _ & Hall)%Hshape.
  rewrite !Forall_app in Hall. destruct Hall as (Hl & Hd & Ht).
  split.
  - rewrite Forall_app, Forall_cons, Forall_app, Forall_cons.
    split_and!; try done; eapply Forall_impl; eauto; by intros ? [? _].
  - rewrite filter_app, filter_cons, decide_True by done.
    rewrite filter_app, filter_cons, decide_False by done.
    rewrite !filter_at_plain by done. done.
Qed.

Lemma validateEmail_shape_witness :
  validateEmail (lit "ana@school.edu") = true.
Proof.
  apply (validateEmail_shape (lit "ana@school.edu")).
  exists (lit "ana"), (lit "school"), (lit "edu").
  split_and!; [done..|].
  apply Forall_plain, (bool_decide_unpack _). by vm_compute.
Defined.

Lemma toggle_twice_absent name l : name ∉ l → toggle name (toggle name l) = l.
Proof.
  intros Hnot. unfold toggle at 2. rewrite bool_decide_eq_false_2 by done.
  unfold toggle. rewrite bool_decide_eq_true_2 by (apply elem_of_app; right; by left).
  rewrite filter_app, filter_cons, decide_False by (intros H; by apply H).
  rewrite filter_nil, app_nil_r.
  induction l as [|x l IH]; [done|].
  apply not_elem_of_cons in Hnot as [Hx Hl].
  rewrite filter_cons, decide_True by done. f_equal. by apply IH.
Qed.

(** X24.  [handleEventToggle] switches the membership of the event in the
    list of interesting events and of no other event, and keeps the list
    free of duplicates.  An event that was not in the list is put at its
    end, and toggling it twice gives back the page as it was; an event
    that was in the list is removed wherever it occurs. *)
Theorem handleEventToggle_toggles eventName p :
  let events := interestedEvents (formData p) in
  let events' := interestedEvents (formData (handleEventToggle eventName p)) in
  (eventName ∈ events' ↔ eventName ∉ events)
  ∧ (∀ e, e ≠ eventName → e ∈ events' ↔ e ∈ events)
  ∧ (NoDup events → NoDup events')
  ∧ (eventName ∉ events →
     events' = events ++ [eventName]
     ∧ handleEventToggle eventName (handleEventToggle eventName p) = p)
  ∧ (eventName ∈ events → events' = filter (λ e, e ≠ eventName) events).
Proof.
  destruct p as [[f1 f2 f3 f4 f5 f6 f7 f8 f9 f10 f11 f12 f13 events] err eerr ld].
  simpl. unfold toggle. split_and!.
  - case_bool_decide as Hin.
    + rewrite list_elem_of_filter. split; [by intros [? _]|done].
    + rewrite elem_of_app, list_elem_of_singleton. split; [done|auto].
  - intros e He. case_bool_decide as Hin.
    + rewrite list_elem_of_filter. split; [by intros [_ ?]|done].
    + rewrite elem_of_app, list_elem_of_singleton. split; [by intros [?|?]|auto].
  - intros Hnd. case_bool_decide as Hin.
    + by apply NoDup_filter.
    + apply NoDup_app. split_and!; [done| |apply NoDup_singleton].
      intros x Hx ->%list_elem_of_singleton. done.
  - intros Hnot. rewrite bool_decide_eq_false_2 by done. split; [done|].
    unfold handleEventToggle, set_formData, set_interestedEvents. simpl.
    fold (toggle eventName events). fold (toggle eventName (toggle eventName events)).
    by rewrite toggle_twice_absent.
  - intros Hin. by rewrite bool_decide_eq_true_2.
Qed.

Lemma handleEventToggle_toggles_witness :
  interestedEvents
    (formData (handleEventToggle (lit "chess")
       {| formData := mkFormData [] [] [] [] [] [] [] [] [] [] [] [] [] [lit "relay"];
          error := []; emailError := []; loading := false |}))
  = [lit "relay"; lit "chess"].
Proof.
  set (p := {| formData := mkFormData [] [] [] [] [] [] [] [] [] [] [] [] [] [lit "relay"];
               error := []; emailError := []; loading := false |}).
  destruct (handleEventToggle_toggles (lit "chess") p) as (_ & _ & _ & Hnew & _).
  apply Hnew. vm_compute. by intros [=]%list_elem_of_singleton.
Defined.




Lemma isDecimal_digit c : isDecimal c → radixDigit 10 c = Some (c - 48)%N.
Proof.
  unfold isDecimal, radixDigit, digitValue. intros [H1 H2].
  rewrite (proj2 (N.leb_le 48 c)), (proj2 (N.leb_le c 57)) by done. simpl.
  by rewrite (proj2 (N.ltb_lt (c - 48) 10)) by lia.
Qed.

Lemma isDecimal_not_space c : isDecimal c → isSpace c = false.
Proof.
  unfold isDecimal, isSpace. intros [H1 H2].
  repeat (apply orb_false_intro);
    first [apply N.eqb_neq; lia
          | apply andb_false_iff; right; apply N.leb_gt; lia
          | apply andb_false_iff; left; apply N.leb_gt; lia].
Qed.

Lemma not_decimal_digit c : ¬ isDecimal c → radixDigit 10 c = None.
Proof.
  unfold isDecimal, radixDigit, digitValue. intros Hc.
  destruct (48 <=? c)%N eqn:H1, (c <=? 57)%N eqn:H2; simpl.
  - apply N.leb_le in H1, H2. lia.
  - apply N.leb_gt in H2.
    destruct ((65 <=? c)%N && (c <=? 90)%N) eqn:H3.
    + apply andb_true_iff in H3 as [H3 H4]. apply N.leb_le in H3, H4.
      by rewrite (proj2 (N.ltb_ge (c - 55) 10)) by lia.
    + destruct ((97 <=? c)%N && (c <=? 122)%N) eqn:H5; [|done].
      apply andb_true_iff in H5 as [H5 H6]. apply N.leb_le in H5, H6.
      by rewrite (proj2 (N.ltb_ge (c - 87) 10)) by lia.
  - apply N.leb_gt in H1. apply N.leb_le in H2.
    rewrite (proj2 (andb_false_iff _ _)) by (left; apply N.leb_gt; lia).
    by rewrite (proj2 (andb_false_iff _ _)) by (left; apply N.leb_gt; lia).
  - apply N.leb_gt in H1, H2. lia.
Qed.


Lemma leadingDigits_decimal ds rest :
  Forall isDecimal ds → ends_number rest →
  leadingDigits 10 (ds ++ rest) = (λ c, c - 48)%N <$> ds.
Proof.
  intros Hds Hrest. induction Hds as [|c ds Hc _ IH]; simpl.
  - destruct rest as [|c rest]; [done|]. simpl. by rewrite not_decimal_digit.
  - rewrite isDecimal_digit by done. f_equal. apply IH.
Qed.

(** [parseInt] reads the leading decimal digits, after an optional minus
    sign, and ignores what follows them, unless the digits start a
    hexadecimal literal [0x] or [0X]. *)
Lemma parseInt_decimal (minus : bool) ds rest :
  ds ≠ [] → Forall isDecimal ds → ends_number rest →
  ¬ (ds = [48%N] ∧ ∃ x rest', rest = x :: rest' ∧ (x = 120%N ∨ x = 88%N)) →
  parseInt ((if minus then [45%N] else []) ++ ds ++ rest)
  = Some ((if minus then -1 else 1) * Z.of_N (decimal ds))%Z.
Proof.
  intros Hne Hds Hrest Hhex. destruct ds as [|c ds]; [done|].
  apply Forall_cons in Hds as [Hc Hds].
  assert (Hhexb : hexPrefix ((c :: ds) ++ rest) = false).
  { unfold hexPrefix. simpl. destruct (ds ++ rest) as [|x l] eqn:Hl; [done|].
    apply andb_false_iff. destruct (N.eq_dec c 48%N) as [->|Hc48];
      [right|left; by apply N.eqb_neq].
    apply orb_false_iff. destruct ds as [|d ds].
    - simpl in Hl. subst rest.
      split; apply N.eqb_neq; intros ->; apply Hhex; split; eauto.
    - injection Hl as -> _. apply Forall_cons in Hds as [Hd _].
      unfold isDecimal in Hd. split; apply N.eqb_neq; lia. }
  assert (Hdigits : leadingDigits 10 ((c :: ds) ++ rest)
                    = (c - 48)%N :: ((λ c, c - 48)%N <$> ds)).
  { apply (leadingDigits_decimal (c :: ds)); [by constructor|done]. }
  assert (c ≠ 45%N ∧ c ≠ 43%N) as [H45 H43] by (unfold isDecimal in Hc; lia).
  assert (Hsigned : ∀ s, trimStart s = s → dropSign s = (c :: ds) ++ rest →
            parseInt s = Some (signOf s * Z.of_N (decimal (c :: ds)))%Z).
  { intros s Htrim Hdrop. unfold parseInt. cbv zeta.
    by rewrite Htrim, Hdrop, Hhexb, Hdigits. }
  destruct minus.
  - by rewrite (Hsigned ([45%N] ++ (c :: ds) ++ rest) eq_refl eq_refl).
  - rewrite Hsigned.
    + simpl. by rewrite (proj2 (N.eqb_neq c 45%N)).
    + simpl. by rewrite isDecimal_not_space.
    + simpl. by rewrite (proj2 (N.eqb_neq c 45%N)), (proj2 (N.eqb_neq c 43%N)).
Qed.

(** X25.  The age check of [handleSubmit] reads the leading decimal digits
    of the age and ignores what follows them (unless they start a
    hexadecimal literal): the age is refused exactly when the number these
    digits denote is below 13, whatever follows ([12.9] and [1e3] are
    refused, the latter as 1), and an age with a minus sign is always
    refused. *)
Theorem age_check_reads_leading_digits ds rest :
  ds ≠ [] → Forall isDecimal ds → ends_number rest →
  ¬ (ds = [48%N] ∧ ∃ x rest', rest = x :: rest' ∧ (x = 120%N ∨ x = 88%N)) →
  tooYoung (ds ++ rest) = bool_decide (decimal ds < 13)%N
  ∧ tooYoung (45%N :: ds ++ rest) = true.
Proof.
  intros Hne Hds Hrest Hhex.
  pose proof (parseInt_decimal false ds rest Hne Hds Hrest Hhex) as Hplus.
  pose proof (parseInt_decimal true ds rest Hne Hds Hrest Hhex) as Hminus.
  unfold tooYoung. split.
  - change (ds ++ rest) with ([] ++ ds ++ rest) at 2. rewrite Hplus.
    replace (nonEmpty (ds ++ rest)) with true by by destruct ds.
    cbn [negb orb]. case_bool_decide as Hlt.
    + apply Z.ltb_lt. lia.
    + apply Z.ltb_ge. lia.
  - change (45%N :: ds ++ rest) with ([45%N] ++ ds ++ rest) at 2. rewrite Hminus.
    cbn [nonEmpty app negb orb]. apply Z.ltb_lt. lia.
Qed.

Lemma age_check_reads_leading_digits_witness :
  tooYoung (lit "12" ++ lit ".9") = true
  ∧ tooYoung (lit "1" ++ lit "e3") = true
  ∧ tooYoung (lit "13" ++ []) = false.
Proof.
  split_and!.
  - rewrite (proj1 (age_check_reads_leading_digits (lit "12") (lit ".9")
        ltac:(done) ltac:(apply (bool_decide_unpack _); by vm_compute)
        ltac:(intros [H1 H2]; first [exact (H1 eq_refl)|exact (H2 eq_refl)]) ltac:(by intros [[=] _]))).
    by vm_compute.
  - rewrite (proj1 (age_check_reads_leading_digits (lit "1") (lit "e3")
        ltac:(done) ltac:(apply (bool_decide_unpack _); by vm_compute)
        ltac:(intros [H1 H2]; first [exact (H1 eq_refl)|exact (H2 eq_refl)]) ltac:(by intros [[=] _]))).
    by vm_compute.
  - rewrite (proj1 (age_check_reads_leading_digits (lit "13") []
        ltac:(done) ltac:(apply (bool_decide_unpack _); by vm_compute)
        ltac:(done) ltac:(by intros [[=] _]))).
    by vm_compute.
Defined.

(** X26.  An age that starts with something that is neither a digit, a
    sign nor white space is not a number for [parseInt], and passes the
    age check: a comparison with [NaN] is false. *)
Theorem age_not_a_number_passes c rest :
  ¬ isDecimal c → isSpace c = false → c ≠ 43%N → c ≠ 45%N →
  parseInt (c :: rest) = None ∧ tooYoung (c :: rest) = false.
Proof.
  intros Hc Hsp H43 H45.
  assert (Hparse : parseInt (c :: rest) = None).
  { assert (c ≠ 48%N) as H48 by (intros ->; apply Hc; unfold isDecimal; lia).
    assert (Htrim : trimStart (c :: rest) = c :: rest) by (simpl; by rewrite Hsp).
    assert (Hdrop : dropSign (c :: rest) = c :: rest).
    { simpl. by rewrite (proj2 (N.eqb_neq c 45%N)), (proj2 (N.eqb_neq c 43%N)). }
    assert (Hhex : hexPrefix (c :: rest) = false).
    { destruct rest; [done|]. simpl. by rewrite (proj2 (N.eqb_neq c 48%N)). }
    unfold parseInt. cbv zeta. rewrite Htrim, Hdrop, Hhex.
    cbn [leadingDigits]. by rewrite not_decimal_digit. }
  split; [done|]. unfold tooYoung. by rewrite Hparse.
Qed.

Lemma age_not_a_number_passes_witness : tooYoung (lit "old enough") = false.
Proof.
  apply (age_not_a_number_passes 111%N (lit "ld enough")); [|done..].
  unfold isDecimal. lia.
Defined.

(** X27.  [handleSubmit] from start to end.  [register] is called only
    when the address is valid, the two passwords are equal and the age
    passes; it is given the form data, and the page is then loading with
    both messages cleared.  When the call has settled, the page is not
    loading any more, and it navigates to the dashboard exactly when
    nothing was thrown.  When something was thrown whose message is a
    string or is missing, exactly one of the two messages is shown and
    [handleSubmit] completes.  When [null] or [undefined] was thrown, or
    the message is a truthy value that is not a string, the [catch] block
    throws in its turn: no message is shown, and the promise of
    [handleSubmit] is rejected.  A submit that is refused by a check calls
    nothing, leaves [loading] as it is and shows a message. *)
Theorem handleSubmit_end_to_end p o :
  match handleSubmit p with
  | (p1, Some d) =>
      validateEmail (email (formData p)) = true
      ∧ password (formData p) = confirmPassword (formData p)
      ∧ tooYoung (age (formData p)) = false
      ∧ d = dataToSubmit (formData p)
      ∧ loading p1 = true ∧ error p1 = [] ∧ emailError p1 = []
      ∧ let '(p2, routes, rejected) := handleSubmit_settle o p1 in
        loading p2 = false
        ∧ formData p2 = formData p
        ∧ match o with
          | Registered =>
              routes = [lit "/dashboard"] ∧ rejected = false
              ∧ error p2 = [] ∧ emailError p2 = []
          | Threw Unreadable | Threw NotAString =>
              routes = [] ∧ rejected = true
              ∧ error p2 = [] ∧ emailError p2 = []
          | Threw NoMessage | Threw (Message _) =>
              routes = [] ∧ rejected = false
              ∧ (error p2 ≠ [] ∧ emailError p2 = [] ∨ error p2 = [] ∧ emailError p2 ≠ [])
          end
  | (p1, None) =>
      (validateEmail (email (formData p)) = false
       ∨ password (formData p) ≠ confirmPassword (formData p)
       ∨ tooYoung (age (formData p)) = true)
      ∧ loading p1 = loading p
      ∧ formData p1 = formData p
      ∧ (error p1 ≠ [] ∨ emailError p1 ≠ [])
  end.
Proof.
  unfold handleSubmit.
  destruct (validateEmail (email (formData p))) eqn:Hemail; cbn [negb].
  2: { split_and!; [by left|done|done|]. right. by vm_compute. }
  case_bool_decide as Hpw; cbn [negb].
  2: { split_and!; [by right; left|done|done|]. left. by vm_compute. }
  destruct (tooYoung (age (formData p))) eqn:Hage.
  { split_and!; [by right; right|done|done|]. left. by vm_compute. }
  split_and!; try done.
  destruct o as [|[| |m|]]; simpl.
  - done.
  - done.
  - split_and!; [done..|]. left. split; [|done]. by vm_compute.
  - destruct (nonEmpty m && includes m (lit "email")) eqn:Hm; simpl;
      (split_and!; [done..|]).
    + right. split; [done|]. by vm_compute.
    + left. split; [|done]. destruct m; simpl; [by vm_compute|done].
  - done.
Qed.

(** X28.  The message under the address, which disables the submit
    button, is changed by no other input of the form and by no event
    toggle.  Typing into the address field clears it exactly when the new
    value is empty or valid.  The empty address is the one value that the
    check while typing lets through and that [handleSubmit] refuses as
    invalid. *)
Theorem emailError_follows_email_edits p :
  (∀ name value, name ≠ Email → emailError (handleChange name value p) = emailError p)
  ∧ (∀ eventName, emailError (handleEventToggle eventName p) = emailError p)
  ∧ (∀ value, emailError (handleChange Email value p) = []
              ↔ value = [] ∨ validateEmail value = true)
  ∧ (∀ value, submitDisabled (handleChange Email value p)
              = loading p || nonEmpty value && negb (validateEmail value))
  ∧ (∀ value, emailError (handleChange Email value p) = []
              ∧ emailError (handleSubmit (handleChange Email value p)).1 = invalidEmail
              ↔ value = []).
Proof.
  assert (Hclear : ∀ value, emailError (handleChange Email value p) = []
                            ↔ value = [] ∨ validateEmail value = true).
  { intros value. unfold handleChange.
    destruct value as [|c value]; [split; [by left|done]|].
    cbn [nonEmpty andb]. destruct (validateEmail (c :: value)); cbn [negb].
    - split; [by right|done].
    - split; [by vm_compute|]. by intros [|]. }
  split_and!.
  - by intros [] value.
  - done.
  - done.
  - intros value. unfold submitDisabled, handleChange.
    by destruct (nonEmpty value && negb (validateEmail value)).
  - intros value. split.
    + intros [Hno Hsub]. pose proof Hno as Hno'.
      apply Hclear in Hno' as [->|Hvalid]; [done|].
      exfalso. revert Hsub. unfold handleSubmit.
      assert (Hemail : email (formData (handleChange Email value p)) = value).
      { unfold handleChange. by destruct (nonEmpty value && negb (validateEmail value)). }
      rewrite Hemail, Hvalid. cbn [negb].
      case_bool_decide; cbn [negb]; [destruct (tooYoung _)|];
        cbn [fst emailError setError setEmailError setLoading];
        rewrite ?Hno; by vm_compute.
    + intros ->. by vm_compute.
Qed.

Lemma handleSubmit_end_to_end_witness :
  let p := {| formData := mkFormData (lit "Ana") [] (lit "Cruz") (lit "2024-001")
                            (lit "ana@school.edu") (lit "secret") (lit "secret")
                            (lit "17") [] [] [] [] [] [];
              error := lit "Passwords do not match";
              emailError := [];
              loading := false |} in
  (handleSubmit p).2 = Some (dataToSubmit (formData p))
  ∧ handleSubmit_settle (Threw Unreadable) (handleSubmit p).1
    = (setLoading false (handleSubmit p).1, [], true)
  ∧ error (handleSubmit p).1 = [].
Proof.
  intros p. pose proof (handleSubmit_end_to_end p (Threw Unreadable)) as H.
  destruct (handleSubmit p) as [p1 [d|]] eqn:Hs.
  - destruct H as (_ & _ & _ & -> & _ & Herror & _). by split_and!.
  - by vm_compute in Hs.
Defined.

Lemma emailError_follows_email_edits_witness :
  let p := {| formData := mkFormData [] [] [] [] (lit "ana@") [] [] [] [] [] [] [] [] [];
              error := [];
              emailError := invalidEmail;
              loading := false |} in
  emailError (handleChange Password (lit "secret") p) = invalidEmail
  ∧ emailError (handleChange Email [] p) = [].
Proof.
  intros p. destruct (emailError_follows_email_edits p) as (Hother & _ & Hclear & _).
  split.
  - by rewrite Hother.
  - apply Hclear. by left.
Defined.

End SignupFacts.
